(** * SpectraFilm: per-frame colour reduction and barcode rendering

    A shallow embedding of [spectrafilm.go]: the colour type [RGB] with its
    HSL conversion, the three frame reductions [getAverage], [getMedian] and
    [getMode], the two renderers [genLineImage] and [genLineColImage], and
    the frame loop [processFrames] with [getPixels] and [toJSONFrame].

    - [uint8] is [Byte.byte]; Go's [int] is a 64-bit two's complement integer,
      carried in [Z] with its wrap-around written out ([int_wrap]).
    - [float64] is IEEE 754 binary64, carried by the Standard Library's
      executable specification [SpecFloat] at precision 53 and [emax] 1024.
    - Slices live in a heap of backing arrays; the reductions run in a state
      and panic monad over that heap.
    - What Go leaves to the implementation (the order an unstable [sort.Sort]
      leaves equal keys in, the iteration order of a map, the result of
      converting an out-of-range float to [uint8]) is a [Runtime] record a
      call of a reduction is parameterised by; the frame loop takes one for
      each frame.
    - An allocation has the limit of the runtime ([maxAlloc]): [make] and
      [image.NewRGBA] panic above it.
    - What the frame loop reads of its environment (the entries of a
      directory, the decoded image of a file) is a [World] record; a run in
      it returns, exits or panics. *)

From Stdlib Require Import ZArith QArith Qpower Qabs Lqa List Lia Bool SpecFloat.
From Stdlib.Strings Require Import Byte Ascii String.
From stdpp Require Import gmap strings list sorting.

Local Open Scope Z_scope.

(** ** Machine integers *)

(** Go's [int] on a 64-bit platform: the result of an arithmetic operation is
    reduced into [-2^63, 2^63). *)
Definition int_wrap (z : Z) : Z := (z + 2 ^ 63) `mod` 2 ^ 64 - 2 ^ 63.

Definition max_int : Z := 2 ^ 63 - 1.

(** The most bytes one allocation may have ([maxAlloc] of the runtime, on
    linux/amd64): [make] panics above it. Within the limit the memory is
    taken to be there. *)
Definition maxAlloc : Z := 2 ^ 48.

Definition uint8 := byte.

Definition u8_to_Z (b : uint8) : Z := Z.of_N (Byte.to_N b).

(** [uint8(z)] for an integer [z]: the low eight bits. *)
Definition u8_of_Z (z : Z) : uint8 :=
  default x00 (Byte.of_N (Z.to_N (z `mod` 256))).

Global Instance uint8_eq_dec : EqDecision uint8 := Byte.byte_eq_dec.

(** ** float64 *)

Module F64.

Definition prec : Z := 53.
Definition emax : Z := 1024.

Definition t : Type := spec_float.

Definition zero : t := S754_zero false.

(** [float64(z)] for an integer [z], rounded to nearest even. *)
Definition of_Z (z : Z) : t := binary_normalize prec emax z 0 false.

Definition add : t -> t -> t := SFadd prec emax.
Definition sub : t -> t -> t := SFsub prec emax.
Definition mul : t -> t -> t := SFmul prec emax.
Definition div : t -> t -> t := SFdiv prec emax.
Definition sqrt : t -> t := SFsqrt prec emax.

Definition eqb : t -> t -> bool := SFeqb.
Definition ltb : t -> t -> bool := SFltb.

Definition is_nan (x : t) : bool :=
  match x with S754_nan => true | _ => false end.

Definition is_finite (x : t) : bool :=
  match x with S754_zero _ | S754_finite _ _ _ => true | _ => false end.

Definition signbit (x : t) : bool :=
  match x with
  | S754_zero s | S754_infinity s | S754_finite s _ _ => s
  | S754_nan => false
  end.

(** The integer part of a finite value, rounded toward minus infinity. *)
Definition floorZ (x : t) : option Z :=
  match x with
  | S754_zero _ => Some 0
  | S754_finite s m e => Some (Z.shiftl (cond_Zopp s (Zpos m)) e)
  | _ => None
  end.

(** The integer part of a finite value, rounded toward zero. *)
Definition truncZ (x : t) : option Z :=
  match x with
  | S754_zero _ => Some 0
  | S754_finite s m e => Some (cond_Zopp s (Z.shiftl (Zpos m) e))
  | _ => None
  end.

(** [math.Floor]: zeros, infinities and NaN are returned as they are. *)
Definition Floor (x : t) : t :=
  match x with
  | S754_finite s m e =>
      if 0 <=? e then x
      else binary_normalize prec emax (Z.shiftl (cond_Zopp s (Zpos m)) e) 0 false
  | _ => x
  end.

(** [math.Max] and [math.Min], with their special cases in the order of the
    library's source. *)
Definition Max (x y : t) : t :=
  match x, y with
  | S754_infinity false, _ | _, S754_infinity false => S754_infinity false
  | S754_nan, _ | _, S754_nan => S754_nan
  | S754_zero sx, S754_zero _ => if sx then y else x
  | _, _ => if ltb y x then x else y
  end.

Definition Min (x y : t) : t :=
  match x, y with
  | S754_infinity true, _ | _, S754_infinity true => S754_infinity true
  | S754_nan, _ | _, S754_nan => S754_nan
  | S754_zero sx, S754_zero _ => if sx then x else y
  | _, _ => if ltb x y then x else y
  end.

(** [math.Pow(x, 2)]: the square of [x], correctly rounded. *)
Definition Pow2 (x : t) : t := mul x x.

(** [uint8(x)]: the fraction is discarded; when the integer part does not
    fit, Go leaves the result to the implementation ([oor]). *)
Definition to_uint8 (oor : t -> uint8) (x : t) : uint8 :=
  match truncZ x with
  | Some z => if (0 <=? z) && (z <? 256) then u8_of_Z z else oor x
  | None => oor x
  end.

(** The value of a float as a rational; zero for infinities and NaN. *)
Definition to_Q (x : t) : Q :=
  match x with
  | S754_finite s m e => (inject_Z (cond_Zopp s (Zpos m)) * 2 ^ e)%Q
  | _ => 0%Q
  end.

(** The finite values of the format: [m * 2^e] with [|m| < 2^53] and
    [-1074 <= e <= 971]. *)
Definition representable (q : Q) : Prop :=
  exists m e : Z,
    Z.abs m < 2 ^ 53 /\ -1074 <= e <= 971 /\ (q == inject_Z m * 2 ^ e)%Q.

(** A finite value of magnitude at most [N]. *)
Definition bounded_by (N : Z) (x : t) : Prop :=
  is_finite x = true /\ (Qabs (to_Q x) <= inject_Z N)%Q.

(** The comparison of finite values reads them as triples, compared
    lexicographically: the sign class, then exponent and mantissa. *)
Definition order_key (x : t) : Z * Z * Z :=
  match x with
  | S754_finite false m e => (1, e, Zpos m)
  | S754_finite true m e => (-1, - e, - Zpos m)
  | _ => (0, 0, 0)
  end.

Definition key_lt (k k' : Z * Z * Z) : Prop :=
  let '(a, b, c) := k in
  let '(a', b', c') := k' in
  a < a' \/ (a = a' /\ (b < b' \/ (b = b' /\ c < c'))).

End F64.

(** ** Colours *)

(** [type RGB [3]uint8] with its accessors [R], [G], [B]. *)
Record RGB := mkRGB { R : uint8; G : uint8; B : uint8 }.

Global Instance RGB_eq_dec : EqDecision RGB.
Proof. solve_decision. Defined.

Definition rgb (r g b : Z) : RGB := mkRGB (u8_of_Z r) (u8_of_Z g) (u8_of_Z b).

Definition black : RGB := rgb 0 0 0.
Definition white : RGB := rgb 255 255 255.

(** [color.RGBA] *)
Record RGBA := mkRGBA { rgba_R : uint8; rgba_G : uint8; rgba_B : uint8; rgba_A : uint8 }.

Global Instance RGBA_eq_dec : EqDecision RGBA.
Proof. solve_decision. Defined.

(** [func (c RGB) RGBA() color.RGBA] *)
Definition RGB_RGBA (c : RGB) : RGBA := mkRGBA (R c) (G c) (B c) xff.

(** The zero value of [color.RGBA]: what a fresh image holds. *)
Definition transparent : RGBA := mkRGBA x00 x00 x00 x00.

(** [func (c RGB) Hex() string]: ["#%02X%02X%02X"]. *)
Definition hex_digit (n : N) : ascii :=
  Ascii.ascii_of_N (if (n <? 10)%N then 48 + n else 55 + n).

Definition hex2 (b : uint8) : string :=
  let n := Byte.to_N b in
  String (hex_digit (n / 16)) (String (hex_digit (n mod 16)) EmptyString).

Definition Hex (c : RGB) : string :=
  String "#" (hex2 (R c) +:+ hex2 (G c) +:+ hex2 (B c)).

Module HSL.
Record t := mk { H : F64.t; S : F64.t; L : F64.t }.
End HSL.

(** [func (c RGB) ToHSL() HSL] *)
Definition ToHSL (c : RGB) : HSL.t :=
  let r := F64.of_Z (u8_to_Z (R c)) in
  let g := F64.of_Z (u8_to_Z (G c)) in
  let b := F64.of_Z (u8_to_Z (B c)) in
  let max := F64.Max (F64.Max r g) b in
  let min := F64.Min (F64.Min r g) b in
  let l := F64.div (F64.add max min) (F64.of_Z 2) in
  let delta := F64.sub max min in
  if F64.eqb delta F64.zero then HSL.mk F64.zero F64.zero l
  else
    let s :=
      if F64.ltb l (F64.div (F64.of_Z 1) (F64.of_Z 2))
      then F64.div delta (F64.add max min)
      else F64.div delta (F64.sub (F64.sub (F64.of_Z 2) max) min) in
    let part x :=
      F64.div (F64.add (F64.div (F64.sub max x) (F64.of_Z 6))
                       (F64.div delta (F64.of_Z 2))) delta in
    let r2 := part r in
    let g2 := part g in
    let b2 := part b in
    let h :=
      if F64.eqb r max then F64.sub b2 g2
      else if F64.eqb g max
           then F64.sub (F64.add (F64.div (F64.of_Z 1) (F64.of_Z 3)) r2) b2
      else if F64.eqb b max
           then F64.sub (F64.add (F64.div (F64.of_Z 2) (F64.of_Z 3)) g2) r2
      else F64.zero in
    let h :=
      if F64.ltb h F64.zero then F64.add h (F64.of_Z 1)
      else if F64.ltb (F64.of_Z 1) h then F64.sub h (F64.of_Z 1)
      else h in
    HSL.mk h s l.

(** ** What Go leaves to the implementation *)

(** [sort.Sort] is not stable and a map is iterated in no fixed order; the
    conversion of a float whose integer part does not fit in [uint8] is
    implementation-dependent. A [Runtime] holds these choices for one call of
    a reduction: a [range] over a map has an order of its own each time it
    runs, so code that calls the reductions several times takes a runtime for
    each call. *)
Record Runtime := {
  sort_order : forall A : Type, (A -> A -> bool) -> list A -> list A;
  map_order : forall V : Type, gmap string V -> list (string * V);
  uint8_oor : F64.t -> uint8;
}.

(** The ordering [sort.Interface] asks of [Less]. *)
Record StrictWeakOrder {A : Type} (less : A -> A -> bool) : Prop := {
  swo_irrefl : forall a, less a a = false;
  swo_trans : forall a b c, less a b = true -> less b c = true -> less a c = true;
  swo_incomp : forall a b c,
    less a b = false -> less b a = false ->
    less b c = false -> less c b = false ->
    less a c = false /\ less c a = false;
}.

(** Ascending order as [sort.Sort] establishes it: no later element is
    [less] than an earlier one. *)
Definition sorted_by {A : Type} (less : A -> A -> bool) (l : list A) : Prop :=
  StronglySorted (fun a b => less b a = false) l.

(** The contract of the library: sorting permutes, and sorts when [Less] is
    a strict weak ordering; ranging over a map visits every entry once. *)
Record RuntimeOK (rt : Runtime) : Prop := {
  sort_order_perm : forall A less l, sort_order rt A less l ≡ₚ l;
  sort_order_sorted : forall A less l,
    StrictWeakOrder less -> sorted_by less (sort_order rt A less l);
  map_order_perm : forall V (m : gmap string V), map_order rt V m ≡ₚ map_to_list m;
}.

(** A reference runtime: insertion sort, the map's own enumeration, and zero
    for an out-of-range conversion. *)
Fixpoint insert_by {A : Type} (less : A -> A -> bool) (x : A) (l : list A) : list A :=
  match l with
  | [] => [x]
  | y :: l' => if less x y then x :: l else y :: insert_by less x l'
  end.

Definition insertion_sort (A : Type) (less : A -> A -> bool) (l : list A) : list A :=
  foldr (insert_by less) [] l.

Definition ref_runtime : Runtime := {|
  sort_order := insertion_sort;
  map_order := fun V m => map_to_list m;
  uint8_oor := fun _ => x00;
|}.

(** ** sort.Interface *)

(** [Len] and [Swap] are those of the list; [Less] is what an instance
    chooses. *)
Class Interface (A : Type) := { Less : A -> A -> bool }.

(** [sort.Reverse] *)
Definition Reverse {A : Type} (I : Interface A) : Interface A :=
  {| Less a b := @Less A I b a |}.

Definition sort_Sort (rt : Runtime) {A : Type} (I : Interface A) (l : list A) : list A :=
  sort_order rt A (@Less A I) l.

(** [func (l RGBList) Less(i, j int) bool] *)
Global Instance RGBList : Interface RGB :=
  {| Less a b := F64.ltb (HSL.H (ToHSL a)) (HSL.H (ToHSL b)) |}.

Record colorCount := mkColorCount { Key : string; Value : Z; Color : RGB }.

(** [func (p colorCountList) Less(i, j int) bool] *)
Global Instance colorCountList : Interface colorCount :=
  {| Less a b := Value a <? Value b |}.

(** ** Panics, the heap of slices and the monad of the reductions *)

(** [HugeImage] is a panic of [image.NewRGBA]: the rectangle has huge or
    negative dimensions, or its buffer is more than [make] allocates. *)
Inductive panic :=
  | IndexOutOfRange
  | DivideByZero
  | MakeSliceLen
  | HugeImage.

Inductive outcome (A : Type) :=
  | Done (a : A)
  | Panic (p : panic).
Arguments Done {A} a.
Arguments Panic {A} p.

Global Instance outcome_ret : MRet outcome := fun A a => Done a.
Global Instance outcome_bind : MBind outcome := fun A B f o =>
  match o with Done a => f a | Panic p => Panic p end.

(** An [RGBList] value is a reference to a backing array; the heap lists the
    backing arrays by address. *)
Abbreviation slice := nat (only parsing).
Abbreviation heap := (list (list RGB)) (only parsing).

Definition M (A : Type) : Type := heap -> outcome (A * heap).

Global Instance M_ret : MRet M := fun A a h => Done (a, h).
Global Instance M_bind : MBind M := fun A B f c h =>
  match c h with Done (a, h') => f a h' | Panic p => Panic p end.

Definition contents (h : heap) (s : slice) : list RGB := default [] (h !! s).

(** Reading a whole slice, as a [range] loop does. *)
Definition load (s : slice) : M (list RGB) := fun h => Done (contents h s, h).

(** [len(s)] *)
Definition len (s : slice) : M Z := fun h => Done (Z.of_nat (length (contents h s)), h).

(** Whether the heap holds an array of at least [n] elements. *)
Definition holds_array (h : heap) (n : Z) : bool :=
  existsb (fun l => n <=? Z.of_nat (length l)) h.

(** [make(RGBList, n)]: a fresh zeroed backing array. It panics when [n] is
    negative or when the array, of three bytes an element, is over the
    allocation limit. Every array the program holds was allocated, and so is
    within the limit; a heap of the model need not be so, and a length that
    one of its arrays has counts as within the limit too, as it is in the
    program ([len(pixels)] in [getMedian]). On a heap whose arrays are
    within the limit this is the test of the runtime. *)
Definition make (n : Z) : M slice := fun h =>
  if n <? 0 then Panic MakeSliceLen
  else if (maxAlloc <? 3 * n) && negb (holds_array h n) then Panic MakeSliceLen
  else Done (length h, h ++ [replicate (Z.to_nat n) (mkRGB x00 x00 x00)]).

(** [copy(dst, src)]: the first [min(len(dst), len(src))] elements. *)
Definition copy (dst src : slice) : M unit := fun h =>
  let d := contents h dst in
  let s := contents h src in
  let n := Nat.min (length d) (length s) in
  Done (tt, <[dst := take n s ++ drop n d]> h).

(** [s[i]] *)
Definition index (s : slice) (i : Z) : M RGB := fun h =>
  if i <? 0 then Panic IndexOutOfRange
  else match contents h s !! Z.to_nat i with
       | Some c => Done (c, h)
       | None => Panic IndexOutOfRange
       end.

(** [s[i] = c] *)
Definition store (s : slice) (i : Z) (c : RGB) : M unit := fun h =>
  if (0 <=? i) && (i <? Z.of_nat (length (contents h s)))
  then Done (tt, <[s := <[Z.to_nat i := c]> (contents h s)]> h)
  else Panic IndexOutOfRange.

(** [for i, x := range l { body }] over a local list. *)
Fixpoint for_range {A : Type} (body : Z -> A -> M unit) (i : Z) (l : list A) : M unit :=
  match l with
  | [] => mret tt
  | x :: l' => body i x ≫= fun _ => for_range body (i + 1) l'
  end.

(** The globals the flags are parsed into. *)
Record Globals := {
  width : Z;
  lineHeight : Z;
  avgSqr : bool;
  genMode : Z;
}.

Section Program.

Context (rt : Runtime) (g : Globals).

(** [sort.Sort(s)] on a slice: the backing array is permuted in place. *)
Definition sort_slice (s : slice) : M unit := fun h =>
  Done (tt, <[s := sort_Sort rt RGBList (contents h s)]> h).

(** *** getAverage *)

(** [for _, p := range pixels { acc += f(p) }] from a zero accumulator. *)
Definition accumulate (f : RGB -> F64.t) (ps : list RGB) : F64.t :=
  foldl (fun acc p => F64.add acc (f p)) F64.zero ps.

Definition channel (sel : RGB -> uint8) (p : RGB) : F64.t := F64.of_Z (u8_to_Z (sel p)).

Definition getAverage (pixels : slice) : M RGB :=
  ps ← load pixels;
  total ← len pixels;
  if avgSqr g then
    let r := accumulate (fun p => F64.Pow2 (channel R p)) ps in
    let g' := accumulate (fun p => F64.Pow2 (channel G p)) ps in
    let b := accumulate (fun p => F64.Pow2 (channel B p)) ps in
    mret (mkRGB
      (F64.to_uint8 (uint8_oor rt) (F64.sqrt (F64.div r (F64.of_Z total))))
      (F64.to_uint8 (uint8_oor rt) (F64.sqrt (F64.div g' (F64.of_Z total))))
      (F64.to_uint8 (uint8_oor rt) (F64.sqrt (F64.div b (F64.of_Z total)))))
  else
    let r := accumulate (channel R) ps in
    let g' := accumulate (channel G) ps in
    let b := accumulate (channel B) ps in
    mret (mkRGB
      (F64.to_uint8 (uint8_oor rt) (F64.Floor (F64.div r (F64.of_Z total))))
      (F64.to_uint8 (uint8_oor rt) (F64.Floor (F64.div g' (F64.of_Z total))))
      (F64.to_uint8 (uint8_oor rt) (F64.Floor (F64.div b (F64.of_Z total))))).

(** *** getMedian *)

Definition getMedian (pixels : slice) : M RGB :=
  n ← len pixels;
  list ← make n;
  copy list pixels ≫= fun _ =>
  sort_slice list ≫= fun _ =>
  n' ← len list;
  index list (Z.quot n' 2).

(** *** getMode *)

(** One turn of the counting loop. [Value] cannot overflow: it is at most
    [len(pixels)], itself an [int]. *)
Definition count_pixel (m : gmap string colorCount) (p : RGB) : gmap string colorCount :=
  let k := Hex p in
  let m1 :=
    match m !! k with
    | Some _ => m
    | None => <[k := mkColorCount k 0 p]> m
    end in
  let cc := default (mkColorCount EmptyString 0 (mkRGB x00 x00 x00)) (m1 !! k) in
  <[k := mkColorCount (Key cc) (Value cc + 1) (Color cc)]> m1.

Definition count_pixels (ps : list RGB) : gmap string colorCount :=
  foldl count_pixel ∅ ps.

Definition ranked (ps : list RGB) : list colorCount :=
  let counts := (map_order rt colorCount (count_pixels ps)).*2 in
  let counts := sort_Sort rt colorCountList counts in
  sort_Sort rt (Reverse colorCountList) counts.

Definition getMode (pixels : slice) : M slice :=
  ps ← load pixels;
  let counts := ranked ps in
  result ← make (genMode g);
  for_range (fun i cc => store result i (Color cc)) 0
            (take (Z.to_nat (genMode g)) counts) ≫= fun _ =>
  sort_slice result ≫= fun _ =>
  mret result.

End Program.

(** ** Images *)

(** [image.Rectangle]: the points [(x, y)] with [MinX <= x < MaxX] and
    [MinY <= y < MaxY]. *)
Record Rectangle := { MinX : Z; MinY : Z; MaxX : Z; MaxY : Z }.

(** [image.Rect]: the corners are put in order. *)
Definition image_Rect (x0 y0 x1 y1 : Z) : Rectangle :=
  let '(x0, x1) := if x1 <? x0 then (x1, x0) else (x0, x1) in
  let '(y0, y1) := if y1 <? y0 then (y1, y0) else (y0, y1) in
  {| MinX := x0; MinY := y0; MaxX := x1; MaxY := y1 |}.

Definition Dx (r : Rectangle) : Z := int_wrap (MaxX r - MinX r).
Definition Dy (r : Rectangle) : Z := int_wrap (MaxY r - MinY r).

Definition in_rect (r : Rectangle) (x y : Z) : bool :=
  (MinX r <=? x) && (x <? MaxX r) && (MinY r <=? y) && (y <? MaxY r).

(** [*image.RGBA]: the pixels that were set, by coordinates; a pixel never
    set holds the zero value. *)
Record image_RGBA := { Rect : Rectangle; Pix : gmap (Z * Z) RGBA }.

(** [mul3NonNeg] of the library: the product [x * y * z], or [-1] when an
    argument is negative, when [x * y] does not fit in 64 bits, when the
    whole product does not, or when the product is not an [int]. *)
Definition mul3NonNeg (x y z : Z) : Z :=
  if (x <? 0) || (y <? 0) || (z <? 0) then -1
  else if 2 ^ 64 <=? x * y then -1
  else if 2 ^ 64 <=? x * y * z then -1
  else if max_int <? x * y * z then -1
  else x * y * z.

(** [image.NewRGBA]: panics when the length of the buffer, four bytes a
    pixel, is not what [mul3NonNeg] accepts, and in [make([]uint8, n)] when
    that length is over the allocation limit. *)
Definition NewRGBA (r : Rectangle) : outcome image_RGBA :=
  let n := mul3NonNeg 4 (Dx r) (Dy r) in
  if n <? 0 then Panic HugeImage
  else if maxAlloc <? n then Panic HugeImage
  else Done {| Rect := r; Pix := ∅ |}.

(** [img.Set(x, y, c)]: a point outside the rectangle is ignored. *)
Definition img_Set (img : image_RGBA) (x y : Z) (c : RGBA) : image_RGBA :=
  if in_rect (Rect img) x y
  then {| Rect := Rect img; Pix := <[(x, y) := c]> (Pix img) |}
  else img.

(** [img.At(x, y)] *)
Definition img_At (img : image_RGBA) (x y : Z) : RGBA :=
  if in_rect (Rect img) x y
  then default transparent (Pix img !! (x, y))
  else transparent.

(** [for i, x := range l { acc = body(acc, i, x) }] where the body may panic. *)
Fixpoint range_fold {A S : Type} (body : S -> Z -> A -> outcome S)
    (i : Z) (l : list A) (acc : S) : outcome S :=
  match l with
  | [] => Done acc
  | x :: l' => body acc i x ≫= range_fold body (i + 1) l'
  end.

Section Render.

Context (g : Globals).

(** [for x := from; x < to; x++ { img.Set(x, y, c) }] *)
Definition fill_span (img : image_RGBA) (from to y : Z) (c : RGBA) : image_RGBA :=
  foldl (fun img x => img_Set img x y c) img (seqZ from (to - from)).

(** [func genLineImage(frames RGBList, filename string)], up to the image
    that is handed to the encoder. *)
Definition genLineImage (frames : list RGB) : outcome image_RGBA :=
  img ← NewRGBA (image_Rect 0 0 (width g)
                   (int_wrap (Z.of_nat (length frames) * lineHeight g)));
  range_fold (fun img y row =>
    let c := RGB_RGBA row in
    Done (foldl (fun img i =>
            fill_span img 0 (width g) (int_wrap (int_wrap (y * lineHeight g) + i)) c)
          img (seqZ 0 (lineHeight g))))
    0 frames img.

(** [func genLineColImage(frames []RGBList, filename string)], up to the
    image that is handed to the encoder. *)
Definition genLineColImage (frames : list (list RGB)) : outcome image_RGBA :=
  img ← NewRGBA (image_Rect 0 0 (width g)
                   (int_wrap (Z.of_nat (length frames) * lineHeight g)));
  range_fold (fun img y row =>
    if decide (length row = 0%nat) then Panic DivideByZero
    else
      let colWidth := Z.quot (width g) (Z.of_nat (length row)) in
      Done (foldl (fun img i =>
              fst (foldl (fun '(img, j) col =>
                     let c := RGB_RGBA col in
                     let from := int_wrap (j * colWidth) in
                     let to := int_wrap (int_wrap (j * colWidth) + colWidth) in
                     (fill_span img from to (int_wrap (int_wrap (y * lineHeight g) + i)) c,
                      j + 1))
                   (img, 0) row))
            img (seqZ 0 (lineHeight g))))
    0 frames img.

End Render.

(** ** The vocabulary of the claims *)

(** How often a colour occurs in a grid, and how many distinct colours a
    grid has. *)
Definition occurrences (c : RGB) (ps : list RGB) : Z :=
  Z.of_nat (length (filter (fun p => p = c) ps)).

Definition distinct (ps : list RGB) : nat := length (remove_dups ps).

(** The sum of a channel, or of its squares, over a grid. *)
Definition channel_sum (sel : RGB -> uint8) (ps : list RGB) : Z :=
  foldr (fun p acc => u8_to_Z (sel p) + acc) 0 ps.

Definition channel_sum_sq (sel : RGB -> uint8) (ps : list RGB) : Z :=
  foldr (fun p acc => u8_to_Z (sel p) * u8_to_Z (sel p) + acc) 0 ps.

(** The quadratic average as the specification words it: the root of the
    mean square, rounded to the nearest integer. *)
Definition rms_rounded (sumsq n : Z) : Z := (Z.sqrt (4 * sumsq / n) + 1) / 2.

(** ** More of the colour type *)

(** Arithmetic on [uint32] is modulo [2^32]. *)
Definition u32_wrap (z : Z) : Z := z `mod` 2 ^ 32.

(** [func (c RGB) Uint32() uint32] *)
Definition Uint32 (c : RGB) : Z :=
  Z.lor (Z.lor (u32_wrap (Z.shiftl (u8_to_Z (R c)) 16))
               (u32_wrap (Z.shiftl (u8_to_Z (G c)) 8)))
        (u32_wrap (Z.shiftl (u8_to_Z (B c)) 0)).

(** [func (c color.RGBA) RGBA() (r, g, b, a uint32)] of the library: each
    channel [v] becomes the 16-bit value [v | v << 8]. *)
Definition RGBA_RGBA (c : RGBA) : Z * Z * Z * Z :=
  let widen (v : uint8) :=
    let r := u8_to_Z v in Z.lor r (u32_wrap (Z.shiftl r 8)) in
  (widen (rgba_R c), widen (rgba_G c), widen (rgba_B c), widen (rgba_A c)).

(** [func rgbaToPixel(r uint32, g uint32, b uint32, a uint32) RGB], on the
    four values [img.At(x, y).RGBA()] returns; they are unsigned, and so is
    the division. *)
Definition rgbaToPixel (rgba : Z * Z * Z * Z) : RGB :=
  let '(r, g, b, _) := rgba in
  mkRGB (u8_of_Z (r / 257)) (u8_of_Z (g / 257)) (u8_of_Z (b / 257)).

(** ** Frames *)

(** [type Frame struct]. [Mode] is an [RGBList], a reference to a backing
    array or [nil]. *)
Record Frame := mkFrame {
  Path : string;
  Average : RGB;
  Median : RGB;
  Mode : option slice;
}.

(** [type jsonFrame struct] *)
Record jsonFrame := mkJsonFrame {
  json_Path : string;
  json_Average : string;
  json_Median : string;
  json_Mode : list string;
}.

(** The elements of an [RGBList] that may be [nil]. *)
Definition elems (h : heap) (l : option slice) : list RGB :=
  match l with
  | Some s => contents h s
  | None => []
  end.

(** [func (f Frame) toJSONFrame() jsonFrame]. The strings are a local
    slice, written by index: [mode[i] = m.Hex()]. Its [make] panics when the
    slice, of sixteen bytes a string, is over the allocation limit. *)
Definition toJSONFrame (f : Frame) : M jsonFrame := fun h =>
  let ms := elems h (Mode f) in
  if maxAlloc <? 16 * Z.of_nat (length ms) then Panic MakeSliceLen
  else
    let mode := replicate (length ms) EmptyString in
    let mode := foldl (fun mode im => <[fst im := Hex (snd im)]> mode) mode (imap pair ms) in
    Done (mkJsonFrame (Path f) (Hex (Average f)) (Hex (Median f)) mode, h).

(** ** Decoded images and the file system *)

(** What the program reads of a decoded [image.Image]: its bounds and, by
    coordinates, the four values of [img.At(x, y).RGBA()]. *)
Record Image := { Bounds : Rectangle; ColorAt : Z -> Z -> Z * Z * Z * Z }.

(** [os.FileInfo], as far as it is read. *)
Record FileInfo := { Name : string; IsDir : bool }.

(** The environment of the frame processing: the entries [ioutil.ReadDir]
    returns for a directory, in its order, or [None] when it fails; and the
    image [image.Decode] returns for a file, or [None] when the file cannot
    be opened or decoded. *)
Record World := {
  ReadDir : string -> option (list FileInfo);
  Decode : string -> option Image;
}.

(** A run returns, ends the process ([os.Exit], [log.Fatal]) or panics. *)
Inductive run (A : Type) :=
  | Returns (a : A)
  | Exits (code : Z)
  | Panics (p : panic).
Arguments Returns {A} a.
Arguments Exits {A} code.
Arguments Panics {A} p.

Definition IO (A : Type) : Type := heap -> run (A * heap).

Global Instance IO_ret : MRet IO := fun A a h => Returns (a, h).
Global Instance IO_bind : MBind IO := fun A B f c h =>
  match c h with
  | Returns (a, h') => f a h'
  | Exits code => Exits code
  | Panics p => Panics p
  end.

(** A call of one of the reductions. *)
Definition call {A : Type} (c : M A) : IO A := fun h =>
  match c h with
  | Done r => Returns r
  | Panic p => Panics p
  end.

(** A slice grown by [append] from [nil] enters the heap as one backing
    array, with the elements it has when the loop is over. *)
Definition grown (l : list RGB) : IO slice := fun h => Returns (length h, h ++ [l]).

(** [for _, x := range l { acc = body(x, acc) }] in [IO]. *)
Fixpoint range_IO {A S : Type} (body : A -> S -> IO S) (l : list A) (acc : S) : IO S :=
  match l with
  | [] => mret acc
  | x :: l' => body x acc ≫= range_IO body l'
  end.

(** The globals [genAvg] and [genMed]. *)
Record Outputs := { genAvg : bool; genMed : bool }.

Section Frames.

Context (rts : nat -> Runtime) (g : Globals) (o : Outputs) (w : World).

(** [func openImage(filename string) image.Image]: exits with status 1 when
    the file cannot be opened or decoded. *)
Definition openImage (filename : string) : IO Image := fun h =>
  match Decode w filename with
  | Some img => Returns (img, h)
  | None => Exits 1
  end.

(** The two loops of [getPixels]: [y] from 0 below [bounds.Max.Y], [x] from
    0 below [bounds.Max.X], one [append] each. *)
Definition scan (img : Image) : list RGB :=
  let w := MaxX (Bounds img) in
  let h := MaxY (Bounds img) in
  foldl (fun pixels y =>
           foldl (fun pixels x => pixels ++ [rgbaToPixel (ColorAt img x y)])
                 pixels (seqZ 0 w))
        [] (seqZ 0 h).

(** [func getPixels(filename string) (RGBList, error)]; the error it
    returns is always [nil]. *)
Definition getPixels (filename : string) : IO slice :=
  img ← openImage filename;
  grown (scan img).

(** [func processFrames(frameDir string) []Frame], without what it
    prints. The reductions of the frame of index [k], which is the number of
    frames in [result] when its turn of the loop begins, run in the runtime
    [rts k]: the [range] over the map of the counts in [getMode] has an order
    of its own in each call. *)
Definition processFrames (frameDir : string) : IO (list Frame) := fun h =>
  match ReadDir w frameDir with
  | None => Exits 1
  | Some files =>
      range_IO (fun file result =>
        if IsDir file then mret result
        else
          let rt := rts (length result) in
          pixels ← getPixels (frameDir +:+ "/" +:+ Name file);
          avg ← (if genAvg o then call (getAverage rt g pixels)
                 else mret (mkRGB x00 x00 x00));
          median ← (if genMed o then call (getMedian rt pixels)
                    else mret (mkRGB x00 x00 x00));
          mode ← (if 0 <? genMode g
                  then call (getMode rt g pixels) ≫= fun m => mret (Some m)
                  else mret None);
          let subPath := "frames/" +:+ Name file in
          mret (result ++ [mkFrame subPath avg median mode]))
        files [] h
  end.

End Frames.

(** ** More vocabulary *)

(** The value a channel of the average is proved to have: the integer part
    of the mean, or of the root of the mean square. *)
Definition mean_channel (sq : bool) (sel : RGB -> uint8) (ps : list RGB) : Z :=
  if sq then Z.sqrt (channel_sum_sq sel ps / Z.of_nat (length ps))
  else channel_sum sel ps / Z.of_nat (length ps).

(** A frame holds the reductions of the pixels [ps]: each colour that was
    asked for is what the reduction returns when run on [ps] alone, and the
    others are left at the zero value. The palette is read in the heap
    [h]. *)
Definition reduces_to (rt : Runtime) (g : Globals) (o : Outputs)
    (ps : list RGB) (h : heap) (fr : Frame) : Prop :=
  (if genAvg o then getAverage rt g 0%nat [ps] = Done (Average fr, [ps])
   else Average fr = mkRGB x00 x00 x00)
  /\ (if genMed o then exists l, getMedian rt 0%nat [ps] = Done (Median fr, [ps; l])
      else Median fr = mkRGB x00 x00 x00)
  /\ (if 0 <? genMode g
      then exists s l, Mode fr = Some s /\ h !! s = Some l
                       /\ getMode rt g 0%nat [ps] = Done (1%nat, [ps; l])
      else Mode fr = None).

(** The palette [getMode] builds from the pixels [ps]: the colours of the
    first [genMode] entries of the ranking, then black up to [genMode]
    entries, sorted. *)
Definition mode_palette (rt : Runtime) (g : Globals) (ps : list RGB) : list RGB :=
  let N := Z.to_nat (genMode g) in
  let top := Color <$> take N (ranked rt ps) in
  sort_Sort rt RGBList (top ++ replicate (N - length top) (mkRGB x00 x00 x00)).

(** [reduces_to] with the palette written out. *)
Definition reduced (rt : Runtime) (g : Globals) (o : Outputs)
    (ps : list RGB) (h : heap) (fr : Frame) : Prop :=
  (if genAvg o then getAverage rt g 0%nat [ps] = Done (Average fr, [ps])
   else Average fr = mkRGB x00 x00 x00)
  /\ (if genMed o then exists l, getMedian rt 0%nat [ps] = Done (Median fr, [ps; l])
      else Median fr = mkRGB x00 x00 x00)
  /\ (if 0 <? genMode g
      then exists s, Mode fr = Some s /\ h !! s = Some (mode_palette rt g ps)
      else Mode fr = None).

(** A value in the normal form of the format: a finite value has a mantissa
    below [2^53] and an exponent of at least [-1074], and the mantissa has
    its 53 bits unless the exponent is the least one. *)
Definition canonical (x : F64.t) : Prop :=
  match x with
  | S754_finite _ m e =>
      Zpos m < 2 ^ 53 /\ -1074 <= e /\ (-1074 < e -> 2 ^ 52 <= Zpos m)
  | _ => True
  end.

(** * Properties *)

(** ** Machine integers *)

Lemma int_wrap_small z : - 2 ^ 63 <= z <= max_int -> int_wrap z = z.
Proof.
  unfold int_wrap, max_int. intros Hz.
  rewrite Z.mod_small; lia.
Qed.

Lemma u8_to_Z_range b : 0 <= u8_to_Z b <= 255.
Proof.
  unfold u8_to_Z. pose proof (Byte.to_N_bounded b). lia.
Qed.

Lemma u8_of_to_Z b : u8_of_Z (u8_to_Z b) = b.
Proof.
  unfold u8_of_Z. pose proof (u8_to_Z_range b) as Hb.
  rewrite Z.mod_small by lia. unfold u8_to_Z.
  rewrite N2Z.id, Byte.of_to_N. reflexivity.
Qed.

Lemma u8_to_of_Z z : 0 <= z <= 255 -> u8_to_Z (u8_of_Z z) = z.
Proof.
  intros Hz. unfold u8_of_Z, u8_to_Z. rewrite Z.mod_small by lia.
  pose proof (Byte.to_of_N_option_map (Z.to_N z)) as Ho.
  destruct (N.leb_spec (Z.to_N z) 255) as [_|Hgt]; [|lia].
  destruct (Byte.of_N (Z.to_N z)) as [b|] eqn:Eb; simpl in Ho; [|discriminate].
  apply Byte.to_of_N in Eb. simpl. rewrite Eb. lia.
Qed.

(** ** Images *)

Lemma img_Set_Rect img x y c : Rect (img_Set img x y c) = Rect img.
Proof. unfold img_Set. destruct (in_rect _ _ _); reflexivity. Qed.

Lemma img_At_Set_eq img x y c :
  in_rect (Rect img) x y = true -> img_At (img_Set img x y c) x y = c.
Proof.
  intros Hin. unfold img_At, img_Set. rewrite Hin. simpl.
  rewrite Hin, lookup_insert_eq. reflexivity.
Qed.

Lemma img_At_Set_ne img x y c x' y' :
  (x', y') <> (x, y) -> img_At (img_Set img x y c) x' y' = img_At img x' y'.
Proof.
  intros Hne. unfold img_At, img_Set.
  destruct (in_rect (Rect img) x y); [|reflexivity]. simpl.
  destruct (in_rect (Rect img) x' y'); [|reflexivity].
  rewrite lookup_insert_ne; [reflexivity|congruence].
Qed.

Lemma fill_span_Rect img a b y c : Rect (fill_span img a b y c) = Rect img.
Proof.
  unfold fill_span. generalize (seqZ a (b - a)) as xs. intros xs. revert img.
  induction xs as [|x xs IH]; intros img; simpl; [reflexivity|].
  rewrite IH. apply img_Set_Rect.
Qed.

Lemma foldl_Set_At_miss img xs y c x' y' :
  x' ∉ xs \/ y' <> y ->
  img_At (foldl (fun img x => img_Set img x y c) img xs) x' y' = img_At img x' y'.
Proof.
  revert img. induction xs as [|x xs IH]; intros img Hm; cbn [foldl]; [reflexivity|].
  rewrite IH.
  - apply img_At_Set_ne. intros [= -> ->].
    destruct Hm as [Hm|Hm]; [|congruence]. apply Hm. left.
  - destruct Hm as [Hm|Hm]; [left|right; exact Hm].
    intros Hin. apply Hm. right. exact Hin.
Qed.

Lemma foldl_Set_At_hit img xs y c x' :
  x' ∈ xs -> in_rect (Rect img) x' y = true ->
  img_At (foldl (fun img x => img_Set img x y c) img xs) x' y = c.
Proof.
  revert img. induction xs as [|x xs IH]; intros img Hin Hr; cbn [foldl].
  - apply elem_of_nil in Hin. contradiction.
  - destruct (decide (x' ∈ xs)) as [Hin'|Hnin].
    + apply IH; [exact Hin'|]. rewrite img_Set_Rect. exact Hr.
    + apply elem_of_cons in Hin as [->|Hin]; [|contradiction].
      rewrite foldl_Set_At_miss by (left; exact Hnin).
      apply img_At_Set_eq. exact Hr.
Qed.

(** A span paints the points of its row between its bounds that lie in the
    image, and no other point. *)
Lemma fill_span_At_hit img a b y c x' :
  a <= x' < b -> in_rect (Rect img) x' y = true ->
  img_At (fill_span img a b y c) x' y = c.
Proof.
  intros Hx Hr. unfold fill_span. apply foldl_Set_At_hit; [|exact Hr].
  apply elem_of_seqZ. lia.
Qed.

Lemma fill_span_At_miss img a b y c x' y' :
  ~ (a <= x' < b) \/ y' <> y ->
  img_At (fill_span img a b y c) x' y' = img_At img x' y'.
Proof.
  intros Hm. unfold fill_span. apply foldl_Set_At_miss.
  destruct Hm as [Hm|Hm]; [left|right; exact Hm].
  rewrite elem_of_seqZ. lia.
Qed.

Lemma foldl_span_Rect img (f : Z -> Z) (rows : list Z) a b c :
  Rect (foldl (fun img i => fill_span img a b (f i) c) img rows) = Rect img.
Proof.
  revert img. induction rows as [|i rows IH]; intros img; cbn [foldl]; [reflexivity|].
  rewrite IH. apply fill_span_Rect.
Qed.

Lemma foldl_span_miss img (f : Z -> Z) (rows : list Z) a b c x y :
  (forall i, i ∈ rows -> f i <> y) \/ ~ (a <= x < b) ->
  img_At (foldl (fun img i => fill_span img a b (f i) c) img rows) x y = img_At img x y.
Proof.
  revert img. induction rows as [|i rows IH]; intros img Hm; cbn [foldl]; [reflexivity|].
  rewrite IH.
  - apply fill_span_At_miss. destruct Hm as [Hm|Hm]; [right|left; exact Hm].
    intros Heq. apply (Hm i); [left|congruence].
  - destruct Hm as [Hm|Hm]; [left|right; exact Hm].
    intros j Hj. apply Hm. right. exact Hj.
Qed.

Lemma foldl_span_hit img (f : Z -> Z) (rows : list Z) a b c x y :
  (exists i, i ∈ rows /\ f i = y) -> a <= x < b -> in_rect (Rect img) x y = true ->
  img_At (foldl (fun img i => fill_span img a b (f i) c) img rows) x y = c.
Proof.
  revert img. induction rows as [|i rows IH]; intros img (j & Hj & Hf) Hx Hr; cbn [foldl].
  - apply elem_of_nil in Hj. contradiction.
  - destruct (decide (Exists (fun i' => f i' = y) rows)) as [Hex|Hnex];
      rewrite Exists_exists in *.
    + apply IH; [exact Hex|exact Hx|]. rewrite fill_span_Rect. exact Hr.
    + apply elem_of_cons in Hj as [->|Hj]; [|exfalso; apply Hnex; eauto].
      rewrite foldl_span_miss.
      * rewrite <- Hf. apply fill_span_At_hit; [exact Hx|]. rewrite Hf. exact Hr.
      * left. intros i' Hi' Heq. apply Hnex. eauto.
Qed.

(** The row loop of [genLineImage], started at frame index [k]. *)
Lemma line_rows_spec g frames : forall k img,
  0 <= k -> 0 < lineHeight g ->
  (k + Z.of_nat (length frames)) * lineHeight g <= max_int ->
  exists img',
    range_fold (fun img y row =>
      Done (foldl (fun img i =>
              fill_span img 0 (width g)
                (int_wrap (int_wrap (y * lineHeight g) + i)) (RGB_RGBA row))
            img (seqZ 0 (lineHeight g))))
      k frames img = Done img'
    /\ Rect img' = Rect img
    /\ (forall (i : nat) c x y,
          frames !! i = Some c -> 0 <= x < width g ->
          (k + Z.of_nat i) * lineHeight g <= y < (k + Z.of_nat i) * lineHeight g + lineHeight g ->
          in_rect (Rect img) x y = true ->
          img_At img' x y = RGB_RGBA c)
    /\ (forall x y, y < k * lineHeight g -> img_At img' x y = img_At img x y).
Proof.
  induction frames as [|c0 fs IH]; intros k img Hk HL Hmax.
  - exists img. cbn [range_fold]. split; [reflexivity|]. split; [reflexivity|].
    split; [|reflexivity]. intros i c x y Hi. rewrite lookup_nil in Hi. discriminate.
  - cbn [range_fold]. cbn [length] in Hmax.
    set (img1 := foldl _ img (seqZ 0 (lineHeight g))).
    assert (Hmax' : (k + 1 + Z.of_nat (length fs)) * lineHeight g <= max_int) by lia.
    destruct (IH (k + 1) img1 ltac:(lia) HL Hmax') as (img' & Hrun & HR & Hhit & Hmiss).
    assert (HR1 : Rect img1 = Rect img) by apply foldl_span_Rect.
    assert (Hrow : forall i, 0 <= i < lineHeight g ->
              int_wrap (int_wrap (k * lineHeight g) + i) = k * lineHeight g + i).
    { intros i Hi. unfold max_int in *.
      assert (0 <= k * lineHeight g) by nia.
      assert (k * lineHeight g + lineHeight g <= 2 ^ 63 - 1) by nia.
      rewrite (int_wrap_small (k * lineHeight g)) by (unfold max_int; lia).
      apply int_wrap_small. unfold max_int. lia. }
    exists img'. split; [exact Hrun|]. split; [congruence|]. split.
    + intros i c x y Hi Hx Hy Hin. destruct i as [|i]; cbn in Hi.
      * injection Hi as <-. rewrite Hmiss by lia.
        apply (foldl_span_hit img (fun i => int_wrap (int_wrap (k * lineHeight g) + i)));
          [|exact Hx|exact Hin].
        exists (y - k * lineHeight g). split.
        -- apply elem_of_seqZ. lia.
        -- rewrite Hrow by lia. lia.
      * apply (Hhit i c x y Hi Hx); [lia|]. rewrite HR1. exact Hin.
    + intros x y Hy. rewrite Hmiss by lia.
      apply (foldl_span_miss img (fun i => int_wrap (int_wrap (k * lineHeight g) + i))).
      left. intros i Hi. apply elem_of_seqZ in Hi. rewrite Hrow by lia. lia.
Qed.

Lemma NewRGBA_ok w h :
  0 <= w -> 4 * w <= max_int -> 0 <= h <= max_int -> 4 * w * h <= maxAlloc ->
  NewRGBA (image_Rect 0 0 w h) =
  Done {| Rect := {| MinX := 0; MinY := 0; MaxX := w; MaxY := h |}; Pix := ∅ |}.
Proof.
  intros Hw Hw4 Hh Hmax. unfold image_Rect.
  destruct (Z.ltb_spec w 0) as [?|_]; [lia|]. destruct (Z.ltb_spec h 0) as [?|_]; [lia|].
  unfold NewRGBA, Dx, Dy. cbn [MinX MinY MaxX MaxY]. rewrite !Z.sub_0_r.
  rewrite !int_wrap_small by (unfold max_int in *; lia).
  assert (Hlim : maxAlloc <= max_int) by (unfold maxAlloc, max_int; lia).
  assert (H64 : max_int < 2 ^ 64) by (unfold max_int; lia).
  unfold mul3NonNeg.
  destruct (Z.ltb_spec 4 0); [lia|]. destruct (Z.ltb_spec w 0); [lia|].
  destruct (Z.ltb_spec h 0); [lia|]. cbn [orb].
  destruct (Z.leb_spec (2 ^ 64) (4 * w)); [lia|].
  destruct (Z.leb_spec (2 ^ 64) (4 * w * h)); [lia|].
  destruct (Z.ltb_spec max_int (4 * w * h)); [lia|]. cbn zeta.
  destruct (Z.ltb_spec (4 * w * h) 0); [nia|].
  destruct (Z.ltb_spec maxAlloc (4 * w * h)); [lia|]. reflexivity.
Qed.

(** C8. Given [K] colours, a width [W > 0] and a line height [L > 0] (with a
    raster [image.NewRGBA] allocates: [4 * W] is an [int] and the buffer, of
    [4 * W * K * L] bytes, is within the allocation limit), [genLineImage]
    returns an image of width [W] and height [K * L] in which every pixel of
    rows [i * L] to [i * L + L - 1] is exactly the [i]-th colour of the
    sequence, fully opaque. *)
Theorem genLineImage_bands g (frames : list RGB) :
  0 < width g -> 4 * width g <= max_int -> 0 < lineHeight g ->
  4 * width g * (Z.of_nat (length frames) * lineHeight g) <= maxAlloc ->
  exists img,
    genLineImage g frames = Done img
    /\ Rect img = {| MinX := 0; MinY := 0; MaxX := width g;
                     MaxY := Z.of_nat (length frames) * lineHeight g |}
    /\ forall (i : nat) c x y,
         frames !! i = Some c -> 0 <= x < width g ->
         Z.of_nat i * lineHeight g <= y <= Z.of_nat i * lineHeight g + lineHeight g - 1 ->
         img_At img x y = RGB_RGBA c.
Proof.
  intros HW HW4 HL Hmax. unfold genLineImage.
  set (K := Z.of_nat (length frames)) in *.
  assert (HK : 0 <= K) by (unfold K; lia).
  assert (HKL : 0 <= K * lineHeight g <= max_int) by (unfold max_int, maxAlloc in *; nia).
  rewrite (int_wrap_small (K * lineHeight g)) by (unfold max_int in *; lia).
  rewrite NewRGBA_ok by lia. cbn [mbind outcome_bind].
  destruct (line_rows_spec g frames 0 {| Rect := {| MinX := 0; MinY := 0; MaxX := width g; MaxY := K * lineHeight g |}; Pix := ∅ |})
    as (img' & Hrun & HR & Hhit & _); [lia|exact HL|fold K; lia|].
  exists img'. split; [exact Hrun|]. split; [exact HR|].
  intros i c x y Hi Hx Hy. apply (Hhit i c x y Hi Hx); [lia|].
  apply lookup_lt_Some in Hi. cbn [Rect]. unfold in_rect. cbn [MinX MinY MaxX MaxY].
  assert (Z.of_nat i + 1 <= K) by (unfold K; lia).
  assert (y < K * lineHeight g) by nia.
  assert (0 <= y) by nia.
  repeat (apply andb_true_intro; split); lia.
Qed.

Lemma genLineImage_bands_witness :
  exists img,
    genLineImage {| width := 3; lineHeight := 2; avgSqr := false; genMode := 0 |}
                 [rgb 10 20 30; rgb 200 100 0] = Done img
    /\ Rect img = {| MinX := 0; MinY := 0; MaxX := 3; MaxY := 4 |}
    /\ img_At img 2 3 = RGB_RGBA (rgb 200 100 0).
Proof.
  destruct (genLineImage_bands
              {| width := 3; lineHeight := 2; avgSqr := false; genMode := 0 |}
              [rgb 10 20 30; rgb 200 100 0]) as (img & Hrun & HR & Hpix).
  - cbn. lia.
  - cbn. unfold max_int. lia.
  - cbn. lia.
  - cbn. unfold maxAlloc. lia.
  - exists img. split; [exact Hrun|]. split; [exact HR|].
    apply (Hpix 1%nat); [reflexivity|cbn; lia|cbn; lia].
Defined.

(** The row loop of [genLineColImage]: it stops with a division by zero at
    the first empty palette, and runs to the end when there is none. *)
Lemma col_rows_spec g (frames : list (list RGB)) : forall k img,
  ([] ∈ frames ->
     range_fold (fun img y row =>
      if decide (length row = 0%nat) then Panic DivideByZero
      else
        let colWidth := Z.quot (width g) (Z.of_nat (length row)) in
        Done (foldl (fun img i =>
                fst (foldl (fun '(img, j) col =>
                       let c := RGB_RGBA col in
                       let from := int_wrap (j * colWidth) in
                       let to := int_wrap (int_wrap (j * colWidth) + colWidth) in
                       (fill_span img from to (int_wrap (int_wrap (y * lineHeight g) + i)) c,
                        j + 1))
                     (img, 0) row))
              img (seqZ 0 (lineHeight g))))
      k frames img = Panic DivideByZero)
  /\ ([] ∉ frames ->
     exists img',
     range_fold (fun img y row =>
      if decide (length row = 0%nat) then Panic DivideByZero
      else
        let colWidth := Z.quot (width g) (Z.of_nat (length row)) in
        Done (foldl (fun img i =>
                fst (foldl (fun '(img, j) col =>
                       let c := RGB_RGBA col in
                       let from := int_wrap (j * colWidth) in
                       let to := int_wrap (int_wrap (j * colWidth) + colWidth) in
                       (fill_span img from to (int_wrap (int_wrap (y * lineHeight g) + i)) c,
                        j + 1))
                     (img, 0) row))
              img (seqZ 0 (lineHeight g))))
      k frames img = Done img').
Proof.
  induction frames as [|row fs IH]; intros k img.
  - split; [intros Hin; apply elem_of_nil in Hin; contradiction|].
    intros _. exists img. reflexivity.
  - cbn [range_fold]. destruct (decide (length row = 0%nat)) as [Hlen|Hlen].
    + split; [reflexivity|]. intros Hnin. exfalso. apply Hnin.
      destruct row; [left|discriminate].
    + cbn [mbind outcome_bind].
      match goal with |- context [range_fold ?f (k + 1) fs ?i] =>
        destruct (IH (k + 1) i) as [IHp IHd] end.
      split.
      * intros Hin. apply IHp. apply elem_of_cons in Hin as [<-|Hin]; [|exact Hin].
        contradiction Hlen. reflexivity.
      * intros Hnin. apply IHd. intros Hin. apply Hnin. right. exact Hin.
Qed.

(** C5 (as the code has it). A frame with an empty palette is not handled:
    [genLineColImage] computes [width / len(row)] for every frame, so, once
    the image is allocated ([4 * W] is an [int] and the buffer, of
    [4 * W * K * L] bytes, is within the allocation limit), an empty palette
    makes the call panic with an integer division by zero and no image is
    produced. When no palette is empty the call returns an image. *)
Theorem genLineColImage_empty_palette g (frames : list (list RGB)) :
  0 < width g -> 4 * width g <= max_int -> 0 <= lineHeight g ->
  4 * width g * (Z.of_nat (length frames) * lineHeight g) <= maxAlloc ->
  ([] ∈ frames -> genLineColImage g frames = Panic DivideByZero)
  /\ ([] ∉ frames -> exists img, genLineColImage g frames = Done img).
Proof.
  intros HW HW4 HL Hmax. unfold genLineColImage.
  set (K := Z.of_nat (length frames)) in *.
  assert (HK : 0 <= K) by (unfold K; lia).
  assert (0 <= K * lineHeight g <= max_int) by (unfold max_int, maxAlloc in *; nia).
  rewrite (int_wrap_small (K * lineHeight g)) by (unfold max_int in *; lia).
  rewrite NewRGBA_ok by lia. cbn [mbind outcome_bind].
  apply col_rows_spec.
Qed.

Lemma genLineColImage_empty_palette_witness :
  genLineColImage {| width := 4; lineHeight := 1; avgSqr := false; genMode := 2 |}
                  [[rgb 1 2 3; rgb 4 5 6]; []] = Panic DivideByZero
  /\ exists img,
       genLineColImage {| width := 4; lineHeight := 1; avgSqr := false; genMode := 2 |}
                       [[rgb 1 2 3; rgb 4 5 6]] = Done img.
Proof.
  split.
  - apply (genLineColImage_empty_palette
             {| width := 4; lineHeight := 1; avgSqr := false; genMode := 2 |}
             [[rgb 1 2 3; rgb 4 5 6]; []]);
      [cbn; lia|cbn; unfold max_int; lia|cbn; lia|cbn; unfold maxAlloc; lia|].
    right. left.
  - apply (genLineColImage_empty_palette
             {| width := 4; lineHeight := 1; avgSqr := false; genMode := 2 |}
             [[rgb 1 2 3; rgb 4 5 6]]);
      [cbn; lia|cbn; unfold max_int; lia|cbn; lia|cbn; unfold maxAlloc; lia|].
    intros Hin. apply list_elem_of_singleton in Hin. discriminate.
Defined.

(** C5, as stated, fails: a single frame with an empty palette makes the
    renderer panic instead of producing a background band. *)
Lemma genLineColImage_empty_palette_panics :
  genLineColImage {| width := 4; lineHeight := 1; avgSqr := false; genMode := 2 |} [[]]
  = Panic DivideByZero.
Proof. reflexivity. Qed.

(** ** binary64: shifting and rounding *)

Lemma shr_1_spec mrs :
  0 <= shr_m mrs ->
  shr_m (shr_1 mrs) = Z.div2 (shr_m mrs)
  /\ orb (shr_r (shr_1 mrs)) (shr_s (shr_1 mrs))
     = orb (Z.odd (shr_m mrs)) (orb (shr_r mrs) (shr_s mrs)).
Proof.
  destruct mrs as [m r s]. cbn [shr_m shr_r shr_s]. intros Hm.
  destruct m as [|[p|p|]|p]; try lia; cbn; split; try reflexivity;
    destruct r, s; reflexivity.
Qed.

Lemma mod_pow2_add m a b :
  0 <= a -> 0 <= b ->
  (m `mod` 2 ^ (a + b) =? 0) = (m `mod` 2 ^ a =? 0) && ((m / 2 ^ a) `mod` 2 ^ b =? 0).
Proof.
  intros Ha Hb. rewrite Z.pow_add_r by lia.
  assert (0 < 2 ^ a) by (apply Z.pow_pos_nonneg; lia).
  assert (0 < 2 ^ b) by (apply Z.pow_pos_nonneg; lia).
  rewrite Z.rem_mul_r by lia.
  pose proof (Z.mod_pos_bound m (2 ^ a) ltac:(lia)).
  pose proof (Z.mod_pos_bound (m / 2 ^ a) (2 ^ b) ltac:(lia)).
  destruct (Z.eqb_spec (m `mod` 2 ^ a) 0) as [E1|E1];
    destruct (Z.eqb_spec ((m / 2 ^ a) `mod` 2 ^ b) 0) as [E2|E2]; cbn;
    apply Z.eqb_eq || apply Z.eqb_neq; nia.
Qed.

(** [p] halvings divide the mantissa by [2^p]; the result is exact when the
    record was and no bit was shifted out. *)
Lemma iter_shr_1_spec p : forall mrs,
  0 <= shr_m mrs ->
  shr_m (SpecFloat.iter_pos shr_1 p mrs) = shr_m mrs / 2 ^ Zpos p
  /\ orb (shr_r (SpecFloat.iter_pos shr_1 p mrs)) (shr_s (SpecFloat.iter_pos shr_1 p mrs))
     = orb (orb (shr_r mrs) (shr_s mrs)) (negb (shr_m mrs `mod` 2 ^ Zpos p =? 0)).
Proof.
  assert (Hone : forall mrs, 0 <= shr_m mrs ->
            shr_m (shr_1 mrs) = shr_m mrs / 2 ^ 1
            /\ orb (shr_r (shr_1 mrs)) (shr_s (shr_1 mrs))
               = orb (orb (shr_r mrs) (shr_s mrs)) (negb (shr_m mrs `mod` 2 ^ 1 =? 0))).
  { intros mrs Hm. destruct (shr_1_spec mrs Hm) as [-> ->]. split.
    - rewrite Z.div2_div. reflexivity.
    - change (2 ^ 1) with 2. rewrite Zmod_odd.
      destruct (Z.odd (shr_m mrs)), (shr_r mrs), (shr_s mrs); reflexivity. }
  assert (Hcomp : forall (f1 f2 : shr_record -> shr_record) a b,
            0 < a -> 0 < b ->
            (forall mrs, 0 <= shr_m mrs ->
               shr_m (f1 mrs) = shr_m mrs / 2 ^ a
               /\ orb (shr_r (f1 mrs)) (shr_s (f1 mrs))
                  = orb (orb (shr_r mrs) (shr_s mrs)) (negb (shr_m mrs `mod` 2 ^ a =? 0))) ->
            (forall mrs, 0 <= shr_m mrs ->
               shr_m (f2 mrs) = shr_m mrs / 2 ^ b
               /\ orb (shr_r (f2 mrs)) (shr_s (f2 mrs))
                  = orb (orb (shr_r mrs) (shr_s mrs)) (negb (shr_m mrs `mod` 2 ^ b =? 0))) ->
            forall mrs, 0 <= shr_m mrs ->
               shr_m (f2 (f1 mrs)) = shr_m mrs / 2 ^ (a + b)
               /\ orb (shr_r (f2 (f1 mrs))) (shr_s (f2 (f1 mrs)))
                  = orb (orb (shr_r mrs) (shr_s mrs))
                        (negb (shr_m mrs `mod` 2 ^ (a + b) =? 0))).
  { intros f1 f2 a b Ha Hb H1 H2 mrs Hm.
    destruct (H1 mrs Hm) as [E1 F1].
    assert (Hm1 : 0 <= shr_m (f1 mrs)).
    { rewrite E1. apply Z.div_pos; [exact Hm|]. apply Z.pow_pos_nonneg; lia. }
    destruct (H2 (f1 mrs) Hm1) as [E2 F2]. split.
    - rewrite E2, E1, Z.pow_add_r by lia.
      assert (0 < 2 ^ a) by (apply Z.pow_pos_nonneg; lia).
      assert (0 < 2 ^ b) by (apply Z.pow_pos_nonneg; lia).
      apply Z.div_div; lia.
    - rewrite F2, F1, E1, mod_pow2_add by lia.
      destruct (shr_r mrs), (shr_s mrs), (shr_m mrs `mod` 2 ^ a =? 0),
        ((shr_m mrs / 2 ^ a) `mod` 2 ^ b =? 0); reflexivity. }
  induction p as [p IH|p IH|]; intros mrs Hm; cbn [SpecFloat.iter_pos].
  - replace (Zpos p~1) with (1 + Zpos p + Zpos p) by lia.
    pose proof (Hcomp shr_1 (SpecFloat.iter_pos shr_1 p) 1 (Zpos p)
                  ltac:(lia) ltac:(lia) Hone IH) as H1.
    exact (Hcomp _ _ (1 + Zpos p) (Zpos p) ltac:(lia) ltac:(lia) H1 IH mrs Hm).
  - replace (Zpos p~0) with (Zpos p + Zpos p) by lia.
    exact (Hcomp _ _ (Zpos p) (Zpos p) ltac:(lia) ltac:(lia) IH IH mrs Hm).
  - apply Hone, Hm.
Qed.

Lemma digits2_pos_spec p :
  2 ^ (Zpos (digits2_pos p) - 1) <= Zpos p < 2 ^ Zpos (digits2_pos p).
Proof.
  induction p as [p IH|p IH|]; cbn [digits2_pos].
  - rewrite Pos2Z.inj_succ. replace (Z.succ (Zpos (digits2_pos p)) - 1) with (Z.succ (Zpos (digits2_pos p) - 1)) by lia.
    rewrite !Z.pow_succ_r by lia. lia.
  - rewrite Pos2Z.inj_succ. replace (Z.succ (Zpos (digits2_pos p)) - 1) with (Z.succ (Zpos (digits2_pos p) - 1)) by lia.
    rewrite !Z.pow_succ_r by lia. lia.
  - cbn. lia.
Qed.

Lemma Zdigits2_spec m :
  0 < m -> 2 ^ (Zdigits2 m - 1) <= m < 2 ^ Zdigits2 m.
Proof.
  destruct m as [|p|p]; try lia. intros _. apply digits2_pos_spec.
Qed.

Lemma Zdigits2_le m n : 0 <= n -> 0 <= m < 2 ^ n -> Zdigits2 m <= n.
Proof.
  intros Hn [Hm0 Hm]. destruct (Z.eq_dec m 0) as [->|Hne]; [cbn; lia|].
  pose proof (Zdigits2_spec m ltac:(lia)) as [Hlo _].
  destruct (Z.le_gt_cases (Zdigits2 m) n) as [?|Hgt]; [assumption|].
  assert (2 ^ n <= 2 ^ (Zdigits2 m - 1)) by (apply Z.pow_le_mono_r; lia). lia.
Qed.

Lemma Zdigits2_ge m n : 0 <= n -> 2 ^ n <= m -> n + 1 <= Zdigits2 m.
Proof.
  intros Hn Hm.
  assert (0 < 2 ^ n) by (apply Z.pow_pos_nonneg; lia).
  pose proof (Zdigits2_spec m ltac:(lia)) as [_ Hhi].
  destruct (Z.le_gt_cases (n + 1) (Zdigits2 m)) as [?|Hlt]; [assumption|].
  destruct (Z.le_gt_cases 0 (Zdigits2 m)) as [Hd|Hd].
  - assert (2 ^ Zdigits2 m <= 2 ^ n) by (apply Z.pow_le_mono_r; lia). lia.
  - rewrite Z.pow_neg_r in Hhi by lia. lia.
Qed.

Lemma shr_spec mrs e n :
  0 <= shr_m mrs -> 0 <= n ->
  snd (shr mrs e n) = e + n
  /\ shr_m (fst (shr mrs e n)) = shr_m mrs / 2 ^ n
  /\ orb (shr_r (fst (shr mrs e n))) (shr_s (fst (shr mrs e n)))
     = orb (orb (shr_r mrs) (shr_s mrs)) (negb (shr_m mrs `mod` 2 ^ n =? 0)).
Proof.
  intros Hm Hn. unfold shr. destruct n as [|p|p]; try lia; cbn [fst snd].
  - rewrite Z.add_0_r, Z.pow_0_r, Z.div_1_r, Z.mod_1_r. cbn.
    rewrite orb_false_r. auto.
  - split; [reflexivity|]. apply iter_shr_1_spec, Hm.
Qed.

Lemma shr_nonpos mrs e n : n <= 0 -> shr mrs e n = (mrs, e).
Proof. intros Hn. unfold shr. destruct n; try lia; reflexivity. Qed.

Lemma shr_record_of_loc_spec m l :
  shr_m (shr_record_of_loc m l) = m
  /\ orb (shr_r (shr_record_of_loc m l)) (shr_s (shr_record_of_loc m l))
     = match l with loc_Exact => false | loc_Inexact _ => true end.
Proof. destruct l as [|[| |]]; cbn; auto. Qed.

Lemma round_nearest_even_spec mrs :
  shr_m mrs <= round_nearest_even (shr_m mrs) (loc_of_shr_record mrs) <= shr_m mrs + 1
  /\ (orb (shr_r mrs) (shr_s mrs) = false ->
      round_nearest_even (shr_m mrs) (loc_of_shr_record mrs) = shr_m mrs).
Proof.
  destruct mrs as [m [|] [|]]; cbn; try destruct (Z.even m); split; try lia;
    intros; try discriminate; reflexivity.
Qed.

(** The rounding step all operations end with, on a positive mantissa [mx]
    that stands at or below its canonical exponent: the mantissa is cut to
    53 bits ([m1]), moved up by at most one ([m2]) and renormalised. *)
Lemma binary_round_aux_spec s mx ex lx :
  0 <= mx ->
  ex <= fexp F64.prec F64.emax (Zdigits2 mx + ex) ->
  let e1 := fexp F64.prec F64.emax (Zdigits2 mx + ex) in
  let m1 := mx / 2 ^ (e1 - ex) in
  exists m2 m3 e3,
    binary_round_aux F64.prec F64.emax s mx ex lx =
      match m3 with
      | Z0 => S754_zero s
      | Zpos m => if e3 <=? 971 then S754_finite s m e3 else S754_infinity s
      | Zneg _ => S754_nan
      end
    /\ m1 <= m2 <= m1 + 1
    /\ (lx = loc_Exact -> mx `mod` 2 ^ (e1 - ex) = 0 -> m2 = m1)
    /\ 0 <= m3 < 2 ^ 53
    /\ e1 <= e3
    /\ m3 * 2 ^ (e3 - e1) = m2
    /\ (-1074 < e1 -> 2 ^ 52 <= m1)
    /\ (-1074 < e3 -> 2 ^ 52 <= m3)
    /\ -1074 <= e1.
Proof.
  intros Hmx Hex e1 m1.
  assert (He1 : e1 = Z.max (Zdigits2 mx + ex - 53) (-1074)) by reflexivity.
  assert (Hd : 0 <= Zdigits2 mx) by (destruct mx; cbn; lia).
  assert (Hdhi : mx < 2 ^ Zdigits2 mx).
  { destruct (Z.eq_dec mx 0) as [->|Hne]; [cbn; lia|]. apply Zdigits2_spec. lia. }
  assert (Hdlo : 0 < mx -> 2 ^ (Zdigits2 mx - 1) <= mx) by (intros H; apply Zdigits2_spec, H).
  set (d := Zdigits2 mx) in *.
  set (k := e1 - ex) in *. assert (Hk : 0 <= k) by (unfold k; lia).
  assert (Hpk : 0 < 2 ^ k) by (apply Z.pow_pos_nonneg; lia).
  assert (Hm1 : 0 <= m1 < 2 ^ 53).
  { split; [apply Z.div_pos; lia|]. apply Z.div_lt_upper_bound; [lia|].
    rewrite <- Z.pow_add_r by lia.
    assert (2 ^ d <= 2 ^ (k + 53)) by (apply Z.pow_le_mono_r; lia). lia. }
  assert (Hm1n : -1074 < e1 -> 2 ^ 52 <= m1).
  { intros Hn. assert (Hpos : 0 < mx).
    { destruct (Z.eq_dec mx 0) as [E|E]; [|lia]. exfalso.
      assert (d = 0) by (unfold d; rewrite E; reflexivity). lia. }
    apply Z.div_le_lower_bound; [lia|].
    rewrite <- Z.pow_add_r by lia.
    replace (k + 52) with (d - 1) by lia. exact (Hdlo Hpos). }
  unfold binary_round_aux, shr_fexp. fold d. fold e1. fold k.
  destruct (shr_record_of_loc_spec mx lx) as [Hr0 Hi0].
  destruct (shr_spec (shr_record_of_loc mx lx) ex k ltac:(lia) Hk) as (Hs1 & Hs2 & Hs3).
  destruct (shr (shr_record_of_loc mx lx) ex k) as [mrs' e'] eqn:Hshr.
  cbn [fst snd] in Hs1, Hs2, Hs3. rewrite Hr0 in Hs2, Hs3. rewrite Hi0 in Hs3.
  fold m1 in Hs2. replace (ex + k) with e1 in Hs1 by (unfold k; lia). subst e'.
  destruct (round_nearest_even_spec mrs') as [Hrne Hrne'].
  set (m2 := round_nearest_even (shr_m mrs') (loc_of_shr_record mrs')) in *.
  rewrite Hs2 in Hrne, Hrne'.
  assert (Hex2 : lx = loc_Exact -> mx `mod` 2 ^ k = 0 -> m2 = m1).
  { intros -> Hmod. apply Hrne'. rewrite Hs3, Hmod. reflexivity. }
  exists m2.
  destruct (Z.eq_dec m2 (2 ^ 53)) as [Htop|Hntop].
  - (* the carry reached 2^53: one more halving *)
    assert (Hd2 : Zdigits2 m2 = 54).
    { rewrite Htop. reflexivity. }
    rewrite Hd2.
    assert (Hk2 : fexp F64.prec F64.emax (54 + e1) - e1 = 1).
    { unfold fexp, emin, F64.prec, F64.emax. lia. }
    rewrite Hk2. cbn [shr SpecFloat.iter_pos shr_record_of_loc].
    exists (2 ^ 52), (e1 + 1). rewrite Htop. cbn [shr_1 shr_m].
    split; [reflexivity|]. split; [lia|]. split; [rewrite <- Htop; exact Hex2|].
    split; [lia|]. split; [lia|]. split.
    { replace (e1 + 1 - e1) with 1 by lia. reflexivity. }
    split; [exact Hm1n|]. split; [lia|lia].
  - assert (Hm2 : 0 <= m2 < 2 ^ 53) by lia.
    pose proof (Zdigits2_le m2 53 ltac:(lia) Hm2) as Hd2.
    rewrite shr_nonpos by (unfold fexp, emin, F64.prec, F64.emax; lia).
    exists m2, e1. cbn [shr_record_of_loc shr_m].
    split; [reflexivity|]. split; [lia|]. split; [exact Hex2|].
    split; [lia|]. split; [lia|]. split.
    { rewrite Z.sub_diag. lia. }
    split; [exact Hm1n|]. split; [intros Hn; specialize (Hm1n Hn); lia|lia].
Qed.

(** ** Dyadic rationals *)

Lemma Qpow2_pos e : (0 < 2 ^ e)%Q.
Proof. apply Qpower_0_lt. reflexivity. Qed.

Lemma Qpow2_add a b : (2 ^ (a + b) == 2 ^ a * 2 ^ b)%Q.
Proof. apply Qpower_plus. discriminate. Qed.

Lemma Qpow2_Z n : 0 <= n -> (2 ^ n == inject_Z (2 ^ n))%Q.
Proof. intros Hn. rewrite Zpower_Qpower by exact Hn. reflexivity. Qed.

Lemma Qpow2_le a b : a <= b -> (2 ^ a <= 2 ^ b)%Q.
Proof.
  intros Hab. replace b with (a + (b - a)) by lia.
  rewrite Qpow2_add, (Qpow2_Z (b - a)) by lia.
  pose proof (Qpow2_pos a).
  assert (H1 : (inject_Z 1 <= inject_Z (2 ^ (b - a)))%Q).
  { rewrite <- Zle_Qle. assert (0 < 2 ^ (b - a)) by (apply Z.pow_pos_nonneg; lia). lia. }
  change (inject_Z 1) with 1%Q in H1. nra.
Qed.

Lemma inject_Z_pos z : 0 < z -> (0 < inject_Z z)%Q.
Proof. intros Hz. change 0%Q with (inject_Z 0). rewrite <- Zlt_Qlt. exact Hz. Qed.

Lemma inject_Z_nonneg z : 0 <= z -> (0 <= inject_Z z)%Q.
Proof. intros Hz. change 0%Q with (inject_Z 0). rewrite <- Zle_Qle. exact Hz. Qed.

(** A dyadic number is an integer multiple of any lower power of two. *)
Lemma dyadic_rebase m e e0 :
  e0 <= e -> (inject_Z m * 2 ^ e == inject_Z (m * 2 ^ (e - e0)) * 2 ^ e0)%Q.
Proof.
  intros He. replace e with ((e - e0) + e0) at 1 by lia.
  rewrite Qpow2_add, inject_Z_mult, (Qpow2_Z (e - e0)) by lia. ring.
Qed.

Lemma representable_ext q q' : (q == q')%Q -> F64.representable q -> F64.representable q'.
Proof.
  intros Hq (m & e & Hm & He & Hv). exists m, e. split; [exact Hm|]. split; [exact He|].
  rewrite <- Hq. exact Hv.
Qed.

Lemma representable_opp q : F64.representable q -> F64.representable (- q).
Proof.
  intros (m & e & Hm & He & Hq). exists (- m), e. split; [lia|]. split; [lia|].
  rewrite Hq, inject_Z_opp. ring.
Qed.

Lemma representable_0 : F64.representable 0.
Proof. exists 0, 0. split; [cbn; lia|]. split; [lia|]. reflexivity. Qed.

Lemma representable_Z z : Z.abs z <= 2 ^ 53 -> F64.representable (inject_Z z).
Proof.
  intros Hz. destruct (Z.eq_dec (Z.abs z) (2 ^ 53)) as [Heq|Hne].
  - assert (Hz2 : z = 2 ^ 53 \/ z = - 2 ^ 53) by lia.
    destruct Hz2 as [-> | ->].
    + exists (2 ^ 52), 1. split; [reflexivity|]. split; [lia|]. reflexivity.
    + exists (- 2 ^ 52), 1. split; [reflexivity|]. split; [lia|]. reflexivity.
  - exists z, 0. split; [lia|]. split; [lia|]. cbn. ring.
Qed.

(** A non-negative representable number is a multiple of [2^e1], or lies
    below [2^52 * 2^e1] (in which case [e1] is above the least exponent). *)
Lemma representable_cases g e1 :
  F64.representable g -> (0 <= g)%Q -> -1074 <= e1 ->
  (exists M, 0 <= M /\ (g == inject_Z M * 2 ^ e1)%Q)
  \/ (-1074 < e1 /\ (g < inject_Z (2 ^ 52) * 2 ^ e1)%Q).
Proof.
  intros (m & e & Hm & He & Hg) Hg0 He1.
  pose proof (Qpow2_pos e) as Hpe. pose proof (Qpow2_pos e1) as Hpe1.
  assert (Hm0 : 0 <= m).
  { destruct (Z.le_gt_cases 0 m) as [?|Hneg]; [assumption|].
    assert (inject_Z m < 0)%Q by (rewrite Zlt_Qlt in Hneg; exact Hneg).
    rewrite Hg in Hg0. nra. }
  destruct (Z.le_gt_cases e1 e) as [Hle|Hgt].
  - left. exists (m * 2 ^ (e - e1)). split.
    + apply Z.mul_nonneg_nonneg; [exact Hm0|]. apply Z.pow_nonneg. lia.
    + rewrite Hg. apply dyadic_rebase, Hle.
  - right. split; [lia|]. rewrite Hg.
    assert (H1 : (2 ^ e <= 2 ^ (e1 - 1))%Q) by (apply Qpow2_le; lia).
    assert (H2 : (2 ^ e1 == 2 * 2 ^ (e1 - 1))%Q).
    { replace e1 with (1 + (e1 - 1)) at 1 by lia. rewrite Qpow2_add. reflexivity. }
    assert (H3 : (inject_Z m < inject_Z (2 ^ 53))%Q) by (rewrite <- Zlt_Qlt; lia).
    assert (H4 : (0 <= inject_Z m)%Q) by (rewrite Zle_Qle in Hm0; exact Hm0).
    pose proof (Qpow2_pos (e1 - 1)) as Hp'.
    change (inject_Z (2 ^ 53)) with 9007199254740992%Q in H3.
    change (inject_Z (2 ^ 52)) with 4503599627370496%Q.
    rewrite H2. nra.
Qed.

Lemma round_down_representable g m1 e1 :
  F64.representable g -> (0 <= g)%Q -> -1074 <= e1 ->
  (-1074 < e1 -> 2 ^ 52 <= m1) ->
  (g < inject_Z (m1 + 1) * 2 ^ e1)%Q ->
  (g <= inject_Z m1 * 2 ^ e1)%Q.
Proof.
  intros Hr Hg0 He1 Hn Hlt. pose proof (Qpow2_pos e1) as Hp.
  destruct (representable_cases g e1 Hr Hg0 He1) as [(M & HM & HgM)|[Hgt Hsmall]].
  - rewrite HgM in Hlt |- *.
    assert (HMlt : M < m1 + 1).
    { rewrite Zlt_Qlt. nra. }
    assert (HMle : (inject_Z M <= inject_Z m1)%Q) by (rewrite <- Zle_Qle; lia).
    nra.
  - specialize (Hn Hgt). assert ((inject_Z (2 ^ 52) <= inject_Z m1)%Q) by (rewrite <- Zle_Qle; lia).
    nra.
Qed.

Lemma round_up_representable g m1 e1 :
  F64.representable g -> -1074 <= e1 -> 0 <= m1 ->
  (-1074 < e1 -> 2 ^ 52 <= m1) ->
  (inject_Z m1 * 2 ^ e1 < g)%Q ->
  (inject_Z (m1 + 1) * 2 ^ e1 <= g)%Q.
Proof.
  intros Hr He1 Hm1 Hn Hlt. pose proof (Qpow2_pos e1) as Hp.
  assert (H0 : (0 <= inject_Z m1)%Q) by (rewrite Zle_Qle in Hm1; exact Hm1).
  assert (Hg0 : (0 <= g)%Q) by nra.
  destruct (representable_cases g e1 Hr Hg0 He1) as [(M & HM & HgM)|[Hgt Hsmall]].
  - rewrite HgM in Hlt |- *.
    assert (HMlt : m1 < M).
    { rewrite Zlt_Qlt. nra. }
    assert (HMle : (inject_Z (m1 + 1) <= inject_Z M)%Q) by (rewrite <- Zle_Qle; lia).
    nra.
  - specialize (Hn Hgt). assert ((inject_Z (2 ^ 52) <= inject_Z m1)%Q) by (rewrite <- Zle_Qle; lia).
    nra.
Qed.

Lemma Qabs_to_Q_finite s p e :
  (Qabs (F64.to_Q (S754_finite s p e)) == inject_Z (Zpos p) * 2 ^ e)%Q.
Proof.
  pose proof (Qpow2_pos e) as Hp.
  assert (H0 : (0 < inject_Z (Zpos p))%Q) by (apply inject_Z_pos; lia).
  unfold F64.to_Q. destruct s; cbn [cond_Zopp].
  - change (inject_Z (- Zpos p)) with (inject_Z (- (Zpos p))).
    rewrite inject_Z_opp, Qabs_neg by nra. ring.
  - rewrite Qabs_pos by nra. reflexivity.
Qed.

Lemma to_Q_signbit x :
  (F64.to_Q x == if F64.signbit x then - Qabs (F64.to_Q x) else Qabs (F64.to_Q x))%Q.
Proof.
  destruct x as [s|s| |s p e]; try (cbn; destruct s; reflexivity); [reflexivity|].
  pose proof (Qabs_to_Q_finite s p e) as Ha.
  destruct s; cbn [F64.signbit]; rewrite Ha; cbn [F64.to_Q cond_Zopp].
  - change (inject_Z (- Zpos p)) with (inject_Z (- (Zpos p))). rewrite inject_Z_opp. ring.
  - reflexivity.
Qed.

(** Rounding is monotone against the representable numbers: a representable
    number below the rounded value stays below the result, one above it stays
    above, and then the result is finite. The value being rounded is
    [mx * 2^ex] when [lx] is exact and lies strictly between [mx * 2^ex] and
    [(mx + 1) * 2^ex] otherwise. *)
Lemma binary_round_aux_bounds s mx ex lx lo hi :
  0 <= mx ->
  ex <= fexp F64.prec F64.emax (Zdigits2 mx + ex) ->
  F64.representable lo -> F64.representable hi -> (0 <= lo)%Q ->
  (lo < inject_Z (mx + 1) * 2 ^ ex)%Q ->
  (match lx with
   | loc_Exact => inject_Z mx * 2 ^ ex <= hi
   | loc_Inexact _ => inject_Z mx * 2 ^ ex < hi
   end)%Q ->
  F64.is_finite (binary_round_aux F64.prec F64.emax s mx ex lx) = true
  /\ F64.signbit (binary_round_aux F64.prec F64.emax s mx ex lx) = s
  /\ (lo <= Qabs (F64.to_Q (binary_round_aux F64.prec F64.emax s mx ex lx)) <= hi)%Q.
Proof.
  intros Hmx Hex Hlo Hhi Hlo0 HL HU.
  destruct (binary_round_aux_spec s mx ex lx Hmx Hex)
    as (m2 & m3 & e3 & -> & Hm2 & Hexact & Hm3 & He3 & Hval & Hn1 & Hn3 & He1).
  set (e1 := fexp F64.prec F64.emax (Zdigits2 mx + ex)) in *.
  set (k := e1 - ex) in *. set (m1 := mx / 2 ^ k) in *.
  assert (Hk : 0 <= k) by (unfold k; lia).
  assert (Hpk : 0 < 2 ^ k) by (apply Z.pow_pos_nonneg; lia).
  pose proof (Qpow2_pos ex) as Hpex. pose proof (Qpow2_pos e1) as Hpe1.
  pose proof (Qpow2_pos e3) as Hpe3.
  (* the value of the result *)
  assert (V3 : (inject_Z m3 * 2 ^ e3 == inject_Z m2 * 2 ^ e1)%Q).
  { rewrite (dyadic_rebase m3 e3 e1) by exact He3. rewrite Hval. reflexivity. }
  (* the cut mantissa brackets the rounded value *)
  assert (Hdiv : m1 * 2 ^ k <= mx /\ mx + 1 <= (m1 + 1) * 2 ^ k).
  { unfold m1. pose proof (Z.mul_div_le mx (2 ^ k) Hpk).
    pose proof (Z.mul_succ_div_gt mx (2 ^ k) Hpk). lia. }
  assert (E1 : (2 ^ e1 == inject_Z (2 ^ k) * 2 ^ ex)%Q).
  { replace e1 with (k + ex) by (unfold k; lia).
    rewrite Qpow2_add, (Qpow2_Z k) by exact Hk. reflexivity. }
  assert (Hm1mx : (inject_Z m1 * 2 ^ e1 <= inject_Z mx * 2 ^ ex)%Q).
  { rewrite E1. destruct Hdiv as [Hd _]. rewrite Zle_Qle, inject_Z_mult in Hd. nra. }
  assert (Hmxm1 : (inject_Z (mx + 1) * 2 ^ ex <= inject_Z (m1 + 1) * 2 ^ e1)%Q).
  { rewrite E1. destruct Hdiv as [_ Hd]. rewrite Zle_Qle, inject_Z_mult in Hd. nra. }
  assert (Hm1nn : 0 <= m1) by (unfold m1; apply Z.div_pos; lia).
  (* lower bound *)
  assert (HloR : (lo <= inject_Z m3 * 2 ^ e3)%Q).
  { rewrite V3.
    assert (lo <= inject_Z m1 * 2 ^ e1)%Q.
    { apply round_down_representable; try assumption. nra. }
    assert (inject_Z m1 <= inject_Z m2)%Q by (rewrite <- Zle_Qle; lia).
    nra. }
  (* upper bound *)
  assert (HhiR : (inject_Z m3 * 2 ^ e3 <= hi)%Q).
  { rewrite V3. destruct (Z.eq_dec m2 m1) as [->|Hne].
    - destruct lx; nra.
    - assert (Hgt : (inject_Z m1 * 2 ^ e1 < hi)%Q).
      { destruct lx as [|c]; [|nra].
        assert (Hmod : mx `mod` 2 ^ k <> 0) by (intros E; apply Hne, Hexact; auto).
        assert (Hd : m1 * 2 ^ k < mx).
        { unfold m1. pose proof (Z.div_mod mx (2 ^ k) ltac:(lia)).
          pose proof (Z.mod_pos_bound mx (2 ^ k) Hpk). lia. }
        rewrite Zlt_Qlt, inject_Z_mult in Hd. rewrite E1. nra. }
      assert (inject_Z (m1 + 1) * 2 ^ e1 <= hi)%Q
        by (apply round_up_representable; assumption).
      replace m2 with (m1 + 1) by lia. assumption. }
  destruct m3 as [|p|p]; [| |lia].
  - cbn [F64.is_finite F64.signbit F64.to_Q]. split; [reflexivity|]. split; [reflexivity|].
    change (Qabs 0) with 0%Q. change (inject_Z 0) with 0%Q in *. split; nra.
  - assert (Hfin : e3 <= 971).
    { destruct (Z.le_gt_cases e3 971) as [?|Hbig]; [assumption|]. exfalso.
      destruct Hhi as (mh & eh & Hmh & Heh & Hhq).
      assert (H52 : (inject_Z (2 ^ 52) <= inject_Z (Zpos p))%Q)
        by (rewrite <- Zle_Qle; apply Hn3; lia).
      assert (Hmh' : (inject_Z mh < inject_Z (2 ^ 53))%Q) by (rewrite <- Zlt_Qlt; lia).
      assert (H972 : (2 ^ 972 <= 2 ^ e3)%Q) by (apply Qpow2_le; lia).
      assert (H971 : (2 ^ eh <= 2 ^ 971)%Q) by (apply Qpow2_le; lia).
      assert (Hstep : (2 ^ 972 == 2 * 2 ^ 971)%Q).
      { change 972 with (1 + 971). rewrite Qpow2_add. reflexivity. }
      pose proof (Qpow2_pos eh). pose proof (Qpow2_pos 971).
      change (inject_Z (2 ^ 52)) with 4503599627370496%Q in H52.
      change (inject_Z (2 ^ 53)) with 9007199254740992%Q in Hmh'.
      rewrite Hhq in HhiR.
      destruct (Z.le_gt_cases 0 mh) as [Hmh0|Hmh0].
      - rewrite Zle_Qle in Hmh0. change (inject_Z 0) with 0%Q in Hmh0. nra.
      - rewrite Zlt_Qlt in Hmh0. change (inject_Z 0) with 0%Q in Hmh0. nra. }
    destruct (Z.leb_spec e3 971) as [_|?]; [|lia].
    cbn [F64.is_finite F64.signbit]. split; [reflexivity|]. split; [reflexivity|].
    rewrite Qabs_to_Q_finite. split; assumption.
Qed.

(** The same against a signed value [v]: the magnitude that is rounded is
    [|v|], the sign is [s]. *)
Lemma binary_round_aux_signed (s : bool) mx ex lx v lo hi :
  0 <= mx ->
  ex <= fexp F64.prec F64.emax (Zdigits2 mx + ex) ->
  F64.representable lo -> F64.representable hi ->
  (match lx with
   | loc_Exact => v == inject_Z mx * 2 ^ ex
   | loc_Inexact _ => inject_Z mx * 2 ^ ex < v /\ v < inject_Z (mx + 1) * 2 ^ ex
   end)%Q ->
  (lo <= (if s then - v else v) <= hi)%Q ->
  F64.is_finite (binary_round_aux F64.prec F64.emax s mx ex lx) = true
  /\ F64.signbit (binary_round_aux F64.prec F64.emax s mx ex lx) = s
  /\ (lo <= F64.to_Q (binary_round_aux F64.prec F64.emax s mx ex lx) <= hi)%Q.
Proof.
  intros Hmx Hex Hlo Hhi Hv Hb.
  pose proof (Qpow2_pos ex) as Hp.
  pose proof (inject_Z_nonneg mx Hmx) as Hmx'.
  assert (Hmx1 : (inject_Z (mx + 1) == inject_Z mx + 1)%Q) by (rewrite inject_Z_plus; reflexivity).
  assert (Hv0 : (0 <= v)%Q) by (destruct lx; [rewrite Hv|]; nra).
  assert (HvU : (v < inject_Z (mx + 1) * 2 ^ ex)%Q).
  { destruct lx; [rewrite Hv, Hmx1; nra|tauto]. }
  assert (Hbounds : forall lo' hi',
            F64.representable lo' -> F64.representable hi' ->
            (0 <= lo')%Q -> (lo' <= v)%Q -> (v <= hi')%Q ->
            F64.is_finite (binary_round_aux F64.prec F64.emax s mx ex lx) = true
            /\ F64.signbit (binary_round_aux F64.prec F64.emax s mx ex lx) = s
            /\ (lo' <= Qabs (F64.to_Q (binary_round_aux F64.prec F64.emax s mx ex lx)) <= hi')%Q).
  { intros lo' hi' Hlo' Hhi' H0 H1 H2.
    apply binary_round_aux_bounds; try assumption; [nra|].
    destruct lx; [rewrite <- Hv; exact H2|nra]. }
  pose proof (to_Q_signbit (binary_round_aux F64.prec F64.emax s mx ex lx)) as Hsgn.
  destruct s.
  - (* negative *)
    destruct (Qlt_le_dec hi 0) as [Hneg|Hnn].
    + destruct (Hbounds (- hi)%Q (- lo)%Q) as (Hf & Hs & Ha);
        [apply representable_opp, Hhi|apply representable_opp, Hlo|nra|nra|nra|].
      rewrite Hs in Hsgn. split; [exact Hf|]. split; [exact Hs|]. rewrite Hsgn. split; nra.
    + destruct (Hbounds 0%Q (- lo)%Q) as (Hf & Hs & Ha);
        [apply representable_0|apply representable_opp, Hlo|nra|nra|nra|].
      rewrite Hs in Hsgn. split; [exact Hf|]. split; [exact Hs|]. rewrite Hsgn. split; nra.
  - destruct (Qlt_le_dec lo 0) as [Hneg|Hnn].
    + destruct (Hbounds 0%Q hi) as (Hf & Hs & Ha);
        [apply representable_0|exact Hhi|nra|nra|nra|].
      rewrite Hs in Hsgn. split; [exact Hf|]. split; [exact Hs|]. rewrite Hsgn. split; nra.
    + destruct (Hbounds lo hi) as (Hf & Hs & Ha); try assumption; try nra.
      rewrite Hs in Hsgn. split; [exact Hf|]. split; [exact Hs|]. rewrite Hsgn. split; nra.
Qed.

(** *** Alignment and normalisation *)

Lemma Pos_iter_xO m d : Zpos (Pos.iter xO m d) = Zpos m * 2 ^ Zpos d.
Proof.
  induction d as [|d IH] using Pos.peano_ind.
  - cbn. lia.
  - rewrite Pos.iter_succ, Pos2Z.inj_xO, IH, Pos2Z.inj_succ, Z.pow_succ_r by lia. lia.
Qed.

Lemma Zdigits2_unique m d : 2 ^ (d - 1) <= m < 2 ^ d -> 0 < m -> Zdigits2 m = d.
Proof.
  intros [Hlo Hhi] Hm. pose proof (Zdigits2_spec m Hm) as [Hlo' Hhi'].
  assert (Hd : 0 < d).
  { destruct (Z.le_gt_cases d 0) as [Hle|?]; [|assumption].
    destruct (Z.eq_dec d 0) as [E|E]; [rewrite E in Hhi; cbn in Hhi; lia|].
    rewrite Z.pow_neg_r in Hhi by lia. lia. }
  assert (Hd' : 0 < Zdigits2 m) by (destruct m; cbn; lia).
  destruct (Z.lt_trichotomy (Zdigits2 m) d) as [Hlt|[?|Hgt]]; [|assumption|].
  - assert (2 ^ Zdigits2 m <= 2 ^ (d - 1)) by (apply Z.pow_le_mono_r; lia). lia.
  - assert (2 ^ d <= 2 ^ (Zdigits2 m - 1)) by (apply Z.pow_le_mono_r; lia). lia.
Qed.

Lemma Zdigits2_shift m n : 0 < m -> 0 <= n -> Zdigits2 (m * 2 ^ n) = Zdigits2 m + n.
Proof.
  intros Hm Hn. pose proof (Zdigits2_spec m Hm) as [Hlo Hhi].
  assert (Hp : 0 < 2 ^ n) by (apply Z.pow_pos_nonneg; lia).
  assert (Hd' : 0 < Zdigits2 m) by (destruct m; cbn; lia).
  apply Zdigits2_unique; [|nia].
  replace (Zdigits2 m + n - 1) with ((Zdigits2 m - 1) + n) by lia.
  rewrite !Z.pow_add_r by lia. nia.
Qed.

Lemma binary_round_signed (s : bool) mx ex lo hi :
  F64.representable lo -> F64.representable hi ->
  (lo <= (if s then - (inject_Z (Zpos mx) * 2 ^ ex) else inject_Z (Zpos mx) * 2 ^ ex) <= hi)%Q ->
  F64.is_finite (binary_round F64.prec F64.emax s mx ex) = true
  /\ F64.signbit (binary_round F64.prec F64.emax s mx ex) = s
  /\ (lo <= F64.to_Q (binary_round F64.prec F64.emax s mx ex) <= hi)%Q.
Proof.
  intros Hlo Hhi Hb. unfold binary_round, shl_align.
  change (Zpos (digits2_pos mx)) with (Zdigits2 (Zpos mx)).
  set (e1 := fexp F64.prec F64.emax (Zdigits2 (Zpos mx) + ex)).
  destruct (e1 - ex) as [|d|d] eqn:Hd.
  - apply (binary_round_aux_signed s (Zpos mx) ex loc_Exact (inject_Z (Zpos mx) * 2 ^ ex));
      try assumption; [lia|fold e1; lia|reflexivity].
  - apply (binary_round_aux_signed s (Zpos mx) ex loc_Exact (inject_Z (Zpos mx) * 2 ^ ex));
      try assumption; [lia|fold e1; lia|reflexivity].
  - assert (He : ex = e1 + Zpos d) by lia.
    apply (binary_round_aux_signed s _ e1 loc_Exact (inject_Z (Zpos mx) * 2 ^ ex));
      try assumption; [lia| |].
    + rewrite Pos_iter_xO, Zdigits2_shift by lia.
      replace (Zdigits2 (Zpos mx) + Zpos d + e1) with (Zdigits2 (Zpos mx) + ex) by lia.
      fold e1. lia.
    + rewrite Pos_iter_xO, (dyadic_rebase (Zpos mx) ex e1) by lia.
      replace (ex - e1) with (Zpos d) by lia. reflexivity.
Qed.

Lemma binary_normalize_signed z e lo hi :
  F64.representable lo -> F64.representable hi ->
  (lo <= inject_Z z * 2 ^ e <= hi)%Q ->
  F64.is_finite (binary_normalize F64.prec F64.emax z e false) = true
  /\ (lo <= F64.to_Q (binary_normalize F64.prec F64.emax z e false) <= hi)%Q
  /\ (0 <= z -> F64.signbit (binary_normalize F64.prec F64.emax z e false) = false).
Proof.
  intros Hlo Hhi Hb. destruct z as [|p|p]; cbn [binary_normalize].
  - cbn. change (inject_Z 0) with 0%Q in Hb. split; [reflexivity|]. split; [nra|reflexivity].
  - destruct (binary_round_signed false p e lo hi Hlo Hhi Hb) as (Hf & Hs & Hq). auto.
  - destruct (binary_round_signed true p e lo hi Hlo Hhi) as (Hf & Hs & Hq).
    + change (Zneg p) with (- Zpos p) in Hb. rewrite inject_Z_opp in Hb. split; nra.
    + split; [exact Hf|]. split; [exact Hq|]. lia.
Qed.

(** An integer of at most 53 bits converts exactly. *)
Lemma of_Z_exact z :
  Z.abs z <= 2 ^ 53 ->
  F64.is_finite (F64.of_Z z) = true
  /\ (F64.to_Q (F64.of_Z z) == inject_Z z)%Q
  /\ (0 <= z -> F64.signbit (F64.of_Z z) = false).
Proof.
  intros Hz. unfold F64.of_Z.
  destruct (binary_normalize_signed z 0 (inject_Z z) (inject_Z z))
    as (Hf & Hq & Hs); try (apply representable_Z, Hz).
  - cbn. split; nra.
  - split; [exact Hf|]. split; [|exact Hs]. apply Qle_antisym; tauto.
Qed.

(** *** Addition and subtraction *)

Lemma shl_align_value mx ex ez :
  ez <= ex ->
  (inject_Z (Zpos (fst (shl_align mx ex ez))) * 2 ^ ez == inject_Z (Zpos mx) * 2 ^ ex)%Q.
Proof.
  intros He. unfold shl_align. destruct (ez - ex) as [|d|d] eqn:Hd; cbn [fst].
  - replace ez with ex by lia. reflexivity.
  - lia.
  - rewrite Pos_iter_xO, (dyadic_rebase (Zpos mx) ex ez) by lia.
    replace (ex - ez) with (Zpos d) by lia. reflexivity.
Qed.

Lemma to_Q_finite s m e :
  (F64.to_Q (S754_finite s m e) == (if s then - 1 else 1) * (inject_Z (Zpos m) * 2 ^ e))%Q.
Proof.
  unfold F64.to_Q. destruct s; cbn [cond_Zopp].
  - change (inject_Z (- Zpos m)) with (inject_Z (- (Zpos m))). rewrite inject_Z_opp. ring.
  - ring.
Qed.

Lemma aligned_sum_value (sx sy : bool) mx ex my ey (op : Z -> Z -> Z) (sgn : Q) :
  (forall a b, inject_Z (op a b) == inject_Z a + sgn * inject_Z b)%Q ->
  (inject_Z (op (cond_Zopp sx (Zpos (fst (shl_align mx ex (Z.min ex ey)))))
                (cond_Zopp sy (Zpos (fst (shl_align my ey (Z.min ex ey))))))
     * 2 ^ Z.min ex ey
   == F64.to_Q (S754_finite sx mx ex) + sgn * F64.to_Q (S754_finite sy my ey))%Q.
Proof.
  intros Hop. rewrite Hop, !to_Q_finite.
  pose proof (shl_align_value mx ex (Z.min ex ey) ltac:(lia)) as Hx.
  pose proof (shl_align_value my ey (Z.min ex ey) ltac:(lia)) as Hy.
  rewrite <- Hx, <- Hy.
  destruct sx, sy; cbn [cond_Zopp];
    repeat match goal with
           | |- context [inject_Z (- Zpos ?p)] =>
               change (inject_Z (- Zpos p)) with (inject_Z (- (Zpos p))); rewrite inject_Z_opp
           end; ring.
Qed.

Lemma add_bounds x y lo hi :
  F64.is_finite x = true -> F64.is_finite y = true ->
  F64.representable lo -> F64.representable hi ->
  (lo <= F64.to_Q x + F64.to_Q y <= hi)%Q ->
  F64.is_finite (F64.add x y) = true
  /\ (lo <= F64.to_Q (F64.add x y) <= hi)%Q.
Proof.
  intros Hx Hy Hlo Hhi Hb. unfold F64.add.
  destruct x as [sx|sx| |sx mx ex], y as [sy|sy| |sy my ey]; try discriminate; cbn [SFadd].
  - destruct sx, sy; cbn in *; split; auto.
  - cbn [F64.to_Q] in Hb. rewrite Qplus_0_l in Hb. auto.
  - cbn [F64.to_Q] in Hb. rewrite Qplus_0_r in Hb. auto.
  - pose proof (aligned_sum_value sx sy mx ex my ey Z.add 1
                  ltac:(intros; rewrite inject_Z_plus; ring)) as Hv.
    rewrite Qmult_1_l in Hv. rewrite <- Hv in Hb.
    destruct (binary_normalize_signed _ _ lo hi Hlo Hhi Hb) as (Hf & Hq & _). auto.
Qed.

Lemma sub_bounds x y lo hi :
  F64.is_finite x = true -> F64.is_finite y = true ->
  F64.representable lo -> F64.representable hi ->
  (lo <= F64.to_Q x - F64.to_Q y <= hi)%Q ->
  F64.is_finite (F64.sub x y) = true
  /\ (lo <= F64.to_Q (F64.sub x y) <= hi)%Q.
Proof.
  intros Hx Hy Hlo Hhi Hb. unfold F64.sub.
  destruct x as [sx|sx| |sx mx ex], y as [sy|sy| |sy my ey]; try discriminate; cbn [SFsub].
  - destruct sx, sy; cbn in *; split; auto.
  - split; [reflexivity|]. rewrite to_Q_finite. rewrite to_Q_finite in Hb.
    cbn [F64.to_Q] in Hb. destruct sy; cbn [negb]; split; nra.
  - cbn [F64.to_Q] in Hb. unfold Qminus in Hb.
    change (- 0)%Q with 0%Q in Hb. rewrite Qplus_0_r in Hb. auto.
  - pose proof (aligned_sum_value sx sy mx ex my ey Z.sub (- 1)
                  ltac:(intros; unfold Z.sub; rewrite inject_Z_plus, inject_Z_opp; ring)) as Hv.
    assert (Hb' : (lo <= inject_Z
                (cond_Zopp sx (Zpos (fst (shl_align mx ex (Z.min ex ey)))) -
                 cond_Zopp sy (Zpos (fst (shl_align my ey (Z.min ex ey))))) *
              2 ^ Z.min ex ey <= hi)%Q).
    { rewrite Hv. split; nra. }
    destruct (binary_normalize_signed _ _ lo hi Hlo Hhi Hb') as (Hf & Hq & _). auto.
Qed.

(** A sum that is representable is computed exactly. *)
Lemma add_exact x y :
  F64.is_finite x = true -> F64.is_finite y = true ->
  F64.representable (F64.to_Q x + F64.to_Q y) ->
  F64.is_finite (F64.add x y) = true
  /\ (F64.to_Q (F64.add x y) == F64.to_Q x + F64.to_Q y)%Q.
Proof.
  intros Hx Hy Hr.
  destruct (add_bounds x y _ _ Hx Hy Hr Hr) as [Hf Hq]; [split; apply Qle_refl|].
  split; [exact Hf|]. apply Qle_antisym; tauto.
Qed.

Lemma sub_exact x y :
  F64.is_finite x = true -> F64.is_finite y = true ->
  F64.representable (F64.to_Q x - F64.to_Q y) ->
  F64.is_finite (F64.sub x y) = true
  /\ (F64.to_Q (F64.sub x y) == F64.to_Q x - F64.to_Q y)%Q.
Proof.
  intros Hx Hy Hr.
  destruct (sub_bounds x y _ _ Hx Hy Hr Hr) as [Hf Hq]; [split; apply Qle_refl|].
  split; [exact Hf|]. apply Qle_antisym; tauto.
Qed.

(** *** Division *)

Lemma fexp_mono a b :
  a <= b -> fexp F64.prec F64.emax a <= fexp F64.prec F64.emax b.
Proof. unfold fexp, emin, F64.prec, F64.emax. lia. Qed.

Lemma new_location_exact n : new_location n 0 = loc_Exact.
Proof.
  unfold new_location, new_location_even, new_location_odd.
  destruct (Z.even n); reflexivity.
Qed.

Lemma new_location_inexact n r :
  r <> 0 -> exists c, new_location n r = loc_Inexact c.
Proof.
  intros Hr. unfold new_location, new_location_even, new_location_odd.
  apply Z.eqb_neq in Hr.
  destruct (Z.even n); cbn beta; rewrite Hr; eexists; reflexivity.
Qed.

(** The quotient digit string [q] at exponent [e'] brackets the exact
    quotient and stands at or below its canonical exponent. *)
Lemma SFdiv_core_binary_spec mx ex my ey :
  let V := ((inject_Z (Zpos mx) * 2 ^ ex) / (inject_Z (Zpos my) * 2 ^ ey))%Q in
  exists q e' l,
    SFdiv_core_binary F64.prec F64.emax (Zpos mx) ex (Zpos my) ey = (q, e', l)
    /\ 0 <= q
    /\ e' <= fexp F64.prec F64.emax (Zdigits2 q + e')
    /\ (match l with
        | loc_Exact => V == inject_Z q * 2 ^ e'
        | loc_Inexact _ => inject_Z q * 2 ^ e' < V /\ V < inject_Z (q + 1) * 2 ^ e'
        end)%Q.
Proof.
  intros V. unfold SFdiv_core_binary.
  set (d1 := Zdigits2 (Zpos mx)). set (d2 := Zdigits2 (Zpos my)).
  set (E := d1 + ex - (d2 + ey)).
  set (e' := Z.min (fexp F64.prec F64.emax E) (ex - ey)).
  set (s := ex - ey - e').
  assert (Hs : 0 <= s) by (unfold s, e'; lia).
  set (m' := match s with Zpos _ => Z.shiftl (Zpos mx) s | Z0 => Zpos mx | Zneg _ => 0 end).
  assert (Hm' : m' = Zpos mx * 2 ^ s).
  { unfold m'. destruct s as [|p|p] eqn:Es; [cbn; lia| |lia].
    apply Z.shiftl_mul_pow2. lia. }
  pose proof (Z.div_eucl_eq m' (Zpos my) ltac:(lia)) as Hdiv.
  pose proof (Z.mod_pos_bound m' (Zpos my) ltac:(lia)) as Hmod.
  unfold Z.modulo in Hmod.
  destruct (Z.div_eucl m' (Zpos my)) as [q r] eqn:Hqr.
  assert (Hps : 0 < 2 ^ s) by (apply Z.pow_pos_nonneg; lia).
  assert (Hq0 : 0 <= q) by nia.
  pose proof (Zdigits2_spec (Zpos mx) ltac:(lia)) as [H1lo H1hi]. fold d1 in H1lo, H1hi.
  pose proof (Zdigits2_spec (Zpos my) ltac:(lia)) as [H2lo H2hi]. fold d2 in H2lo, H2hi.
  assert (Hd1 : 0 < d1) by (unfold d1; cbn; lia).
  assert (Hd2 : 0 < d2) by (unfold d2; cbn; lia).
  exists q, e', (new_location (Zpos my) r). split; [reflexivity|]. split; [exact Hq0|]. split.
  - (* canonical exponent *)
    assert (HE : e' <= fexp F64.prec F64.emax E) by (unfold e'; lia).
    destruct (Z.eq_dec q 0) as [->|Hqne].
    + (* the quotient underflows: e' is the least exponent *)
      cbn [Zdigits2 Z.add].
      assert (Hlt : Zpos mx * 2 ^ s < Zpos my) by lia.
      assert (Hpow : 2 ^ (d1 - 1 + s) < 2 ^ d2).
      { rewrite Z.pow_add_r by lia. nia. }
      apply Z.pow_lt_mono_r_iff in Hpow; [|lia|lia].
      unfold fexp, emin, F64.prec, F64.emax in *. lia.
    + apply (Z.le_trans _ _ _ HE), fexp_mono.
      assert (Hdq : d1 + s - d2 <= Zdigits2 q).
      { destruct (Z.le_gt_cases 0 (d1 - 1 + s - d2)) as [Ht|Ht].
        - assert (2 ^ (d1 - 1 + s - d2) <= q).
          { assert (Hq : q = m' / Zpos my).
            { unfold Z.div. rewrite Hqr. reflexivity. }
            rewrite Hq. apply Z.div_le_lower_bound; [lia|].
            assert (2 ^ d2 * 2 ^ (d1 - 1 + s - d2) = 2 ^ (d1 - 1) * 2 ^ s).
            { rewrite <- !Z.pow_add_r by lia. f_equal. lia. }
            assert (0 < 2 ^ (d1 - 1 + s - d2)) by (apply Z.pow_pos_nonneg; lia).
            nia. }
          pose proof (Zdigits2_ge q (d1 - 1 + s - d2) Ht ltac:(assumption)). lia.
        - assert (0 < Zdigits2 q) by (destruct q; cbn; lia). lia. }
      unfold E, s in *. lia.
  - (* the bracket *)
    pose proof (Qpow2_pos ex) as Hpex. pose proof (Qpow2_pos ey) as Hpey.
    pose proof (Qpow2_pos e') as Hpe'.
    pose proof (inject_Z_pos (Zpos my) ltac:(lia)) as Hmy.
    assert (Eex : (2 ^ ex == inject_Z (2 ^ s) * 2 ^ e' * 2 ^ ey)%Q).
    { replace ex with (s + (e' + ey)) at 1 by (unfold s; lia).
      rewrite !Qpow2_add, (Qpow2_Z s) by exact Hs. ring. }
    assert (HV : (V == (inject_Z m' / inject_Z (Zpos my)) * 2 ^ e')%Q).
    { unfold V. rewrite Hm', inject_Z_mult, Eex. field. split; nra. }
    assert (Hm'q : (inject_Z m' == inject_Z (Zpos my) * inject_Z q + inject_Z r)%Q).
    { rewrite Hdiv, inject_Z_plus, inject_Z_mult. reflexivity. }
    assert (HVq : (V == (inject_Z q + inject_Z r / inject_Z (Zpos my)) * 2 ^ e')%Q).
    { rewrite HV, Hm'q. field. nra. }
    destruct (Z.eq_dec r 0) as [->|Hr].
    + rewrite new_location_exact.
      rewrite HVq. change (inject_Z 0) with 0%Q. field. nra.
    + destruct (new_location_inexact (Zpos my) r Hr) as (c & ->).
      assert (Hr1 : (0 < inject_Z r / inject_Z (Zpos my))%Q).
      { apply Qlt_shift_div_l; [exact Hmy|]. rewrite Qmult_0_l. apply inject_Z_pos. lia. }
      assert (Hr2 : (inject_Z r / inject_Z (Zpos my) < 1)%Q).
      { apply Qlt_shift_div_r; [exact Hmy|]. rewrite Qmult_1_l. rewrite <- Zlt_Qlt. lia. }
      rewrite HVq, inject_Z_plus. change (inject_Z 1) with 1%Q. split; nra.
Qed.

Lemma div_bounds x y lo hi :
  F64.is_finite x = true -> F64.is_finite y = true -> ~ (F64.to_Q y == 0)%Q ->
  F64.representable lo -> F64.representable hi ->
  (lo <= F64.to_Q x / F64.to_Q y <= hi)%Q ->
  F64.is_finite (F64.div x y) = true
  /\ (lo <= F64.to_Q (F64.div x y) <= hi)%Q.
Proof.
  intros Hx Hy Hy0 Hlo Hhi Hb. unfold F64.div.
  destruct x as [sx|sx| |sx mx ex], y as [sy|sy| |sy my ey]; try discriminate;
    cbn [SFdiv]; try (exfalso; apply Hy0; reflexivity).
  - cbn [F64.to_Q] in Hb |- *. unfold Qdiv in Hb. rewrite Qmult_0_l in Hb. auto.
  - destruct (SFdiv_core_binary_spec mx ex my ey) as (q & e' & l & -> & Hq & He & Hl).
    pose proof (Qpow2_pos ex) as Hpex. pose proof (Qpow2_pos ey) as Hpey.
    pose proof (inject_Z_pos (Zpos my) ltac:(lia)) as Hmy.
    pose proof (inject_Z_pos (Zpos mx) ltac:(lia)) as Hmx.
    destruct (binary_round_aux_signed (xorb sx sy) q e' l _ lo hi Hq He Hlo Hhi Hl)
      as (Hf & _ & Hr); [|auto].
    rewrite !to_Q_finite in Hb.
    set (A := (inject_Z (Zpos mx) * 2 ^ ex)%Q) in *.
    set (B := (inject_Z (Zpos my) * 2 ^ ey)%Q) in *.
    assert (HB : (0 < B)%Q) by (unfold B; nra).
    assert (Hsgn : ((if sx then -1 else 1) * A / ((if sy then -1 else 1) * B)
                    == (if xorb sx sy then - (A / B) else A / B))%Q).
    { destruct sx, sy; cbn [xorb]; field; nra. }
    rewrite Hsgn in Hb. exact Hb.
Qed.

(** *** Square root *)

Lemma SFsqrt_core_binary_spec mx ex :
  exists q e' l,
    SFsqrt_core_binary F64.prec F64.emax (Zpos mx) ex = (q, e', l)
    /\ 0 <= q
    /\ e' <= fexp F64.prec F64.emax (Zdigits2 q + e')
    /\ (inject_Z (Zpos mx) * 2 ^ ex < (inject_Z (q + 1) * 2 ^ e') * (inject_Z (q + 1) * 2 ^ e'))%Q
    /\ (match l with
        | loc_Exact =>
            (inject_Z q * 2 ^ e') * (inject_Z q * 2 ^ e') == inject_Z (Zpos mx) * 2 ^ ex
        | loc_Inexact _ =>
            (inject_Z q * 2 ^ e') * (inject_Z q * 2 ^ e') < inject_Z (Zpos mx) * 2 ^ ex
        end)%Q.
Proof.
  unfold SFsqrt_core_binary.
  set (d := Zdigits2 (Zpos mx)).
  set (e' := Z.min (fexp F64.prec F64.emax (Z.div2 (d + ex + 1))) (Z.div2 ex)).
  set (s := ex - 2 * e').
  assert (Hex2 : 2 * Z.div2 ex <= ex /\ ex <= 2 * Z.div2 ex + 1).
  { rewrite Z.div2_div. pose proof (Z.div_mod ex 2 ltac:(lia)).
    pose proof (Z.mod_pos_bound ex 2 ltac:(lia)). lia. }
  assert (Hs : 0 <= s) by (unfold s, e'; lia).
  set (m' := match s with Zpos _ => Z.shiftl (Zpos mx) s | Z0 => Zpos mx | Zneg _ => 0 end).
  assert (Hm' : m' = Zpos mx * 2 ^ s).
  { unfold m'. destruct s as [|p|p] eqn:Es; [cbn; lia| |lia].
    apply Z.shiftl_mul_pow2. lia. }
  assert (Hps : 0 < 2 ^ s) by (apply Z.pow_pos_nonneg; lia).
  pose proof (Z.sqrtrem_spec m' ltac:(nia)) as Hsq.
  destruct (Z.sqrtrem m') as [q r] eqn:Hqr. destruct Hsq as [Hm'q Hr].
  assert (Hq0 : 0 <= q) by lia.
  pose proof (Zdigits2_spec (Zpos mx) ltac:(lia)) as [Hdlo Hdhi]. fold d in Hdlo, Hdhi.
  assert (Hd : 0 < d) by (unfold d; cbn; lia).
  exists q, e', (if r =? 0 then loc_Exact else loc_Inexact (if r <=? q then Lt else Gt)).
  split; [reflexivity|]. split; [exact Hq0|]. split.
  - assert (HE : e' <= fexp F64.prec F64.emax (Z.div2 (d + ex + 1))) by (unfold e'; lia).
    apply (Z.le_trans _ _ _ HE), fexp_mono.
    set (t := d - 1 + s). set (h := t / 2).
    assert (Ht : 0 <= t) by (unfold t; lia).
    assert (Hh : 2 * h <= t /\ t <= 2 * h + 1).
    { unfold h. pose proof (Z.div_mod t 2 ltac:(lia)).
      pose proof (Z.mod_pos_bound t 2 ltac:(lia)). lia. }
    assert (Hh0 : 0 <= h) by (unfold h; apply Z.div_pos; lia).
    assert (Hqh : 2 ^ h <= q).
    { assert (Hm't : 2 ^ t <= m').
      { rewrite Hm'. unfold t. rewrite Z.pow_add_r by lia. nia. }
      assert (H2h : 2 ^ h * 2 ^ h <= 2 ^ t).
      { rewrite <- Z.pow_add_r by lia. apply Z.pow_le_mono_r; lia. }
      assert (0 < 2 ^ h) by (apply Z.pow_pos_nonneg; lia).
      nia. }
    pose proof (Zdigits2_ge q h Hh0 Hqh) as Hdq.
    assert (Hdiv2 : Z.div2 (d + ex + 1) = h + 1 + e').
    { rewrite Z.div2_div. replace (d + ex + 1) with (t + (1 + e') * 2) by (unfold t, s; lia).
      rewrite Z.div_add by lia. fold h. lia. }
    lia.
  - pose proof (Qpow2_pos ex) as Hpex. pose proof (Qpow2_pos e') as Hpe'.
    assert (Eex : (2 ^ ex == inject_Z (2 ^ s) * (2 ^ e' * 2 ^ e'))%Q).
    { replace ex with (s + (e' + e')) at 1 by (unfold s; lia).
      rewrite !Qpow2_add, (Qpow2_Z s) by exact Hs. ring. }
    assert (HV : (inject_Z (Zpos mx) * 2 ^ ex
                  == (inject_Z q * inject_Z q + inject_Z r) * (2 ^ e' * 2 ^ e'))%Q).
    { rewrite Eex, <- !inject_Z_mult, <- inject_Z_plus, <- Hm'q, Hm', inject_Z_mult. ring. }
    pose proof (inject_Z_nonneg q Hq0) as Hq0'.
    assert (Hr0 : (0 <= inject_Z r)%Q) by (apply inject_Z_nonneg; lia).
    assert (Hr2 : (inject_Z r <= 2 * inject_Z q)%Q).
    { change 2%Q with (inject_Z 2). rewrite <- inject_Z_mult, <- Zle_Qle. lia. }
    assert (Hpp : (0 < 2 ^ e' * 2 ^ e')%Q) by nra.
    split.
    + rewrite HV, inject_Z_plus. change (inject_Z 1) with 1%Q. nra.
    + destruct (Z.eqb_spec r 0) as [->|Hrne].
      * rewrite HV. change (inject_Z 0) with 0%Q. ring.
      * rewrite HV. assert (0 < inject_Z r)%Q by (apply inject_Z_pos; lia). nra.
Qed.

Lemma sqrt_bounds x lo hi :
  F64.is_finite x = true -> (0 <= F64.to_Q x)%Q ->
  F64.representable lo -> F64.representable hi ->
  (0 <= lo)%Q -> (0 <= hi)%Q ->
  (lo * lo <= F64.to_Q x)%Q -> (F64.to_Q x <= hi * hi)%Q ->
  F64.is_finite (F64.sqrt x) = true
  /\ (lo <= F64.to_Q (F64.sqrt x) <= hi)%Q.
Proof.
  intros Hx Hx0 Hlo Hhi Hlo0 Hhi0 HL HU. unfold F64.sqrt.
  destruct x as [sx|sx| |sx mx ex]; try discriminate; cbn [SFsqrt].
  - cbn [F64.to_Q] in *. split; [reflexivity|]. split; nra.
  - pose proof (Qpow2_pos ex) as Hpex.
    pose proof (inject_Z_pos (Zpos mx) ltac:(lia)) as Hmx.
    rewrite to_Q_finite in Hx0, HL, HU.
    destruct sx; [exfalso; nra|]. rewrite Qmult_1_l in HL, HU.
    destruct (SFsqrt_core_binary_spec mx ex) as (q & e' & l & -> & Hq & He & Hup & Hl).
    pose proof (Qpow2_pos e') as Hpe'.
    pose proof (inject_Z_nonneg q Hq) as Hq'.
    assert (Hq1 : (0 < inject_Z (q + 1))%Q) by (apply inject_Z_pos; lia).
    set (A := (inject_Z (Zpos mx) * 2 ^ ex)%Q) in *.
    set (Y := (inject_Z (q + 1) * 2 ^ e')%Q) in *.
    set (X := (inject_Z q * 2 ^ e')%Q) in *.
    assert (HY : (0 < Y)%Q) by (unfold Y; nra).
    assert (HX : (0 <= X)%Q) by (unfold X; nra).
    destruct (binary_round_aux_bounds false q e' l lo hi Hq He Hlo Hhi Hlo0)
      as (Hf & Hs & Ha).
    + fold Y. destruct (Qlt_le_dec lo Y) as [?|Hge]; [assumption|]. exfalso.
      assert (Y * Y <= lo * lo)%Q by nra. nra.
    + fold X. destruct l.
      * destruct (Qlt_le_dec hi X) as [Hlt|?]; [|assumption]. exfalso.
        assert (hi * hi < X * X)%Q by nra. nra.
      * destruct (Qlt_le_dec X hi) as [?|Hge]; [assumption|]. exfalso.
        assert (hi * hi <= X * X)%Q by nra. nra.
    + pose proof (to_Q_signbit (binary_round_aux F64.prec F64.emax false q e' l)) as Hsgn.
      rewrite Hs in Hsgn. rewrite Hsgn. auto.
Qed.

(** *** Conversion to integers *)

Lemma truncZ_spec x k :
  F64.is_finite x = true -> 0 <= k ->
  (inject_Z k <= F64.to_Q x)%Q -> (F64.to_Q x < inject_Z (k + 1))%Q ->
  F64.truncZ x = Some k.
Proof.
  intros Hx Hk Hlo Hhi. destruct x as [s|s| |s m e]; try discriminate; cbn [F64.truncZ].
  - cbn [F64.to_Q] in *. change 0%Q with (inject_Z 0) in Hlo, Hhi.
    rewrite <- Zle_Qle in Hlo. rewrite <- Zlt_Qlt in Hhi. f_equal. lia.
  - pose proof (Qpow2_pos e) as Hpe.
    pose proof (inject_Z_pos (Zpos m) ltac:(lia)) as Hm.
    pose proof (inject_Z_nonneg k Hk) as Hk'.
    rewrite to_Q_finite in Hlo, Hhi.
    destruct s; [exfalso; rewrite inject_Z_plus in Hhi; change (inject_Z 1) with 1%Q in Hhi; nra|].
    rewrite Qmult_1_l in Hlo, Hhi. cbn [cond_Zopp]. f_equal.
    destruct (Z.le_gt_cases 0 e) as [He|He].
    + rewrite Z.shiftl_mul_pow2 by exact He.
      rewrite (Qpow2_Z e He), <- inject_Z_mult in Hlo, Hhi.
      rewrite <- Zle_Qle in Hlo. rewrite <- Zlt_Qlt in Hhi. lia.
    + rewrite Z.shiftl_div_pow2 by lia.
      assert (Hp : 0 < 2 ^ (- e)) by (apply Z.pow_pos_nonneg; lia).
      assert (Einv : (2 ^ e * inject_Z (2 ^ (- e)) == 1)%Q).
      { rewrite <- (Qpow2_Z (- e)) by lia. rewrite <- Qpow2_add.
        replace (e + - e) with 0 by lia. reflexivity. }
      pose proof (inject_Z_pos _ Hp) as Hp'.
      assert (H1 : k * 2 ^ (- e) <= Zpos m).
      { rewrite Zle_Qle, inject_Z_mult. nra. }
      assert (H2 : Zpos m < (k + 1) * 2 ^ (- e)).
      { rewrite Zlt_Qlt, inject_Z_mult. nra. }
      symmetry. apply Z.div_unique with (r := Zpos m - k * 2 ^ (- e)); lia.
Qed.

Lemma to_uint8_spec oor x k :
  F64.is_finite x = true -> 0 <= k <= 255 ->
  (inject_Z k <= F64.to_Q x)%Q -> (F64.to_Q x < inject_Z (k + 1))%Q ->
  F64.to_uint8 oor x = u8_of_Z k.
Proof.
  intros Hx Hk Hlo Hhi. unfold F64.to_uint8.
  rewrite (truncZ_spec x k Hx ltac:(lia) Hlo Hhi).
  destruct (Z.leb_spec 0 k); [|lia]. destruct (Z.ltb_spec k 256); [|lia]. reflexivity.
Qed.

(** [math.Floor] of a non-negative value below [2^53]. *)
Lemma Floor_spec x k :
  F64.is_finite x = true -> 0 <= k <= 2 ^ 53 ->
  (inject_Z k <= F64.to_Q x)%Q -> (F64.to_Q x < inject_Z (k + 1))%Q ->
  F64.is_finite (F64.Floor x) = true
  /\ (F64.to_Q (F64.Floor x) == inject_Z k)%Q.
Proof.
  intros Hx Hk Hlo Hhi.
  pose proof (truncZ_spec x k Hx ltac:(lia) Hlo Hhi) as Ht.
  destruct x as [s|s| |s m e]; try discriminate; cbn [F64.Floor].
  - cbn in Ht. injection Ht as <-. split; reflexivity.
  - pose proof (Qpow2_pos e) as Hpe.
    pose proof (inject_Z_pos (Zpos m) ltac:(lia)) as Hm.
    pose proof (inject_Z_nonneg k ltac:(lia)) as Hk'.
    assert (Hs : s = false).
    { destruct s; [|reflexivity]. exfalso. rewrite to_Q_finite in Hlo. nra. }
    subst s. cbn [F64.truncZ cond_Zopp] in Ht. injection Ht as Ht.
    destruct (Z.leb_spec 0 e) as [He|He].
    + split; [reflexivity|]. rewrite to_Q_finite, Qmult_1_l.
      rewrite Z.shiftl_mul_pow2 in Ht by exact He.
      rewrite (Qpow2_Z e He), <- inject_Z_mult, Ht. reflexivity.
    + cbn [cond_Zopp]. rewrite Ht.
      destruct (of_Z_exact k ltac:(lia)) as (Hf & Hq & _). auto.
Qed.

(** ** Averages *)

Lemma channel_exact sel p :
  F64.is_finite (channel sel p) = true
  /\ (F64.to_Q (channel sel p) == inject_Z (u8_to_Z (sel p)))%Q.
Proof.
  unfold channel. pose proof (u8_to_Z_range (sel p)).
  destruct (of_Z_exact (u8_to_Z (sel p))) as (Hf & Hq & _); [|auto].
  change (2 ^ 53) with 9007199254740992. lia.
Qed.

(** The square of a channel value is exact. *)
Lemma Pow2_channel sel p :
  F64.Pow2 (channel sel p) = F64.of_Z (u8_to_Z (sel p) * u8_to_Z (sel p)).
Proof. unfold channel. destruct (sel p); vm_compute; reflexivity. Qed.

Lemma Pow2_channel_exact sel p :
  F64.is_finite (F64.Pow2 (channel sel p)) = true
  /\ (F64.to_Q (F64.Pow2 (channel sel p))
      == inject_Z (u8_to_Z (sel p) * u8_to_Z (sel p)))%Q.
Proof.
  rewrite Pow2_channel. pose proof (u8_to_Z_range (sel p)).
  destruct (of_Z_exact (u8_to_Z (sel p) * u8_to_Z (sel p))) as (Hf & Hq & _); [|auto].
  change (2 ^ 53) with 9007199254740992. nia.
Qed.

(** A sum of integers that stays below [2^53] is accumulated exactly. *)
Lemma accumulate_exact (f : RGB -> F64.t) (v : RGB -> Z) (B : Z) ps :
  (forall p, F64.is_finite (f p) = true
             /\ (F64.to_Q (f p) == inject_Z (v p))%Q /\ 0 <= v p <= B) ->
  B * Z.of_nat (length ps) <= 2 ^ 53 ->
  F64.is_finite (accumulate f ps) = true
  /\ (F64.to_Q (accumulate f ps) == inject_Z (foldr (fun p acc => (v p + acc)%Z) 0%Z ps))%Q
  /\ 0 <= foldr (fun p acc => v p + acc) 0 ps <= B * Z.of_nat (length ps).
Proof.
  intros Hf HB. unfold accumulate.
  assert (Hgen : forall ps acc a,
            F64.is_finite acc = true -> (F64.to_Q acc == inject_Z a)%Q -> 0 <= a ->
            a + B * Z.of_nat (length ps) <= 2 ^ 53 ->
            F64.is_finite (foldl (fun acc p => F64.add acc (f p)) acc ps) = true
            /\ (F64.to_Q (foldl (fun acc p => F64.add acc (f p)) acc ps)
                == inject_Z (a + foldr (fun p acc => (v p + acc)%Z) 0%Z ps))%Q
            /\ 0 <= foldr (fun p acc => v p + acc) 0 ps <= B * Z.of_nat (length ps)).
  { clear ps HB. induction ps as [|p ps IH]; intros acc a Hacc Hq Ha Hle; cbn [foldl foldr length].
    - rewrite Z.add_0_r. split; [exact Hacc|]. split; [exact Hq|]. lia.
    - destruct (Hf p) as (Hfp & Hqp & Hvp).
      cbn [length] in Hle. rewrite Nat2Z.inj_succ, Z.mul_succ_r in Hle |- *.
      assert (HBn : 0 <= B * Z.of_nat (length ps)) by nia.
      assert (Hsum : (F64.to_Q acc + F64.to_Q (f p) == inject_Z (a + v p))%Q).
      { rewrite Hq, Hqp, inject_Z_plus. reflexivity. }
      destruct (add_exact acc (f p) Hacc Hfp) as [Hfin Hval].
      { apply (representable_ext (inject_Z (a + v p))); [symmetry; exact Hsum|].
        apply representable_Z. lia. }
      rewrite Hsum in Hval.
      destruct (IH (F64.add acc (f p)) (a + v p) Hfin Hval ltac:(lia) ltac:(lia))
        as (H1 & H2 & H3).
      split; [exact H1|]. split; [|lia].
      rewrite H2. apply inject_Z_injective. lia. }
  destruct (Hgen ps F64.zero 0) as (H1 & H2 & H3); try reflexivity; try lia.
  auto.
Qed.

Lemma total_exact (ps : list RGB) :
  ps <> [] -> Z.of_nat (length ps) <= 2 ^ 53 ->
  F64.is_finite (F64.of_Z (Z.of_nat (length ps))) = true
  /\ (F64.to_Q (F64.of_Z (Z.of_nat (length ps))) == inject_Z (Z.of_nat (length ps)))%Q
  /\ (0 < inject_Z (Z.of_nat (length ps)))%Q.
Proof.
  intros Hne Hn. destruct (of_Z_exact (Z.of_nat (length ps))) as (Hf & Hq & _); [lia|].
  split; [exact Hf|]. split; [exact Hq|]. apply inject_Z_pos.
  destruct ps; [contradiction|cbn [length]; lia].
Qed.

(** One channel of the linear average: the mean is computed exactly enough
    for its floor to be the integer quotient. *)
Lemma linear_channel oor sel (ps : list RGB) :
  ps <> [] -> Z.of_nat (length ps) <= 2 ^ 45 ->
  F64.to_uint8 oor
    (F64.Floor (F64.div (accumulate (channel sel) ps) (F64.of_Z (Z.of_nat (length ps)))))
  = u8_of_Z (channel_sum sel ps / Z.of_nat (length ps)).
Proof.
  intros Hne Hn. set (n := Z.of_nat (length ps)) in *.
  change (2 ^ 45) with 35184372088832 in Hn.
  destruct (accumulate_exact (channel sel) (fun p => u8_to_Z (sel p)) 255 ps)
    as (Hfa & Hqa & HS).
  { intros p. destruct (channel_exact sel p) as [H1 H2].
    pose proof (u8_to_Z_range (sel p)). auto. }
  { fold n. change (2 ^ 53) with 9007199254740992. lia. }
  fold (channel_sum sel ps) in Hqa, HS. fold n in HS. set (S := channel_sum sel ps) in *.
  destruct (total_exact ps Hne) as (Hft & Hqt & Hn0).
  { fold n. change (2 ^ 53) with 9007199254740992. lia. }
  fold n in Hft, Hqt, Hn0.
  assert (Hnpos : 0 < n) by (rewrite Zlt_Qlt; exact Hn0).
  set (k := S / n).
  assert (Hk : 0 <= k <= 255).
  { unfold k. split; [apply Z.div_pos; lia|].
    apply Z.div_le_upper_bound; lia. }
  assert (HkS : k * n <= S /\ S + 1 <= (k + 1) * n).
  { unfold k. pose proof (Z.mul_div_le S n Hnpos).
    pose proof (Z.mul_succ_div_gt S n Hnpos). lia. }
  set (hi := (inject_Z ((k + 1) * 2 ^ 45 - 1) * 2 ^ (-45))%Q).
  assert (Hhi : F64.representable hi).
  { exists ((k + 1) * 2 ^ 45 - 1), (-45). split; [|split; [lia|reflexivity]].
    change (2 ^ 45) with 35184372088832. change (2 ^ 53) with 9007199254740992. lia. }
  assert (Hhik : (hi < inject_Z (k + 1))%Q).
  { unfold hi. unfold Z.sub. rewrite inject_Z_plus, inject_Z_mult.
    change (inject_Z (2 ^ 45)) with 35184372088832%Q.
    change (inject_Z (- (1))) with (-1)%Q.
    change (2 ^ (-45))%Q with (1 # 35184372088832)%Q. lra. }
  destruct (div_bounds (accumulate (channel sel) ps) (F64.of_Z n) (inject_Z k) hi)
    as (Hfd & Hlo & Hup); try assumption.
  - rewrite Hqt. lra.
  - apply representable_Z. change (2 ^ 53) with 9007199254740992. lia.
  - rewrite Hqa, Hqt. destruct HkS as [H1 H2].
    rewrite Zle_Qle, inject_Z_mult in H1. rewrite Zle_Qle, inject_Z_mult, inject_Z_plus in H2.
    pose proof (inject_Z_nonneg k ltac:(lia)) as Hk0.
    assert (Hn45 : (inject_Z n <= 35184372088832)%Q).
    { change 35184372088832%Q with (inject_Z 35184372088832). rewrite <- Zle_Qle. lia. }
    split.
    + apply Qle_shift_div_l; [exact Hn0|]. exact H1.
    + apply Qle_shift_div_r; [exact Hn0|]. unfold hi.
      unfold Z.sub. rewrite inject_Z_plus, inject_Z_mult.
      change (inject_Z (2 ^ 45)) with 35184372088832%Q.
      change (inject_Z (- (1))) with (-1)%Q. change (inject_Z 1) with 1%Q in H2.
      change (2 ^ (-45))%Q with (1 # 35184372088832)%Q.
      rewrite inject_Z_plus in *. change (inject_Z 1) with 1%Q in *. nra.
  - destruct (Floor_spec _ k Hfd) as (Hff & Hqf); [change (2 ^ 53) with 9007199254740992; lia|exact Hlo|lra|].
    apply to_uint8_spec; [exact Hff|exact Hk|rewrite Hqf; lra|].
    rewrite Hqf, inject_Z_plus. change (inject_Z 1) with 1%Q. lra.
Qed.

(** One channel of the quadratic average: the root of the mean square is
    computed exactly enough for its integer part to be the integer square
    root of the integer quotient. *)
Lemma quadratic_channel oor sel (ps : list RGB) :
  ps <> [] -> Z.of_nat (length ps) <= 2 ^ 36 ->
  F64.to_uint8 oor
    (F64.sqrt (F64.div (accumulate (fun p => F64.Pow2 (channel sel p)) ps)
                       (F64.of_Z (Z.of_nat (length ps)))))
  = u8_of_Z (Z.sqrt (channel_sum_sq sel ps / Z.of_nat (length ps))).
Proof.
  intros Hne Hn. set (n := Z.of_nat (length ps)) in *.
  change (2 ^ 36) with 68719476736 in Hn.
  destruct (accumulate_exact (fun p => F64.Pow2 (channel sel p))
              (fun p => u8_to_Z (sel p) * u8_to_Z (sel p)) 65025 ps)
    as (Hfa & Hqa & HS).
  { intros p. destruct (Pow2_channel_exact sel p) as [H1 H2].
    pose proof (u8_to_Z_range (sel p)). split; [exact H1|]. split; [exact H2|]. nia. }
  { fold n. change (2 ^ 53) with 9007199254740992. lia. }
  fold (channel_sum_sq sel ps) in Hqa, HS. fold n in HS.
  set (S := channel_sum_sq sel ps) in *.
  destruct (total_exact ps Hne) as (Hft & Hqt & Hn0).
  { fold n. change (2 ^ 53) with 9007199254740992. lia. }
  fold n in Hft, Hqt, Hn0.
  assert (Hnpos : 0 < n) by (rewrite Zlt_Qlt; exact Hn0).
  set (k := Z.sqrt (S / n)).
  assert (Hquo : 0 <= S / n <= 65025).
  { split; [apply Z.div_pos; lia|]. apply Z.div_le_upper_bound; lia. }
  pose proof (Z.sqrt_spec (S / n) ltac:(lia)) as Hsq. cbn zeta in Hsq. fold k in Hsq.
  assert (Hk : 0 <= k <= 255).
  { pose proof (Z.sqrt_nonneg (S / n)). fold k in H. split; [exact H|]. nia. }
  assert (HkS : k * k * n <= S /\ S + 1 <= (k + 1) * (k + 1) * n).
  { pose proof (Z.mul_div_le S n Hnpos). pose proof (Z.mul_succ_div_gt S n Hnpos).
    unfold Z.succ in *. split; nia. }
  (* the mean square *)
  set (hi1 := (inject_Z ((k + 1) * (k + 1) * 2 ^ 36 - 1) * 2 ^ (-36))%Q).
  assert (Hhi1 : F64.representable hi1).
  { exists ((k + 1) * (k + 1) * 2 ^ 36 - 1), (-36). split; [|split; [lia|reflexivity]].
    change (2 ^ 36) with 68719476736. change (2 ^ 53) with 9007199254740992. nia. }
  pose proof (inject_Z_nonneg k ltac:(lia)) as Hk0.
  assert (Hk255 : (inject_Z k <= 255)%Q).
  { change 255%Q with (inject_Z 255). rewrite <- Zle_Qle. lia. }
  assert (Ehi1 : (hi1 == (inject_Z k + 1) * (inject_Z k + 1) - (1 # 68719476736))%Q).
  { unfold hi1. unfold Z.sub. rewrite inject_Z_plus, !inject_Z_mult, inject_Z_plus.
    change (inject_Z (2 ^ 36)) with 68719476736%Q.
    change (inject_Z (- (1))) with (-1)%Q. change (inject_Z 1) with 1%Q.
    change (2 ^ (-36))%Q with (1 # 68719476736)%Q. field. }
  destruct (div_bounds (accumulate (fun p => F64.Pow2 (channel sel p)) ps) (F64.of_Z n)
              (inject_Z (k * k)) hi1) as (Hfd & Hlo & Hup); try assumption.
  { rewrite Hqt. lra. }
  { apply representable_Z. change (2 ^ 53) with 9007199254740992. nia. }
  { rewrite Hqa, Hqt. destruct HkS as [H1 H2].
    rewrite Zle_Qle, !inject_Z_mult in H1.
    rewrite Zle_Qle, !inject_Z_mult, !inject_Z_plus in H2.
    change (inject_Z 1) with 1%Q in H2.
    assert (Hn36 : (inject_Z n <= 68719476736)%Q).
    { change 68719476736%Q with (inject_Z 68719476736). rewrite <- Zle_Qle. lia. }
    split.
    - apply Qle_shift_div_l; [exact Hn0|]. rewrite inject_Z_mult. exact H1.
    - apply Qle_shift_div_r; [exact Hn0|]. rewrite Ehi1. nra. }
  set (D := F64.div (accumulate (fun p => F64.Pow2 (channel sel p)) ps) (F64.of_Z n)) in *.
  rewrite inject_Z_mult in Hlo. rewrite Ehi1 in Hup.
  (* its root *)
  set (hi2 := (inject_Z ((k + 1) * 2 ^ 45 - 1) * 2 ^ (-45))%Q).
  assert (Hhi2 : F64.representable hi2).
  { exists ((k + 1) * 2 ^ 45 - 1), (-45). split; [|split; [lia|reflexivity]].
    change (2 ^ 45) with 35184372088832. change (2 ^ 53) with 9007199254740992. lia. }
  assert (Ehi2 : (hi2 == inject_Z k + 1 - (1 # 35184372088832))%Q).
  { unfold hi2. unfold Z.sub. rewrite inject_Z_plus, inject_Z_mult, inject_Z_plus.
    change (inject_Z (2 ^ 45)) with 35184372088832%Q.
    change (inject_Z (- (1))) with (-1)%Q. change (inject_Z 1) with 1%Q.
    change (2 ^ (-45))%Q with (1 # 35184372088832)%Q. field. }
  destruct (sqrt_bounds D (inject_Z k) hi2) as (Hfs & Hslo & Hsup); try assumption.
  { nra. }
  { apply representable_Z. change (2 ^ 53) with 9007199254740992. lia. }
  { rewrite Ehi2. lra. }
  { rewrite Ehi2.
    assert ((inject_Z k + 1) * (inject_Z k + 1) - (1 # 68719476736)
            <= (inject_Z k + 1 - (1 # 35184372088832)) * (inject_Z k + 1 - (1 # 35184372088832)))%Q.
    { assert (Hexp : ((inject_Z k + 1 - (1 # 35184372088832)) * (inject_Z k + 1 - (1 # 35184372088832))
                      == (inject_Z k + 1) * (inject_Z k + 1)
                         - (2 # 35184372088832) * (inject_Z k + 1)
                         + (1 # 35184372088832) * (1 # 35184372088832))%Q) by ring.
      rewrite Hexp. lra. }
    lra. }
  apply to_uint8_spec; [exact Hfs|exact Hk|exact Hslo|].
  rewrite inject_Z_plus. change (inject_Z 1) with 1%Q. rewrite Ehi2 in Hsup. lra.
Qed.

Lemma channel_sum_range sel (ps : list RGB) :
  0 <= channel_sum sel ps <= 255 * Z.of_nat (length ps).
Proof.
  induction ps as [|p ps IH]; cbn [channel_sum foldr length]; [lia|].
  fold (channel_sum sel ps). pose proof (u8_to_Z_range (sel p)). lia.
Qed.

Lemma channel_sum_sq_range sel (ps : list RGB) :
  0 <= channel_sum_sq sel ps <= 65025 * Z.of_nat (length ps).
Proof.
  induction ps as [|p ps IH]; cbn [channel_sum_sq foldr length]; [lia|].
  fold (channel_sum_sq sel ps). pose proof (u8_to_Z_range (sel p)). nia.
Qed.

Lemma quotient_byte s n : 0 < n -> 0 <= s <= 255 * n -> 0 <= s / n <= 255.
Proof.
  intros Hn Hs. split; [apply Z.div_pos; lia|]. apply Z.div_le_upper_bound; lia.
Qed.

(** C6. On a non-empty grid (of at most [2^45] pixels, so that the float
    sums are exact) the linear average is, channel by channel, the floor of
    the channel's sum divided by the pixel count; the call changes nothing,
    so that a second run on the same grid returns the same colour; and on
    the grid [white, white, black, black] it returns (127, 127, 127). *)
Theorem getAverage_linear rt g :
  avgSqr g = false ->
  (forall h (pixels : slice),
     contents h pixels <> [] ->
     Z.of_nat (length (contents h pixels)) <= 2 ^ 45 ->
     exists c,
       getAverage rt g pixels h = Done (c, h)
       /\ u8_to_Z (R c) = channel_sum R (contents h pixels) / Z.of_nat (length (contents h pixels))
       /\ u8_to_Z (G c) = channel_sum G (contents h pixels) / Z.of_nat (length (contents h pixels))
       /\ u8_to_Z (B c) = channel_sum B (contents h pixels) / Z.of_nat (length (contents h pixels))
       /\ (mbind (fun _ => getAverage rt g pixels) (getAverage rt g pixels)) h = Done (c, h))
  /\ (forall h (pixels : slice),
        contents h pixels = [white; white; black; black] ->
        getAverage rt g pixels h = Done (rgb 127 127 127, h)).
Proof.
  intros Hsq.
  assert (Hrun : forall h (pixels : slice),
            contents h pixels <> [] ->
            Z.of_nat (length (contents h pixels)) <= 2 ^ 45 ->
            getAverage rt g pixels h =
            Done (mkRGB
                    (u8_of_Z (channel_sum R (contents h pixels) / Z.of_nat (length (contents h pixels))))
                    (u8_of_Z (channel_sum G (contents h pixels) / Z.of_nat (length (contents h pixels))))
                    (u8_of_Z (channel_sum B (contents h pixels) / Z.of_nat (length (contents h pixels)))),
                  h)).
  { intros h pixels Hne Hn.
    unfold getAverage, load, len, mbind, M_bind, mret, M_ret. rewrite Hsq.
    rewrite !linear_channel by assumption. reflexivity. }
  split.
  - intros h pixels Hne Hn. eexists. split; [apply Hrun; assumption|].
    cbn [R G B].
    assert (Hpos : 0 < Z.of_nat (length (contents h pixels))).
    { destruct (contents h pixels); [contradiction|cbn [length]; lia]. }
    split; [|split; [|split]];
      try (apply u8_to_of_Z, quotient_byte; [exact Hpos|apply channel_sum_range]).
    unfold mbind, M_bind. rewrite (Hrun h pixels Hne Hn). apply Hrun; assumption.
  - intros h pixels Hc. rewrite Hrun; rewrite Hc; [reflexivity|discriminate|].
    cbn. change (2 ^ 45) with 35184372088832. lia.
Qed.

Lemma getAverage_linear_witness :
  exists c,
    getAverage ref_runtime {| width := 4; lineHeight := 1; avgSqr := false; genMode := 0 |}
               0%nat [[rgb 10 20 30; rgb 11 20 33; rgb 12 21 39]] = Done (c, [[rgb 10 20 30; rgb 11 20 33; rgb 12 21 39]])
    /\ u8_to_Z (R c) = channel_sum R [rgb 10 20 30; rgb 11 20 33; rgb 12 21 39] / 3
    /\ u8_to_Z (G c) = channel_sum G [rgb 10 20 30; rgb 11 20 33; rgb 12 21 39] / 3
    /\ u8_to_Z (B c) = channel_sum B [rgb 10 20 30; rgb 11 20 33; rgb 12 21 39] / 3.
Proof.
  destruct (getAverage_linear ref_runtime
              {| width := 4; lineHeight := 1; avgSqr := false; genMode := 0 |} eq_refl)
    as [Hgen _].
  destruct (Hgen [[rgb 10 20 30; rgb 11 20 33; rgb 12 21 39]] 0%nat)
    as (c & Hrun & Hr & Hg & Hb & _).
  - discriminate.
  - cbn. change (2 ^ 45) with 35184372088832. lia.
  - exists c. auto.
Defined.

(** C2 (as the code has it). On a non-empty grid (of at most [2^36] pixels)
    the quadratic average computes, per channel, the sum of the squared
    channel values divided by the pixel count and takes the square root; the
    conversion to [uint8] then discards the fraction, so that the channel is
    the integer part of the root, not the nearest integer. *)
Theorem getAverage_quadratic rt g h (pixels : slice) :
  avgSqr g = true ->
  contents h pixels <> [] ->
  Z.of_nat (length (contents h pixels)) <= 2 ^ 36 ->
  exists c,
    getAverage rt g pixels h = Done (c, h)
    /\ u8_to_Z (R c) = Z.sqrt (channel_sum_sq R (contents h pixels) / Z.of_nat (length (contents h pixels)))
    /\ u8_to_Z (G c) = Z.sqrt (channel_sum_sq G (contents h pixels) / Z.of_nat (length (contents h pixels)))
    /\ u8_to_Z (B c) = Z.sqrt (channel_sum_sq B (contents h pixels) / Z.of_nat (length (contents h pixels))).
Proof.
  intros Hsq Hne Hn.
  unfold getAverage, load, len, mbind, M_bind, mret, M_ret. rewrite Hsq.
  rewrite !quadratic_channel by assumption. eexists. split; [reflexivity|].
  cbn [R G B].
  assert (Hpos : 0 < Z.of_nat (length (contents h pixels))).
  { destruct (contents h pixels); [contradiction|cbn [length]; lia]. }
  assert (Hroot : forall sel,
            0 <= Z.sqrt (channel_sum_sq sel (contents h pixels) / Z.of_nat (length (contents h pixels))) <= 255).
  { intros sel. pose proof (channel_sum_sq_range sel (contents h pixels)) as Hr.
    set (q := channel_sum_sq sel (contents h pixels) / Z.of_nat (length (contents h pixels))).
    assert (0 <= q <= 65025).
    { unfold q. split; [apply Z.div_pos; lia|]. apply Z.div_le_upper_bound; lia. }
    pose proof (Z.sqrt_spec q ltac:(lia)) as Hs. cbn zeta in Hs.
    pose proof (Z.sqrt_nonneg q). split; [assumption|]. nia. }
  split; [|split]; apply u8_to_of_Z, Hroot.
Qed.

Lemma getAverage_quadratic_witness :
  exists c,
    getAverage ref_runtime {| width := 4; lineHeight := 1; avgSqr := true; genMode := 0 |}
               0%nat [[white; white; black; black]] = Done (c, [[white; white; black; black]])
    /\ u8_to_Z (R c) = Z.sqrt (channel_sum_sq R [white; white; black; black] / 4)
    /\ u8_to_Z (G c) = Z.sqrt (channel_sum_sq G [white; white; black; black] / 4)
    /\ u8_to_Z (B c) = Z.sqrt (channel_sum_sq B [white; white; black; black] / 4).
Proof.
  apply (getAverage_quadratic ref_runtime
           {| width := 4; lineHeight := 1; avgSqr := true; genMode := 0 |}
           [[white; white; black; black]] 0%nat).
  - reflexivity.
  - discriminate.
  - cbn. change (2 ^ 36) with 68719476736. lia.
Defined.

(** C2, as stated, fails: for the two pixels (0,0,0) and (1,1,1) the root of
    the mean square is about 0.707, whose nearest integer is 1; the code
    returns 0. *)
Lemma getAverage_quadratic_truncates :
  getAverage ref_runtime {| width := 4; lineHeight := 1; avgSqr := true; genMode := 0 |}
             0%nat [[rgb 0 0 0; rgb 1 1 1]]
  = Done (rgb 0 0 0, [[rgb 0 0 0; rgb 1 1 1]])
  /\ rms_rounded (channel_sum_sq R [rgb 0 0 0; rgb 1 1 1]) 2 = 1.
Proof. split; vm_compute; reflexivity. Qed.

(** ** Uniform frames *)

Lemma channel_sum_uniform sel (ps : list RGB) c :
  (forall p, p ∈ ps -> p = c) ->
  channel_sum sel ps = u8_to_Z (sel c) * Z.of_nat (length ps)
  /\ channel_sum_sq sel ps = u8_to_Z (sel c) * u8_to_Z (sel c) * Z.of_nat (length ps).
Proof.
  induction ps as [|p ps IH]; intros Hall; cbn [channel_sum channel_sum_sq foldr length].
  - lia.
  - fold (channel_sum sel ps). fold (channel_sum_sq sel ps).
    destruct IH as [IH1 IH2]; [intros q Hq; apply Hall; right; exact Hq|].
    rewrite (Hall p) by left. rewrite IH1, IH2. lia.
Qed.

(** C9. On a non-empty grid (of at most [2^36] pixels) whose pixels all
    have one colour, the quadratic average is that colour, and so is the
    linear average. *)
Theorem getAverage_uniform rt g g' h (pixels : slice) c :
  avgSqr g = true -> avgSqr g' = false ->
  contents h pixels <> [] ->
  Z.of_nat (length (contents h pixels)) <= 2 ^ 36 ->
  (forall p, p ∈ contents h pixels -> p = c) ->
  getAverage rt g pixels h = Done (c, h)
  /\ getAverage rt g' pixels h = Done (c, h).
Proof.
  intros Hsq Hlin Hne Hn Hall.
  assert (Hpos : 0 < Z.of_nat (length (contents h pixels))).
  { destruct (contents h pixels); [contradiction|cbn [length]; lia]. }
  assert (Hn' : Z.of_nat (length (contents h pixels)) <= 2 ^ 45).
  { change (2 ^ 36) with 68719476736 in Hn. change (2 ^ 45) with 35184372088832. lia. }
  split.
  - unfold getAverage, load, len, mbind, M_bind, mret, M_ret. rewrite Hsq.
    rewrite !quadratic_channel by assumption.
    destruct (channel_sum_uniform R _ c Hall) as [_ ->].
    destruct (channel_sum_uniform G _ c Hall) as [_ ->].
    destruct (channel_sum_uniform B _ c Hall) as [_ ->].
    rewrite !Z.div_mul by lia.
    rewrite !Z.sqrt_square by apply u8_to_Z_range.
    rewrite !u8_of_to_Z. destruct c; reflexivity.
  - unfold getAverage, load, len, mbind, M_bind, mret, M_ret. rewrite Hlin.
    rewrite !linear_channel by assumption.
    destruct (channel_sum_uniform R _ c Hall) as [-> _].
    destruct (channel_sum_uniform G _ c Hall) as [-> _].
    destruct (channel_sum_uniform B _ c Hall) as [-> _].
    rewrite !Z.div_mul by lia.
    rewrite !u8_of_to_Z. destruct c; reflexivity.
Qed.

Lemma getAverage_uniform_witness :
  getAverage ref_runtime {| width := 4; lineHeight := 1; avgSqr := true; genMode := 0 |}
             0%nat [[rgb 200 13 77; rgb 200 13 77; rgb 200 13 77]]
  = Done (rgb 200 13 77, [[rgb 200 13 77; rgb 200 13 77; rgb 200 13 77]])
  /\ getAverage ref_runtime {| width := 4; lineHeight := 1; avgSqr := false; genMode := 0 |}
                0%nat [[rgb 200 13 77; rgb 200 13 77; rgb 200 13 77]]
     = Done (rgb 200 13 77, [[rgb 200 13 77; rgb 200 13 77; rgb 200 13 77]]).
Proof.
  apply (getAverage_uniform ref_runtime
           {| width := 4; lineHeight := 1; avgSqr := true; genMode := 0 |}
           {| width := 4; lineHeight := 1; avgSqr := false; genMode := 0 |}
           [[rgb 200 13 77; rgb 200 13 77; rgb 200 13 77]] 0%nat (rgb 200 13 77)).
  - reflexivity.
  - reflexivity.
  - discriminate.
  - cbn. change (2 ^ 36) with 68719476736. lia.
  - intros p Hp. cbn in Hp. repeat (apply elem_of_cons in Hp as [Hp|Hp]; [exact Hp|]).
    apply elem_of_nil in Hp. contradiction.
Defined.

(** ** The hue order *)

Lemma ltb_key x y :
  F64.is_finite x = true -> F64.is_finite y = true ->
  (F64.ltb x y = true <-> F64.key_lt (F64.order_key x) (F64.order_key y)).
Proof.
  intros Hx Hy. unfold F64.ltb, SFltb, F64.key_lt, F64.order_key.
  destruct x as [sx|sx| |sx mx ex], y as [sy|sy| |sy my ey]; try discriminate;
    cbn [SFcompare].
  - split; [discriminate|lia].
  - destruct sy; split; try discriminate; try reflexivity; lia.
  - destruct sx; split; try discriminate; try reflexivity; lia.
  - destruct sx, sy; try (split; [discriminate|lia]); try (split; [reflexivity|lia]);
      change (PosDef.Pos.compare_cont Eq mx my) with (Pos.compare mx my);
      destruct (Z.compare_spec ex ey); destruct (Pos.compare_spec mx my); cbn [CompOpp];
      split; try discriminate; try reflexivity; try lia.
Qed.

Lemma ltb_strict_weak (key : RGB -> F64.t) :
  (forall c, F64.is_finite (key c) = true) ->
  StrictWeakOrder (fun a b => F64.ltb (key a) (key b)).
Proof.
  intros Hfin.
  assert (Hiff : forall a b,
            F64.ltb (key a) (key b) = true
            <-> F64.key_lt (F64.order_key (key a)) (F64.order_key (key b))).
  { intros a b. apply ltb_key; apply Hfin. }
  assert (Hnot : forall a b,
            F64.ltb (key a) (key b) = false
            <-> ~ F64.key_lt (F64.order_key (key a)) (F64.order_key (key b))).
  { intros a b. rewrite <- Hiff. destruct (F64.ltb (key a) (key b)); split; congruence. }
  constructor.
  - intros a. apply Hnot. destruct (F64.order_key (key a)) as [[x y] z]. unfold F64.key_lt. lia.
  - intros a b c. rewrite !Hiff.
    destruct (F64.order_key (key a)) as [[x1 y1] z1], (F64.order_key (key b)) as [[x2 y2] z2],
      (F64.order_key (key c)) as [[x3 y3] z3]. unfold F64.key_lt. lia.
  - intros a b c. rewrite !Hnot.
    destruct (F64.order_key (key a)) as [[x1 y1] z1], (F64.order_key (key b)) as [[x2 y2] z2],
      (F64.order_key (key c)) as [[x3 y3] z3]. unfold F64.key_lt. lia.
Qed.

(** *** Magnitudes *)

Lemma bounded_by_weaken N N' x : N <= N' -> F64.bounded_by N x -> F64.bounded_by N' x.
Proof.
  intros HN [Hf Hq]. split; [exact Hf|].
  rewrite Zle_Qle in HN. lra.
Qed.

Lemma of_Z_bounded z N : Z.abs z <= N -> N <= 2 ^ 53 -> F64.bounded_by N (F64.of_Z z).
Proof.
  intros Hz HN. destruct (of_Z_exact z ltac:(lia)) as (Hf & Hq & _).
  split; [exact Hf|]. rewrite Hq. apply Qabs_Qle_condition.
  rewrite <- inject_Z_opp, <- !Zle_Qle. lia.
Qed.

Lemma add_bounded x y A B :
  F64.bounded_by A x -> F64.bounded_by B y -> A + B <= 2 ^ 53 ->
  F64.bounded_by (A + B) (F64.add x y).
Proof.
  intros [Hfx Hqx] [Hfy Hqy] HN.
  apply Qabs_Qle_condition in Hqx, Hqy.
  assert (HA : (0 <= inject_Z A)%Q) by lra. assert (HB : (0 <= inject_Z B)%Q) by lra.
  assert (0 <= A) by (rewrite Zle_Qle; exact HA).
  assert (0 <= B) by (rewrite Zle_Qle; exact HB).
  destruct (add_bounds x y (- inject_Z (A + B)) (inject_Z (A + B)) Hfx Hfy) as [Hf Hq].
  - apply representable_opp, representable_Z. lia.
  - apply representable_Z. lia.
  - rewrite inject_Z_plus. split; lra.
  - split; [exact Hf|]. apply Qabs_Qle_condition. exact Hq.
Qed.

Lemma sub_bounded x y A B :
  F64.bounded_by A x -> F64.bounded_by B y -> A + B <= 2 ^ 53 ->
  F64.bounded_by (A + B) (F64.sub x y).
Proof.
  intros [Hfx Hqx] [Hfy Hqy] HN.
  apply Qabs_Qle_condition in Hqx, Hqy.
  assert (HA : (0 <= inject_Z A)%Q) by lra. assert (HB : (0 <= inject_Z B)%Q) by lra.
  assert (0 <= A) by (rewrite Zle_Qle; exact HA).
  assert (0 <= B) by (rewrite Zle_Qle; exact HB).
  destruct (sub_bounds x y (- inject_Z (A + B)) (inject_Z (A + B)) Hfx Hfy) as [Hf Hq].
  - apply representable_opp, representable_Z. lia.
  - apply representable_Z. lia.
  - rewrite inject_Z_plus. split; lra.
  - split; [exact Hf|]. apply Qabs_Qle_condition. exact Hq.
Qed.

(** Dividing by a value of magnitude at least one does not increase the
    magnitude. *)
Lemma div_bounded x y A :
  F64.bounded_by A x -> F64.is_finite y = true -> (1 <= Qabs (F64.to_Q y))%Q ->
  A <= 2 ^ 53 ->
  F64.bounded_by A (F64.div x y).
Proof.
  intros [Hfx Hqx] Hfy Hy HN.
  apply Qabs_Qle_condition in Hqx.
  assert (HA : (0 <= inject_Z A)%Q) by lra.
  assert (0 <= A) by (rewrite Zle_Qle; exact HA).
  assert (Hy0 : ~ (F64.to_Q y == 0)%Q).
  { intros E. rewrite E in Hy. change (Qabs 0) with 0%Q in Hy. lra. }
  destruct (div_bounds x y (- inject_Z A) (inject_Z A) Hfx Hfy Hy0) as [Hf Hq].
  - apply representable_opp, representable_Z. lia.
  - apply representable_Z. lia.
  - set (X := F64.to_Q x) in *. set (Y := F64.to_Q y) in *.
    destruct (Qlt_le_dec Y 0) as [Hneg|Hpos].
    + rewrite Qabs_neg in Hy by lra.
      assert (E : (X / Y == (- X) / (- Y))%Q) by (field; lra). rewrite E.
      split.
      * apply Qle_shift_div_l; [lra|]. nra.
      * apply Qle_shift_div_r; [lra|]. nra.
    + rewrite Qabs_pos in Hy by lra. split.
      * apply Qle_shift_div_l; [lra|]. nra.
      * apply Qle_shift_div_r; [lra|]. nra.
  - split; [exact Hf|]. apply Qabs_Qle_condition. exact Hq.
Qed.

Lemma Max_cases x y :
  F64.is_finite x = true -> F64.is_finite y = true -> F64.Max x y = x \/ F64.Max x y = y.
Proof.
  intros Hx Hy. unfold F64.Max.
  destruct x as [sx|sx| |sx mx ex], y as [sy|sy| |sy my ey]; try discriminate;
    try (destruct sx; auto); destruct (F64.ltb _ _); auto.
Qed.

Lemma Min_cases x y :
  F64.is_finite x = true -> F64.is_finite y = true -> F64.Min x y = x \/ F64.Min x y = y.
Proof.
  intros Hx Hy. unfold F64.Min.
  destruct x as [sx|sx| |sx mx ex], y as [sy|sy| |sy my ey]; try discriminate;
    try (destruct sx; auto); destruct (F64.ltb _ _); auto.
Qed.

Lemma small_const_bounded z :
  1 <= z <= 255 ->
  F64.is_finite (F64.of_Z z) = true /\ (1 <= Qabs (F64.to_Q (F64.of_Z z)))%Q
  /\ F64.bounded_by 255 (F64.of_Z z).
Proof.
  intros Hz. destruct (of_Z_exact z) as (Hf & Hq & _).
  { change (2 ^ 53) with 9007199254740992. lia. }
  split; [exact Hf|]. split.
  - rewrite Hq, Qabs_pos by (apply inject_Z_nonneg; lia).
    change 1%Q with (inject_Z 1). rewrite <- Zle_Qle. lia.
  - apply of_Z_bounded; [lia|]. change (2 ^ 53) with 9007199254740992. lia.
Qed.

(** A finite value that holds an integer and is not zero has magnitude at
    least one. *)
Lemma nonzero_integer x d :
  F64.is_finite x = true -> (F64.to_Q x == inject_Z d)%Q ->
  F64.eqb x F64.zero = false ->
  (1 <= Qabs (F64.to_Q x))%Q.
Proof.
  intros Hx Hq He. destruct x as [s|s| |s m e]; try discriminate.
  assert (Hne : ~ (F64.to_Q (S754_finite s m e) == 0)%Q).
  { rewrite to_Q_finite. pose proof (Qpow2_pos e).
    pose proof (inject_Z_pos (Zpos m) ltac:(lia)). destruct s; nra. }
  rewrite Hq in Hne |- *.
  assert (d <> 0) by (intros ->; apply Hne; reflexivity).
  change (Qabs (inject_Z d)) with (inject_Z (Z.abs d)).
  change 1%Q with (inject_Z 1). rewrite <- Zle_Qle. lia.
Qed.

Lemma part_bounded max x delta :
  F64.bounded_by 255 max -> F64.bounded_by 255 x -> F64.bounded_by 510 delta ->
  (1 <= Qabs (F64.to_Q delta))%Q ->
  F64.bounded_by 1020
    (F64.div (F64.add (F64.div (F64.sub max x) (F64.of_Z 6))
                      (F64.div delta (F64.of_Z 2))) delta).
Proof.
  intros Hmax Hx Hdelta Hd1.
  assert (H53 : forall n, n <= 5000 -> n <= 2 ^ 53).
  { intros n Hn. change (2 ^ 53) with 9007199254740992. lia. }
  destruct (small_const_bounded 6 ltac:(lia)) as (Hf6 & Hq6 & _).
  destruct (small_const_bounded 2 ltac:(lia)) as (Hf2 & Hq2 & _).
  pose proof (sub_bounded max x 255 255 Hmax Hx ltac:(apply H53; lia)) as H1.
  pose proof (div_bounded _ _ _ H1 Hf6 Hq6 ltac:(apply H53; lia)) as H2.
  pose proof (div_bounded _ _ _ Hdelta Hf2 Hq2 ltac:(apply H53; lia)) as H3.
  pose proof (add_bounded _ _ _ _ H2 H3 ltac:(apply H53; lia)) as H4.
  exact (div_bounded _ _ _ H4 (proj1 Hdelta) Hd1 ltac:(apply H53; lia)).
Qed.

(** The hue of every colour is a finite number. *)
Lemma ToHSL_H_finite c : F64.is_finite (HSL.H (ToHSL c)) = true.
Proof.
  assert (H53 : forall n, n <= 5000 -> n <= 2 ^ 53).
  { intros n Hn. change (2 ^ 53) with 9007199254740992. lia. }
  assert (Hch : forall b : uint8,
            exists z, 0 <= z <= 255 /\ F64.of_Z (u8_to_Z b) = F64.of_Z z).
  { intros b. exists (u8_to_Z b). split; [apply u8_to_Z_range|reflexivity]. }
  assert (Hval : forall v, (exists z, 0 <= z <= 255 /\ v = F64.of_Z z) ->
            F64.is_finite v = true /\ F64.bounded_by 255 v
            /\ exists z, 0 <= z <= 255 /\ (F64.to_Q v == inject_Z z)%Q).
  { intros v (z & Hz & ->). destruct (of_Z_exact z) as (Hf & Hq & _).
    { change (2 ^ 53) with 9007199254740992. lia. }
    split; [exact Hf|]. split; [apply of_Z_bounded; [lia|apply H53; lia]|eauto]. }
  unfold ToHSL.
  set (r := F64.of_Z (u8_to_Z (R c))). set (g := F64.of_Z (u8_to_Z (G c))).
  set (b := F64.of_Z (u8_to_Z (B c))).
  assert (Hr : exists z, 0 <= z <= 255 /\ r = F64.of_Z z) by apply Hch.
  assert (Hg : exists z, 0 <= z <= 255 /\ g = F64.of_Z z) by apply Hch.
  assert (Hb : exists z, 0 <= z <= 255 /\ b = F64.of_Z z) by apply Hch.
  assert (Hmax : exists z, 0 <= z <= 255 /\ F64.Max (F64.Max r g) b = F64.of_Z z).
  { assert (Hrg : exists z, 0 <= z <= 255 /\ F64.Max r g = F64.of_Z z).
    { destruct (Max_cases r g) as [-> | ->]; try assumption; apply Hval; assumption. }
    destruct (Max_cases (F64.Max r g) b) as [-> | ->]; try assumption; apply Hval; assumption. }
  assert (Hmin : exists z, 0 <= z <= 255 /\ F64.Min (F64.Min r g) b = F64.of_Z z).
  { assert (Hrg : exists z, 0 <= z <= 255 /\ F64.Min r g = F64.of_Z z).
    { destruct (Min_cases r g) as [-> | ->]; try assumption; apply Hval; assumption. }
    destruct (Min_cases (F64.Min r g) b) as [-> | ->]; try assumption; apply Hval; assumption. }
  set (max := F64.Max (F64.Max r g) b) in *. set (min := F64.Min (F64.Min r g) b) in *.
  destruct (Hval r Hr) as (Hfr & Hbr & _). destruct (Hval g Hg) as (Hfg & Hbg & _).
  destruct (Hval b Hb) as (Hfb & Hbb & _).
  destruct (Hval max Hmax) as (Hfmax & Hbmax & zmax & Hzmax & Hqmax).
  destruct (Hval min Hmin) as (Hfmin & Hbmin & zmin & Hzmin & Hqmin).
  set (delta := F64.sub max min).
  destruct (sub_exact max min Hfmax Hfmin) as [Hfd Hqd].
  { apply (representable_ext (inject_Z (zmax - zmin))).
    - rewrite Hqmax, Hqmin. unfold Z.sub. rewrite inject_Z_plus, inject_Z_opp. ring.
    - apply representable_Z. change (2 ^ 53) with 9007199254740992. lia. }
  fold delta in Hfd, Hqd.
  assert (Hqd' : (F64.to_Q delta == inject_Z (zmax - zmin))%Q).
  { rewrite Hqd, Hqmax, Hqmin. unfold Z.sub. rewrite inject_Z_plus, inject_Z_opp. ring. }
  pose proof (sub_bounded max min 255 255 Hbmax Hbmin ltac:(apply H53; lia)) as Hbd.
  fold delta in Hbd. change (255 + 255) with 510 in Hbd.
  destruct (F64.eqb delta F64.zero) eqn:Hz; [reflexivity|].
  pose proof (nonzero_integer delta _ Hfd Hqd' Hz) as Hd1.
  pose proof (part_bounded max r delta Hbmax Hbr Hbd Hd1) as Hr2.
  pose proof (part_bounded max g delta Hbmax Hbg Hbd Hd1) as Hg2.
  pose proof (part_bounded max b delta Hbmax Hbb Hbd Hd1) as Hb2.
  cbn zeta.
  set (r2 := F64.div (F64.add (F64.div (F64.sub max r) (F64.of_Z 6))
                              (F64.div delta (F64.of_Z 2))) delta) in *.
  set (g2 := F64.div (F64.add (F64.div (F64.sub max g) (F64.of_Z 6))
                              (F64.div delta (F64.of_Z 2))) delta) in *.
  set (b2 := F64.div (F64.add (F64.div (F64.sub max b) (F64.of_Z 6))
                              (F64.div delta (F64.of_Z 2))) delta) in *.
  destruct (small_const_bounded 1 ltac:(lia)) as (Hf1 & Hq1 & Hb1).
  destruct (small_const_bounded 2 ltac:(lia)) as (Hf2 & Hq2 & Hb2').
  destruct (small_const_bounded 3 ltac:(lia)) as (Hf3 & Hq3 & _).
  pose proof (div_bounded _ _ _ Hb1 Hf3 Hq3 ltac:(apply H53; lia)) as Hthird.
  pose proof (div_bounded _ _ _ Hb2' Hf3 Hq3 ltac:(apply H53; lia)) as Htwothirds.
  set (h := if F64.eqb r max then F64.sub b2 g2
            else if F64.eqb g max
                 then F64.sub (F64.add (F64.div (F64.of_Z 1) (F64.of_Z 3)) r2) b2
            else if F64.eqb b max
                 then F64.sub (F64.add (F64.div (F64.of_Z 2) (F64.of_Z 3)) g2) r2
            else F64.zero).
  assert (Hh : F64.bounded_by 2295 h).
  { unfold h. destruct (F64.eqb r max); [|destruct (F64.eqb g max); [|destruct (F64.eqb b max)]].
    - apply (bounded_by_weaken (1020 + 1020)); [lia|].
      apply sub_bounded; [assumption|assumption|apply H53; lia].
    - apply (bounded_by_weaken (255 + 1020 + 1020)); [lia|].
      apply sub_bounded; [|assumption|apply H53; lia].
      apply add_bounded; [assumption|assumption|apply H53; lia].
    - apply (bounded_by_weaken (255 + 1020 + 1020)); [lia|].
      apply sub_bounded; [|assumption|apply H53; lia].
      apply add_bounded; [assumption|assumption|apply H53; lia].
    - split; [reflexivity|]. cbn. apply inject_Z_nonneg. lia. }
  cbn [HSL.H].
  destruct (F64.ltb h F64.zero).
  - apply (add_bounded h (F64.of_Z 1) 2295 255 Hh Hb1). apply H53. lia.
  - destruct (F64.ltb (F64.of_Z 1) h).
    + apply (sub_bounded h (F64.of_Z 1) 2295 255 Hh Hb1). apply H53. lia.
    + apply Hh.
Qed.

Lemma RGBList_Less_swo : StrictWeakOrder (@Less RGB RGBList).
Proof. apply (ltb_strict_weak (fun c => HSL.H (ToHSL c))), ToHSL_H_finite. Qed.

(** ** The HSL conversion is not normalised *)

(** C3 (what the code does instead). [ToHSL] works on the raw channel
    values 0..255, not on values scaled to [0, 1], while its thresholds [0.5]
    and [2] are those of the scaled formula. For a grey colour it returns hue
    0, saturation 0 and, as lightness, the channel value itself (255 for
    white, not 1); for pure red the saturation is negative; for (2, 0, 0)
    the saturation is [delta / (2 - max - min)] with a zero divisor, that is
    plus infinity. *)
Theorem ToHSL_raw_channels :
  (forall v : uint8,
     ToHSL (mkRGB v v v) = HSL.mk F64.zero F64.zero (F64.of_Z (u8_to_Z v)))
  /\ HSL.L (ToHSL white) = F64.of_Z 255
  /\ F64.ltb (HSL.S (ToHSL (rgb 255 0 0))) F64.zero = true
  /\ HSL.S (ToHSL (rgb 2 0 0)) = S754_infinity false.
Proof.
  split; [|split; [|split]].
  - intros v. destruct v; vm_compute; reflexivity.
  - vm_compute; reflexivity.
  - vm_compute; reflexivity.
  - vm_compute; reflexivity.
Qed.

(** ** The reference runtime meets the contract *)

Lemma insert_by_perm {A} (less : A -> A -> bool) x l : insert_by less x l ≡ₚ x :: l.
Proof.
  induction l as [|y l IH]; cbn [insert_by]; [reflexivity|].
  destruct (less x y); [reflexivity|].
  rewrite IH. apply Permutation_swap.
Qed.

Lemma insertion_sort_perm A (less : A -> A -> bool) l : insertion_sort A less l ≡ₚ l.
Proof.
  unfold insertion_sort. induction l as [|x l IH]; cbn [foldr]; [reflexivity|].
  rewrite insert_by_perm, IH. reflexivity.
Qed.

Lemma swo_asym {A} (less : A -> A -> bool) :
  StrictWeakOrder less -> forall a b, less a b = true -> less b a = false.
Proof.
  intros Ho a b Hab. destruct (less b a) eqn:Hba; [|reflexivity].
  rewrite <- (swo_irrefl less Ho a). symmetry. exact (swo_trans less Ho a b a Hab Hba).
Qed.

Lemma insert_by_sorted {A} (less : A -> A -> bool) x l :
  StrictWeakOrder less -> sorted_by less l -> sorted_by less (insert_by less x l).
Proof.
  intros Ho. unfold sorted_by. induction 1 as [|y l Hs IH Hy]; cbn [insert_by].
  - repeat constructor.
  - destruct (less x y) eqn:Hxy.
    + constructor; [constructor; assumption|].
      constructor; [exact (swo_asym less Ho x y Hxy)|].
      rewrite Forall_forall in Hy |- *. intros z Hz.
      destruct (less z x) eqn:Hzx; [|reflexivity].
      rewrite <- (Hy z Hz). symmetry. exact (swo_trans less Ho z x y Hzx Hxy).
    + constructor; [exact IH|].
      rewrite Forall_forall in Hy |- *. intros z Hz.
      rewrite insert_by_perm in Hz. apply elem_of_cons in Hz as [->|Hz]; auto.
Qed.

Lemma insertion_sort_sorted A (less : A -> A -> bool) l :
  StrictWeakOrder less -> sorted_by less (insertion_sort A less l).
Proof.
  intros Ho. unfold insertion_sort. induction l as [|x l IH]; cbn [foldr].
  - constructor.
  - apply insert_by_sorted; assumption.
Qed.

Lemma ref_runtime_ok : RuntimeOK ref_runtime.
Proof.
  constructor; cbn.
  - apply insertion_sort_perm.
  - apply insertion_sort_sorted.
  - reflexivity.
Qed.

(** ** The heap *)

Lemma contents_app_l (h : heap) l (s : slice) :
  (s < length h)%nat -> contents (h ++ [l]) s = contents h s.
Proof. intros Hs. unfold contents. rewrite lookup_app_l by exact Hs. reflexivity. Qed.

Lemma contents_app_new (h : heap) l : contents (h ++ [l]) (length h) = l.
Proof.
  unfold contents. rewrite lookup_app_r by lia. rewrite Nat.sub_diag. reflexivity.
Qed.

Lemma insert_app_new (h : heap) l l' : <[length h := l']> (h ++ [l]) = h ++ [l'].
Proof.
  rewrite insert_app_r_alt by lia. rewrite Nat.sub_diag. reflexivity.
Qed.

Lemma sort_Sort_perm rt {A} (I : Interface A) l :
  RuntimeOK rt -> sort_Sort rt I l ≡ₚ l.
Proof. intros Hrt. apply (sort_order_perm rt Hrt). Qed.

Lemma sort_Sort_length rt {A} (I : Interface A) l :
  RuntimeOK rt -> length (sort_Sort rt I l) = length l.
Proof. intros Hrt. apply Permutation_length, sort_Sort_perm, Hrt. Qed.

Lemma sort_Sort_sorted rt {A} (I : Interface A) l :
  RuntimeOK rt -> StrictWeakOrder (@Less A I) -> sorted_by (@Less A I) (sort_Sort rt I l).
Proof. intros Hrt. apply (sort_order_sorted rt Hrt). Qed.

Lemma sort_Sort_nil rt {A} (I : Interface A) : RuntimeOK rt -> sort_Sort rt I [] = [].
Proof. intros Hrt. apply Permutation_nil_r, sort_Sort_perm, Hrt. Qed.

Lemma Permutation_replicate {A} (x : A) n l : l ≡ₚ replicate n x -> l = replicate n x.
Proof.
  intros Hp. assert (Hl : length l = n).
  { rewrite (Permutation_length Hp). apply length_replicate. }
  subst n. symmetry. apply replicate_as_Forall. split; [reflexivity|].
  rewrite Forall_forall. intros y Hy. rewrite Hp in Hy.
  apply elem_of_replicate in Hy as [-> _]. reflexivity.
Qed.

(** ** Running the reductions *)

Lemma getAverage_run rt g (pixels : slice) h :
  exists c, getAverage rt g pixels h = Done (c, h).
Proof.
  unfold getAverage, load, len, mbind, M_bind, mret, M_ret.
  destruct (avgSqr g); eexists; reflexivity.
Qed.

(** [make] either returns the fresh zeroed array or panics. *)
Lemma make_outcome n h :
  make n h = Done (length h, h ++ [replicate (Z.to_nat n) (mkRGB x00 x00 x00)])
  \/ make n h = Panic MakeSliceLen.
Proof.
  unfold make. destruct (n <? 0); [right; reflexivity|].
  destruct (_ && _); [right|left]; reflexivity.
Qed.

(** A length within the allocation limit is allocated. *)
Lemma make_within n h :
  0 <= n -> 3 * n <= maxAlloc ->
  make n h = Done (length h, h ++ [replicate (Z.to_nat n) (mkRGB x00 x00 x00)]).
Proof.
  intros Hn Hmax. unfold make.
  destruct (Z.ltb_spec n 0) as [?|_]; [lia|].
  destruct (Z.ltb_spec maxAlloc (3 * n)) as [?|_]; [lia|]. reflexivity.
Qed.

(** So is the length of an array that the heap holds. *)
Lemma make_held n h :
  0 <= n -> holds_array h n = true ->
  make n h = Done (length h, h ++ [replicate (Z.to_nat n) (mkRGB x00 x00 x00)]).
Proof.
  intros Hn Hheld. unfold make.
  destruct (Z.ltb_spec n 0) as [?|_]; [lia|].
  rewrite Hheld, andb_false_r. reflexivity.
Qed.

Lemma holds_array_contents h (s : slice) :
  (s < length h)%nat -> holds_array h (Z.of_nat (length (contents h s))) = true.
Proof.
  intros Hs. unfold holds_array, contents.
  destruct (lookup_lt_is_Some_2 h s Hs) as [l Hl]. rewrite Hl. cbn.
  apply existsb_exists. exists l. split.
  - apply list_elem_of_In. eapply list_elem_of_lookup_2, Hl.
  - apply Z.leb_le. lia.
Qed.

(** Over the limit, on a heap whose arrays are all within it, [make] panics. *)
Lemma make_over n h :
  Forall (fun l => 3 * Z.of_nat (length l) <= maxAlloc) h ->
  maxAlloc < 3 * n -> make n h = Panic MakeSliceLen.
Proof.
  intros Hh Hn. unfold make.
  destruct (n <? 0); [reflexivity|].
  destruct (Z.ltb_spec maxAlloc (3 * n)) as [_|?]; [|lia].
  assert (Hheld : holds_array h n = false).
  { unfold holds_array. apply not_true_is_false. intros Hex.
    apply existsb_exists in Hex as (l & Hin & Hle).
    apply list_elem_of_In in Hin. rewrite Forall_forall in Hh.
    specialize (Hh l Hin). apply Z.leb_le in Hle. lia. }
  rewrite Hheld. reflexivity.
Qed.

Lemma getMedian_run rt (pixels : slice) h :
  (pixels < length h)%nat ->
  let sorted := sort_Sort rt RGBList (contents h pixels) in
  getMedian rt pixels h =
  match sorted !! Z.to_nat (Z.quot (Z.of_nat (length sorted)) 2) with
  | Some c => Done (c, h ++ [sorted])
  | None => Panic IndexOutOfRange
  end.
Proof.
  intros Hp sorted. unfold getMedian, len, copy, sort_slice, index, mbind, M_bind.
  rewrite make_held by (try apply holds_array_contents; lia || exact Hp).
  rewrite Nat2Z.id, contents_app_new, contents_app_l by exact Hp.
  rewrite length_replicate, Nat.min_id.
  rewrite firstn_all, drop_replicate, Nat.sub_diag, app_nil_r.
  rewrite insert_app_new, contents_app_new, insert_app_new, contents_app_new.
  fold sorted.
  destruct (Z.ltb_spec (Z.quot (Z.of_nat (length sorted)) 2) 0) as [Hneg|_].
  { pose proof (Z.quot_pos (Z.of_nat (length sorted)) 2). lia. }
  reflexivity.
Qed.

Lemma for_range_store (a : slice) (l : list colorCount) : forall k (h : heap) pre mid post,
  0 <= k -> Z.of_nat (length pre) = k -> length mid = length l ->
  contents h a = pre ++ mid ++ post ->
  for_range (fun i cc => store a i (Color cc)) k l h =
  Done (tt, if decide (l = []) then h else <[a := pre ++ (Color <$> l) ++ post]> h).
Proof.
  induction l as [|cc l IH]; intros k h pre mid post Hk Hpre Hmid Hc; cbn [for_range].
  - reflexivity.
  - destruct mid as [|m mid]; [discriminate|]. injection Hmid as Hmid.
    unfold mbind, M_bind, store at 1. rewrite Hc.
    assert (Hb : (0 <=? k) && (k <? Z.of_nat (length (pre ++ (m :: mid) ++ post))) = true).
    { rewrite !length_app. cbn [length].
      apply andb_true_intro. split; [apply Z.leb_le|apply Z.ltb_lt]; lia. }
    rewrite Hb. clear Hb.
    replace (Z.to_nat k) with (length pre + 0)%nat by lia.
    rewrite insert_app_r. change (<[0%nat:=Color cc]> ((m :: mid) ++ post)) with (Color cc :: mid ++ post).
    rewrite decide_False by discriminate.
    assert (Hlen : (a < length h)%nat).
    { destruct (decide (a < length h)%nat) as [?|Hge]; [assumption|].
      unfold contents in Hc. rewrite lookup_ge_None_2 in Hc by lia.
      destruct pre; discriminate. }
    rewrite (IH (k + 1) _ (pre ++ [Color cc]) mid post); try lia.
    + destruct (decide (l = [])) as [->|_].
      * destruct mid; [|discriminate]. reflexivity.
      * rewrite list_insert_insert_eq. cbn [fmap list_fmap]. rewrite <- app_assoc. reflexivity.
    + rewrite length_app. cbn [length]. lia.
    + unfold contents. rewrite list_lookup_insert_eq by exact Hlen. cbn.
      rewrite <- app_assoc. reflexivity.
Qed.

(** What [getMode] returns once its [make] has returned. *)
Lemma getMode_after_make rt g (pixels : slice) h :
  make (genMode g) h
  = Done (length h, h ++ [replicate (Z.to_nat (genMode g)) (mkRGB x00 x00 x00)]) ->
  let N := Z.to_nat (genMode g) in
  let top := Color <$> take N (ranked rt (contents h pixels)) in
  getMode rt g pixels h =
  Done (length h,
        h ++ [sort_Sort rt RGBList (top ++ replicate (N - length top) (mkRGB x00 x00 x00))]).
Proof.
  intros Hmake N top. unfold getMode, load, sort_slice, mbind, M_bind, mret, M_ret.
  rewrite Hmake. fold N.
  assert (Htop : (length top <= N)%nat).
  { unfold top. rewrite length_fmap, length_take. lia. }
  rewrite (for_range_store (length h) _ 0 _ []
             (replicate (length top) (mkRGB x00 x00 x00))
             (replicate (N - length top) (mkRGB x00 x00 x00))).
  - fold top. destruct (decide (take N (ranked rt (contents h pixels)) = [])) as [Hnil|_].
    + rewrite contents_app_new, insert_app_new.
      unfold top. rewrite Hnil. cbn. rewrite Nat.sub_0_r. reflexivity.
    + rewrite !insert_app_new, contents_app_new, ?insert_app_new. reflexivity.
  - lia.
  - reflexivity.
  - unfold top. rewrite length_replicate, length_fmap. reflexivity.
  - rewrite contents_app_new. cbn [app]. rewrite <- replicate_add. f_equal. lia.
Qed.

(** When [make] panics, so does [getMode]. *)
Lemma getMode_make_panics rt g (pixels : slice) h :
  make (genMode g) h = Panic MakeSliceLen ->
  getMode rt g pixels h = Panic MakeSliceLen.
Proof.
  intros Hmake. unfold getMode, load, mbind, M_bind. rewrite Hmake. reflexivity.
Qed.

Lemma getMode_run rt g (pixels : slice) h :
  (pixels < length h)%nat -> 0 <= genMode g -> 3 * genMode g <= maxAlloc ->
  let N := Z.to_nat (genMode g) in
  let top := Color <$> take N (ranked rt (contents h pixels)) in
  getMode rt g pixels h =
  Done (length h,
        h ++ [sort_Sort rt RGBList (top ++ replicate (N - length top) (mkRGB x00 x00 x00))]).
Proof.
  intros _ HN Hmax. apply getMode_after_make, make_within; assumption.
Qed.

(** ** Empty frames *)

(** C4 (as the code has it). No reduction reports an [EmptyFrame] error, and
    the code has none to report. On a zero-pixel grid [getMedian] panics with
    an index out of range, [getAverage] returns a colour whose channels are
    the implementation-dependent conversion of NaN to [uint8], and [getMode],
    for a [genMode] that [make] allocates (not negative, and of three bytes
    an entry within the allocation limit), returns [genMode] entries of
    black. *)
Theorem reductions_on_empty_frame rt g h (pixels : slice) :
  RuntimeOK rt -> (pixels < length h)%nat -> contents h pixels = [] ->
  0 <= genMode g -> 3 * genMode g <= maxAlloc ->
  getAverage rt g pixels h =
    Done (mkRGB (uint8_oor rt S754_nan) (uint8_oor rt S754_nan) (uint8_oor rt S754_nan), h)
  /\ getMedian rt pixels h = Panic IndexOutOfRange
  /\ getMode rt g pixels h =
       Done (length h, h ++ [replicate (Z.to_nat (genMode g)) black]).
Proof.
  intros Hrt Hp He HN Hmax. split; [|split].
  - unfold getAverage, load, len, mbind, M_bind, mret, M_ret. rewrite He.
    destruct (avgSqr g); reflexivity.
  - rewrite getMedian_run by exact Hp. cbn zeta. rewrite He.
    rewrite sort_Sort_nil by exact Hrt. reflexivity.
  - rewrite getMode_run by assumption. cbn zeta. rewrite He.
    assert (Hr : ranked rt [] = []).
    { unfold ranked, count_pixels. cbn [foldl].
      assert (Hm : map_order rt colorCount ∅ = []).
      { apply Permutation_nil_r. rewrite (map_order_perm rt Hrt), map_to_list_empty.
        reflexivity. }
      rewrite Hm. cbn [fmap list_fmap]. rewrite !sort_Sort_nil by exact Hrt. reflexivity. }
    rewrite Hr, take_nil. cbn [fmap list_fmap length app]. rewrite Nat.sub_0_r.
    rewrite (Permutation_replicate _ _ _ (sort_Sort_perm rt RGBList _ Hrt)).
    reflexivity.
Qed.

Lemma reductions_on_empty_frame_witness :
  getAverage ref_runtime {| width := 4; lineHeight := 1; avgSqr := false; genMode := 2 |}
             0%nat [[]] = Done (black, [[]])
  /\ getMedian ref_runtime 0%nat [[]] = Panic IndexOutOfRange
  /\ getMode ref_runtime {| width := 4; lineHeight := 1; avgSqr := false; genMode := 2 |}
             0%nat [[]] = Done (1%nat, [[]; [black; black]]).
Proof.
  apply (reductions_on_empty_frame ref_runtime
           {| width := 4; lineHeight := 1; avgSqr := false; genMode := 2 |} [[]] 0%nat).
  - exact ref_runtime_ok.
  - cbn. lia.
  - reflexivity.
  - cbn. lia.
  - cbn. unfold maxAlloc. lia.
Defined.

(** C4, as stated, fails: on the empty grid the dominant-set reduction
    succeeds and returns black entries, and the median panics. *)
Lemma empty_frame_no_error :
  getMode ref_runtime {| width := 4; lineHeight := 1; avgSqr := false; genMode := 2 |}
          0%nat [[]] = Done (1%nat, [[]; [black; black]])
  /\ getMedian ref_runtime 0%nat [[]] = Panic IndexOutOfRange.
Proof. split; reflexivity. Qed.

(** ** The reductions do not write to their input *)

(** C10. Each reduction that returns leaves every slice of the heap it was
    called on as it was, the input [pixels] among them: [getAverage] changes
    nothing, [getMedian] sorts a fresh copy and [getMode] fills a fresh
    result. On a non-empty grid each of them does return, [getMode] for a
    [genMode] that [make] allocates (not negative, and of three bytes an
    entry within the allocation limit). *)
Theorem reductions_preserve_input rt g h (pixels : slice) :
  RuntimeOK rt -> (pixels < length h)%nat ->
  (forall c h', getAverage rt g pixels h = Done (c, h') -> h' = h)
  /\ (forall c h', getMedian rt pixels h = Done (c, h') ->
        contents h' pixels = contents h pixels
        /\ forall s, (s < length h)%nat -> h' !! s = h !! s)
  /\ (forall r h', getMode rt g pixels h = Done (r, h') ->
        contents h' pixels = contents h pixels
        /\ forall s, (s < length h)%nat -> h' !! s = h !! s)
  /\ (contents h pixels <> [] -> 0 <= genMode g -> 3 * genMode g <= maxAlloc ->
        (exists c, getAverage rt g pixels h = Done (c, h))
        /\ (exists c l, getMedian rt pixels h = Done (c, h ++ [l]))
        /\ (exists l, getMode rt g pixels h = Done (length h, h ++ [l]))).
Proof.
  intros Hrt Hp. split; [|split; [|split]].
  - intros c h' Hrun. destruct (getAverage_run rt g pixels h) as (c' & Hrun').
    congruence.
  - intros c h'. rewrite getMedian_run by exact Hp. cbn zeta.
    destruct (_ !! _); [|discriminate]. intros [= _ <-]. split.
    + apply contents_app_l, Hp.
    + intros s Hs. apply lookup_app_l, Hs.
  - intros r h' Hrun.
    destruct (make_outcome (genMode g) h) as [Hmake|Hmake].
    + rewrite (getMode_after_make rt g pixels h Hmake) in Hrun.
      injection Hrun as _ <-. split.
      * apply contents_app_l, Hp.
      * intros s Hs. apply lookup_app_l, Hs.
    + rewrite (getMode_make_panics rt g pixels h Hmake) in Hrun. discriminate.
  - intros Hne HN Hmax. split; [apply getAverage_run|]. split.
    + rewrite getMedian_run by exact Hp. cbn zeta.
      set (sorted := sort_Sort rt RGBList (contents h pixels)).
      assert (Hlen : length sorted = length (contents h pixels))
        by apply sort_Sort_length, Hrt.
      destruct (sorted !! _) as [c|] eqn:Hl; [eauto|].
      apply lookup_ge_None in Hl. exfalso.
      assert (0 < Z.of_nat (length sorted)).
      { rewrite Hlen. destruct (contents h pixels); [contradiction|cbn; lia]. }
      pose proof (Z.quot_lt (Z.of_nat (length sorted)) 2 ltac:(lia) ltac:(lia)).
      pose proof (Z.quot_pos (Z.of_nat (length sorted)) 2 ltac:(lia) ltac:(lia)).
      lia.
    + rewrite getMode_run by assumption. eauto.
Qed.

Lemma reductions_preserve_input_witness :
  exists c l,
    getMedian ref_runtime 0%nat [[rgb 0 0 255; rgb 0 255 0; rgb 255 0 0]]
    = Done (c, [[rgb 0 0 255; rgb 0 255 0; rgb 255 0 0]] ++ [l]).
Proof.
  apply (reductions_preserve_input ref_runtime
           {| width := 4; lineHeight := 1; avgSqr := false; genMode := 2 |}
           [[rgb 0 0 255; rgb 0 255 0; rgb 255 0 0]] 0%nat).
  - exact ref_runtime_ok.
  - cbn. lia.
  - discriminate.
  - cbn. lia.
  - cbn. unfold maxAlloc. lia.
Defined.

(** ** Hex keys *)

Lemma hex_digit_inj n1 n2 :
  (n1 < 16)%N -> (n2 < 16)%N -> hex_digit n1 = hex_digit n2 -> n1 = n2.
Proof.
  unfold hex_digit. intros H1 H2 Heq.
  apply (f_equal Ascii.N_of_ascii) in Heq.
  rewrite !Ascii.N_ascii_embedding in Heq.
  - destruct (N.ltb_spec n1 10), (N.ltb_spec n2 10); lia.
  - destruct (N.ltb_spec n2 10); lia.
  - destruct (N.ltb_spec n1 10); lia.
Qed.

Lemma hex2_inj b1 b2 : hex2 b1 = hex2 b2 -> b1 = b2.
Proof.
  unfold hex2. intros [= Hhi Hlo].
  pose proof (Byte.to_N_bounded b1). pose proof (Byte.to_N_bounded b2).
  apply hex_digit_inj in Hhi;
    [|apply N.Div0.div_lt_upper_bound; lia|apply N.Div0.div_lt_upper_bound; lia].
  apply hex_digit_inj in Hlo; [|apply N.mod_lt; lia|apply N.mod_lt; lia].
  assert (Heq : Byte.to_N b1 = Byte.to_N b2).
  { rewrite (N.div_mod (Byte.to_N b1) 16), (N.div_mod (Byte.to_N b2) 16) by lia.
    congruence. }
  apply (f_equal Byte.of_N) in Heq. rewrite !Byte.of_to_N in Heq. congruence.
Qed.

Lemma Hex_inj c1 c2 : Hex c1 = Hex c2 -> c1 = c2.
Proof.
  destruct c1 as [r1 g1 b1], c2 as [r2 g2 b2]. unfold Hex. cbn [R G B].
  intros Heq.
  assert (hex2 r1 = hex2 r2 /\ hex2 g1 = hex2 g2 /\ hex2 b1 = hex2 b2) as (Hr & Hg & Hb).
  { unfold hex2 in *. cbn in Heq. injection Heq as -> -> -> -> -> ->. auto. }
  apply hex2_inj in Hr, Hg, Hb. congruence.
Qed.

(** ** Counting *)

Lemma occurrences_snoc c ps p :
  occurrences c (ps ++ [p]) = occurrences c ps + (if decide (p = c) then 1 else 0).
Proof.
  unfold occurrences. rewrite filter_app, length_app, filter_cons, filter_nil.
  destruct (decide (p = c)); cbn; lia.
Qed.

Lemma occurrences_pos c ps : c ∈ ps -> 0 < occurrences c ps.
Proof.
  intros Hin. unfold occurrences.
  assert (Hf : c ∈ filter (fun p => p = c) ps) by (apply list_elem_of_filter; auto).
  destruct (filter _ ps); [apply elem_of_nil in Hf; contradiction|cbn; lia].
Qed.

(** The entry the counting loop holds for a colour of the grid. *)
Lemma count_pixels_spec ps :
  (forall c, c ∈ ps ->
     count_pixels ps !! Hex c = Some (mkColorCount (Hex c) (occurrences c ps) c))
  /\ (forall k cc, count_pixels ps !! k = Some cc -> exists c, c ∈ ps /\ k = Hex c).
Proof.
  unfold count_pixels. induction ps as [|p ps [IH1 IH2]] using rev_ind.
  - split.
    + intros c Hc. apply elem_of_nil in Hc. contradiction.
    + intros k cc Hk. cbn in Hk. rewrite lookup_empty in Hk. discriminate.
  - rewrite foldl_snoc. set (m := foldl count_pixel ∅ ps) in *.
    assert (Hstep : count_pixel m p =
              <[Hex p := mkColorCount (Hex p) (occurrences p ps + 1) p]> m).
    { unfold count_pixel. destruct (m !! Hex p) as [cc|] eqn:Hl.
      - destruct (IH2 _ _ Hl) as (c & Hc & Hk). apply Hex_inj in Hk. subst c.
        rewrite (IH1 p Hc) in Hl. injection Hl as <-.
        rewrite (IH1 p Hc). reflexivity.
      - rewrite lookup_insert_eq. cbn. rewrite insert_insert_eq.
        assert (Hnin : p ∉ ps).
        { intros Hin. rewrite (IH1 p Hin) in Hl. discriminate. }
        assert (Hocc : occurrences p ps = 0).
        { unfold occurrences.
          destruct (filter (fun q => q = p) ps) as [|q l] eqn:Hf; [reflexivity|].
          assert (Hq : q ∈ filter (fun q => q = p) ps) by (rewrite Hf; left).
          apply list_elem_of_filter in Hq as [-> Hq]. contradiction. }
        rewrite Hocc. reflexivity. }
    rewrite Hstep. split.
    + intros c Hc. rewrite occurrences_snoc.
      destruct (decide (p = c)) as [->|Hne].
      * rewrite lookup_insert_eq. reflexivity.
      * rewrite lookup_insert_ne by (intros Heq; apply Hex_inj in Heq; congruence).
        rewrite Z.add_0_r. apply IH1.
        apply elem_of_app in Hc as [Hc|Hc]; [exact Hc|].
        apply list_elem_of_singleton in Hc. congruence.
    + intros k cc Hk. destruct (decide (Hex p = k)) as [<-|Hne].
      * exists p. split; [|reflexivity]. apply elem_of_app. right. left.
      * rewrite lookup_insert_ne in Hk by exact Hne.
        destruct (IH2 _ _ Hk) as (c & Hc & ->). exists c. split; [|reflexivity].
        apply elem_of_app. left. exact Hc.
Qed.

(** The ranking holds one entry per distinct colour, with its count. *)
Lemma ranked_perm rt ps :
  RuntimeOK rt ->
  ranked rt ps ≡ₚ (fun c => mkColorCount (Hex c) (occurrences c ps) c) <$> remove_dups ps.
Proof.
  intros Hrt. unfold ranked. rewrite !sort_Sort_perm by exact Hrt.
  rewrite (map_order_perm rt Hrt).
  destruct (count_pixels_spec ps) as [H1 H2].
  assert (Hentry : forall k cc, (k, cc) ∈ map_to_list (count_pixels ps) ->
            exists c, c ∈ ps /\ k = Hex c /\ cc = mkColorCount (Hex c) (occurrences c ps) c).
  { intros k cc Hin. apply elem_of_map_to_list in Hin.
    destruct (H2 _ _ Hin) as (c & Hc & ->). exists c. split; [exact Hc|].
    split; [reflexivity|]. rewrite (H1 c Hc) in Hin. congruence. }
  apply NoDup_Permutation.
  - apply NoDup_fmap_2_strong; [|apply NoDup_map_to_list].
    intros [k1 v1] [k2 v2] Hi1 Hi2 Heq. cbn in Heq. subst v2.
    destruct (Hentry _ _ Hi1) as (c1 & _ & -> & ->).
    destruct (Hentry _ _ Hi2) as (c2 & _ & -> & Hv).
    apply (f_equal Color) in Hv. cbn in Hv. subst c2. reflexivity.
  - apply NoDup_fmap_2_strong; [|apply NoDup_remove_dups].
    intros c1 c2 _ _ Heq. apply (f_equal Color) in Heq. exact Heq.
  - intros cc. rewrite !list_elem_of_fmap. split.
    + intros ([k v] & -> & Hin). destruct (Hentry _ _ Hin) as (c & Hc & -> & ->).
      exists c. split; [reflexivity|]. apply elem_of_remove_dups, Hc.
    + intros (c & -> & Hc). rewrite elem_of_remove_dups in Hc.
      exists (Hex c, mkColorCount (Hex c) (occurrences c ps) c). split; [reflexivity|].
      apply elem_of_map_to_list. apply H1, Hc.
Qed.

Lemma colorCount_Less_swo : StrictWeakOrder (@Less colorCount colorCountList).
Proof.
  constructor; cbn.
  - intros a. apply Z.ltb_irrefl.
  - intros a b c Hab Hbc. apply Z.ltb_lt in Hab, Hbc. apply Z.ltb_lt. lia.
  - intros a b c Hab Hba Hbc Hcb. apply Z.ltb_ge in Hab, Hba, Hbc, Hcb.
    split; apply Z.ltb_ge; lia.
Qed.

Lemma Reverse_swo {A} (I : Interface A) :
  StrictWeakOrder (@Less A I) -> StrictWeakOrder (@Less A (Reverse I)).
Proof.
  intros [Hi Ht Hc]. constructor; cbn.
  - exact Hi.
  - intros a b c Hab Hbc. exact (Ht c b a Hbc Hab).
  - intros a b c Hab Hba Hbc Hcb. destruct (Hc a b c Hba Hab Hcb Hbc). auto.
Qed.

(** The ranking is by count, descending. *)
Lemma ranked_sorted rt ps :
  RuntimeOK rt -> StronglySorted (fun a b => Value b <= Value a) (ranked rt ps).
Proof.
  intros Hrt. unfold ranked.
  pose proof (sort_Sort_sorted rt (Reverse colorCountList)
                (sort_Sort rt colorCountList ((map_order rt colorCount (count_pixels ps)).*2))
                Hrt (Reverse_swo _ colorCount_Less_swo)) as Hs.
  unfold sorted_by in Hs. cbn in Hs.
  induction Hs as [|a l _ IH Ha]; constructor; [exact IH|].
  eapply Forall_impl; [exact Ha|]. cbn. intros b Hb. apply Z.ltb_ge in Hb. exact Hb.
Qed.

(** C1 (as the code has it). For a [genMode] that [make] allocates (not
    negative, and of three bytes an entry within the allocation limit),
    [getMode] returns a slice of length exactly [genMode], sorted by hue
    ascending. It holds the [min(genMode, distinct)]
    most frequent distinct colours of the grid, each once, and, when the grid
    has fewer than [genMode] distinct colours, one entry of black for each
    missing colour. With at least [genMode] distinct colours in the grid the
    result therefore has length [min(genMode, distinct)] and no duplicates. *)
Theorem getMode_dominant rt g h (pixels : slice) :
  RuntimeOK rt -> (pixels < length h)%nat ->
  0 <= genMode g -> 3 * genMode g <= maxAlloc ->
  exists result top,
    getMode rt g pixels h = Done (length h, h ++ [result])
    /\ length result = Z.to_nat (genMode g)
    /\ sorted_by (@Less RGB RGBList) result
    /\ result ≡ₚ top ++ replicate (Z.to_nat (genMode g) - length top) black
    /\ NoDup top
    /\ length top = Nat.min (Z.to_nat (genMode g)) (distinct (contents h pixels))
    /\ (forall c, c ∈ top -> c ∈ contents h pixels)
    /\ (forall c c', c ∈ top -> c' ∈ contents h pixels -> c' ∉ top ->
          occurrences c' (contents h pixels) <= occurrences c (contents h pixels))
    /\ ((Z.to_nat (genMode g) <= distinct (contents h pixels))%nat ->
          length result = Nat.min (Z.to_nat (genMode g)) (distinct (contents h pixels))
          /\ NoDup result).
Proof.
  intros Hrt Hp HN Hmax.
  set (ps := contents h pixels). set (N := Z.to_nat (genMode g)).
  set (entries := ranked rt ps).
  set (top := Color <$> take N entries).
  set (result := sort_Sort rt RGBList (top ++ replicate (N - length top) black)).
  set (f := fun c => mkColorCount (Hex c) (occurrences c ps) c).
  assert (Hperm : entries ≡ₚ f <$> remove_dups ps) by (apply ranked_perm, Hrt).
  assert (Hcols : Color <$> entries ≡ₚ remove_dups ps).
  { rewrite Hperm, <- list_fmap_compose.
    rewrite <- (list_fmap_id (remove_dups ps)) at 2. reflexivity. }
  assert (Hentry : forall e, e ∈ entries -> Color e ∈ ps /\ Value e = occurrences (Color e) ps).
  { intros e He. rewrite Hperm in He. apply list_elem_of_fmap in He as (c & -> & Hc).
    rewrite elem_of_remove_dups in Hc. cbn. auto. }
  assert (Htop : top = take N (Color <$> entries)) by (unfold top; apply fmap_take).
  assert (Hres : result ≡ₚ top ++ replicate (N - length top) black)
    by (apply sort_Sort_perm, Hrt).
  assert (Hlen : length top = Nat.min N (distinct ps)).
  { rewrite Htop, length_take. unfold distinct. rewrite <- (Permutation_length Hcols).
    reflexivity. }
  assert (Hnd : NoDup top).
  { rewrite Htop. apply (sublist_NoDup _ (Color <$> entries)); [|apply sublist_take].
    rewrite Hcols. apply NoDup_remove_dups. }
  exists result, top. split; [apply getMode_run; assumption|].
  split.
  { rewrite (Permutation_length Hres), length_app, length_replicate. lia. }
  split; [apply sort_Sort_sorted; [exact Hrt|exact RGBList_Less_swo]|].
  split; [exact Hres|]. split; [exact Hnd|]. split; [exact Hlen|].
  split.
  { intros c Hc. unfold top in Hc. apply list_elem_of_fmap in Hc as (e & -> & He).
    apply Hentry. apply elem_of_take in He as (i & Hi & _).
    eapply list_elem_of_lookup_2, Hi. }
  split.
  { intros c c' Hc Hc' Hnin.
    unfold top in Hc. apply list_elem_of_fmap in Hc as (e & -> & He).
    assert (Hc'' : c' ∈ Color <$> entries) by (rewrite Hcols, elem_of_remove_dups; exact Hc').
    apply list_elem_of_fmap in Hc'' as (e' & -> & He').
    rewrite <- (take_drop N entries) in He'. apply elem_of_app in He' as [He'|He'].
    { exfalso. apply Hnin. unfold top. apply list_elem_of_fmap_2. exact He'. }
    pose proof (ranked_sorted rt ps Hrt) as Hs. fold entries in Hs.
    rewrite <- (take_drop N entries) in Hs.
    pose proof (StronglySorted_app_1_elem_of _ _ _ _ _ Hs He He') as Hle. cbn in Hle.
    assert (He0 : e ∈ entries).
    { apply elem_of_take in He as (i & Hi & _). eapply list_elem_of_lookup_2, Hi. }
    assert (He0' : e' ∈ entries).
    { rewrite <- (take_drop N entries). apply elem_of_app. right. exact He'. }
    destruct (Hentry e He0) as [_ <-]. destruct (Hentry e' He0') as [_ <-]. exact Hle. }
  intros Hge. split.
  { rewrite (Permutation_length Hres), length_app, length_replicate. lia. }
  rewrite Hres. replace (N - length top)%nat with 0%nat by lia.
  cbn [replicate]. rewrite app_nil_r. exact Hnd.
Qed.

Lemma getMode_dominant_witness :
  exists result top,
    getMode ref_runtime {| width := 4; lineHeight := 1; avgSqr := false; genMode := 2 |}
            0%nat [[rgb 255 0 0; rgb 0 0 255; rgb 255 0 0; rgb 0 255 0; rgb 0 0 255; rgb 255 0 0]]
    = Done (1%nat,
            [[rgb 255 0 0; rgb 0 0 255; rgb 255 0 0; rgb 0 255 0; rgb 0 0 255; rgb 255 0 0]]
            ++ [result])
    /\ length result = 2%nat
    /\ sorted_by (@Less RGB RGBList) result
    /\ result ≡ₚ top ++ replicate (2 - length top) black
    /\ NoDup top.
Proof.
  destruct (getMode_dominant ref_runtime
              {| width := 4; lineHeight := 1; avgSqr := false; genMode := 2 |}
              [[rgb 255 0 0; rgb 0 0 255; rgb 255 0 0; rgb 0 255 0; rgb 0 0 255; rgb 255 0 0]]
              0%nat ref_runtime_ok)
    as (result & top & Hrun & Hlen & Hs & Hp & Hnd & _).
  - cbn. lia.
  - cbn. lia.
  - cbn. unfold maxAlloc. lia.
  - exists result, top. auto.
Defined.

(** C1, as stated, fails: on a single-colour grid with [genMode = 3] the
    result has three entries, two of them black padding, not one. *)
Lemma getMode_pads_with_black :
  getMode ref_runtime {| width := 4; lineHeight := 1; avgSqr := false; genMode := 3 |}
          0%nat [[rgb 0 255 0; rgb 0 255 0]]
  = Done (1%nat, [[rgb 0 255 0; rgb 0 255 0]; [black; black; rgb 0 255 0]])
  /\ length [black; black; rgb 0 255 0] <> Nat.min 3 (distinct [rgb 0 255 0; rgb 0 255 0])
  /\ ~ NoDup [black; black; rgb 0 255 0].
Proof.
  split; [vm_compute; reflexivity|]. split.
  - vm_compute. discriminate.
  - intros Hnd. apply NoDup_cons in Hnd as [Hnin _]. apply Hnin. left.
Qed.

(** ** The median *)

(** C7. On a non-empty grid [getMedian] returns the element at index
    [len / 2] of a hue-ascending rearrangement of the grid's pixels (the
    upper middle one for an even count); it is one of the grid's pixels. *)
Theorem getMedian_upper_middle rt h (pixels : slice) :
  RuntimeOK rt -> (pixels < length h)%nat -> contents h pixels <> [] ->
  exists sorted c,
    getMedian rt pixels h = Done (c, h ++ [sorted])
    /\ sorted ≡ₚ contents h pixels
    /\ sorted_by (@Less RGB RGBList) sorted
    /\ sorted !! (length (contents h pixels) / 2)%nat = Some c
    /\ c ∈ contents h pixels.
Proof.
  intros Hrt Hp Hne. rewrite getMedian_run by exact Hp. cbn zeta.
  set (sorted := sort_Sort rt RGBList (contents h pixels)).
  assert (Hperm : sorted ≡ₚ contents h pixels) by apply sort_Sort_perm, Hrt.
  assert (Hidx : Z.to_nat (Z.quot (Z.of_nat (length sorted)) 2)
                 = (length (contents h pixels) / 2)%nat).
  { rewrite (Permutation_length Hperm).
    rewrite Z.quot_div_nonneg by lia.
    change 2 with (Z.of_nat 2). rewrite <- Nat2Z.inj_div. apply Nat2Z.id. }
  rewrite Hidx.
  destruct (sorted !! (length (contents h pixels) / 2)%nat) as [c|] eqn:Hl.
  - exists sorted, c. split; [reflexivity|]. split; [exact Hperm|].
    split; [apply sort_Sort_sorted; [exact Hrt|exact RGBList_Less_swo]|].
    split; [exact Hl|]. rewrite <- Hperm. eapply list_elem_of_lookup_2, Hl.
  - exfalso. apply lookup_ge_None in Hl. rewrite (Permutation_length Hperm) in Hl.
    destruct (contents h pixels) as [|p ps]; [contradiction|].
    cbn [length] in Hl.
    pose proof (Nat.div_lt (S (length ps)) 2 ltac:(lia) ltac:(lia)). lia.
Qed.

Lemma getMedian_upper_middle_witness :
  exists sorted c,
    getMedian ref_runtime 0%nat [[rgb 0 0 255; rgb 0 255 0; rgb 255 0 0; rgb 255 255 0]]
    = Done (c, [[rgb 0 0 255; rgb 0 255 0; rgb 255 0 0; rgb 255 255 0]] ++ [sorted])
    /\ sorted ≡ₚ [rgb 0 0 255; rgb 0 255 0; rgb 255 0 0; rgb 255 255 0]
    /\ sorted_by (@Less RGB RGBList) sorted
    /\ sorted !! 2%nat = Some c
    /\ c ∈ [rgb 0 0 255; rgb 0 255 0; rgb 255 0 0; rgb 255 255 0].
Proof.
  apply (getMedian_upper_middle ref_runtime
           [[rgb 0 0 255; rgb 0 255 0; rgb 255 0 0; rgb 255 255 0]] 0%nat ref_runtime_ok).
  - cbn. lia.
  - discriminate.
Defined.

(** * Further properties of the code *)

(** ** Packing a colour *)

Lemma lor_shiftl_add hi lo n :
  0 <= n -> 0 <= lo < 2 ^ n -> Z.lor (Z.shiftl hi n) lo = hi * 2 ^ n + lo.
Proof.
  intros Hn Hlo. rewrite Z.shiftl_mul_pow2 by exact Hn.
  rewrite <- Z.lxor_lor.
  - symmetry. apply Z.add_nocarry_lxor.
    apply Z.bits_inj'. intros k Hk. rewrite Z.land_spec, Z.bits_0.
    destruct (Z.lt_ge_cases k n) as [Hlt|Hge].
    + rewrite Z.mul_pow2_bits_low by exact Hlt. reflexivity.
    + destruct (Z.eq_dec lo 0) as [->|Hne]; [rewrite Z.bits_0; apply andb_false_r|].
      rewrite (Z.bits_above_log2 lo k); [apply andb_false_r|lia|].
      apply Z.log2_lt_pow2; [lia|]. apply Z.lt_le_trans with (2 ^ n); [lia|].
      apply Z.pow_le_mono_r; lia.
  - apply Z.bits_inj'. intros k Hk. rewrite Z.land_spec, Z.bits_0.
    destruct (Z.lt_ge_cases k n) as [Hlt|Hge].
    + rewrite Z.mul_pow2_bits_low by exact Hlt. reflexivity.
    + destruct (Z.eq_dec lo 0) as [->|Hne]; [rewrite Z.bits_0; apply andb_false_r|].
      rewrite (Z.bits_above_log2 lo k); [apply andb_false_r|lia|].
      apply Z.log2_lt_pow2; [lia|]. apply Z.lt_le_trans with (2 ^ n); [lia|].
      apply Z.pow_le_mono_r; lia.
Qed.

Lemma Uint32_value c :
  Uint32 c = 65536 * u8_to_Z (R c) + 256 * u8_to_Z (G c) + u8_to_Z (B c).
Proof.
  unfold Uint32, u32_wrap.
  pose proof (u8_to_Z_range (R c)) as Hr. pose proof (u8_to_Z_range (G c)) as Hg.
  pose proof (u8_to_Z_range (B c)) as Hb.
  rewrite Z.shiftl_0_r.
  rewrite (Z.shiftl_mul_pow2 _ 16), (Z.shiftl_mul_pow2 _ 8) by lia.
  change (2 ^ 16) with 65536. change (2 ^ 8) with 256. change (2 ^ 32) with 4294967296.
  rewrite !Z.mod_small by lia.
  replace (u8_to_Z (R c) * 65536) with (Z.shiftl (u8_to_Z (R c)) 16)
    by (rewrite Z.shiftl_mul_pow2 by lia; reflexivity).
  rewrite lor_shiftl_add by (change (2 ^ 16) with 65536; lia).
  change (2 ^ 16) with 65536.
  replace (u8_to_Z (R c) * 65536 + u8_to_Z (G c) * 256)
    with (Z.shiftl (u8_to_Z (R c) * 256 + u8_to_Z (G c)) 8)
    by (rewrite Z.shiftl_mul_pow2 by lia; change (2 ^ 8) with 256; lia).
  rewrite lor_shiftl_add by (change (2 ^ 8) with 256; lia).
  change (2 ^ 8) with 256. lia.
Qed.

(** [Uint32] packs the three channels into the low 24 bits, red highest, and
    the channels are read back by shifting: no two colours share a value. *)
Theorem Uint32_round_trip c :
  0 <= Uint32 c < 2 ^ 24
  /\ mkRGB (u8_of_Z (Z.shiftr (Uint32 c) 16))
           (u8_of_Z (Z.shiftr (Uint32 c) 8))
           (u8_of_Z (Uint32 c)) = c
  /\ forall c', Uint32 c' = Uint32 c -> c' = c.
Proof.
  assert (Hdec : forall c,
            mkRGB (u8_of_Z (Z.shiftr (Uint32 c) 16))
                  (u8_of_Z (Z.shiftr (Uint32 c) 8))
                  (u8_of_Z (Uint32 c)) = c).
  { clear c. intros c. rewrite Uint32_value.
    pose proof (u8_to_Z_range (R c)) as Hr. pose proof (u8_to_Z_range (G c)) as Hg.
    pose proof (u8_to_Z_range (B c)) as Hb.
    rewrite !Z.shiftr_div_pow2 by lia. change (2 ^ 16) with 65536. change (2 ^ 8) with 256.
    replace ((65536 * u8_to_Z (R c) + 256 * u8_to_Z (G c) + u8_to_Z (B c)) / 65536)
      with (u8_to_Z (R c)) by (apply Z.div_unique with (256 * u8_to_Z (G c) + u8_to_Z (B c)); lia).
    replace ((65536 * u8_to_Z (R c) + 256 * u8_to_Z (G c) + u8_to_Z (B c)) / 256)
      with (256 * u8_to_Z (R c) + u8_to_Z (G c))
      by (apply Z.div_unique with (u8_to_Z (B c)); lia).
    assert (HG : u8_of_Z (256 * u8_to_Z (R c) + u8_to_Z (G c)) = G c).
    { unfold u8_of_Z at 1.
      replace ((256 * u8_to_Z (R c) + u8_to_Z (G c)) `mod` 256) with (u8_to_Z (G c) `mod` 256)
        by (rewrite Z.add_comm, Z.mul_comm, Z.mod_add by lia; reflexivity).
      apply u8_of_to_Z. }
    assert (HB : u8_of_Z (65536 * u8_to_Z (R c) + 256 * u8_to_Z (G c) + u8_to_Z (B c)) = B c).
    { unfold u8_of_Z at 1.
      replace ((65536 * u8_to_Z (R c) + 256 * u8_to_Z (G c) + u8_to_Z (B c)) `mod` 256)
        with (u8_to_Z (B c) `mod` 256).
      - apply u8_of_to_Z.
      - replace (65536 * u8_to_Z (R c) + 256 * u8_to_Z (G c) + u8_to_Z (B c))
          with (u8_to_Z (B c) + (256 * u8_to_Z (R c) + u8_to_Z (G c)) * 256) by lia.
        rewrite Z.mod_add by lia. reflexivity. }
    rewrite HG, HB, u8_of_to_Z. destruct c; reflexivity. }
  split; [|split].
  - rewrite Uint32_value.
    pose proof (u8_to_Z_range (R c)). pose proof (u8_to_Z_range (G c)).
    pose proof (u8_to_Z_range (B c)). change (2 ^ 24) with 16777216. lia.
  - apply Hdec.
  - intros c' Heq. rewrite <- (Hdec c'), <- (Hdec c), Heq. reflexivity.
Qed.

(** ** The hex form of a colour *)

Lemma hex2_digits (b : uint8) :
  hex2 b = String (hex_digit (Z.to_N ((u8_to_Z b / 16) `mod` 16)))
             (String (hex_digit (Z.to_N (u8_to_Z b `mod` 16))) EmptyString).
Proof.
  unfold hex2, u8_to_Z. pose proof (Byte.to_N_bounded b) as Hb.
  set (n := Byte.to_N b) in *.
  assert (H1 : Z.to_N ((Z.of_N n / 16) `mod` 16) = (n / 16)%N).
  { assert (Hq : 0 <= Z.of_N n / 16 < 16).
    { split; [apply Z.div_pos; lia|]. apply Z.div_lt_upper_bound; lia. }
    rewrite Z.mod_small by exact Hq.
    change 16 with (Z.of_N 16). rewrite <- N2Z.inj_div. apply N2Z.id. }
  assert (H2 : Z.to_N (Z.of_N n `mod` 16) = (n mod 16)%N).
  { change 16 with (Z.of_N 16). rewrite <- N2Z.inj_mod. apply N2Z.id. }
  rewrite H1, H2. reflexivity.
Qed.

(** [Hex] is ["#"] followed by the six hexadecimal digits of [Uint32],
    most significant first, in upper case; the string is seven characters
    long and determines the colour. *)
Theorem Hex_digits c :
  Hex c = String "#" (string_of_list_ascii
            ((fun k => hex_digit (Z.to_N ((Uint32 c / 16 ^ k) `mod` 16))) <$> [5; 4; 3; 2; 1; 0]))
  /\ String.length (Hex c) = 7%nat
  /\ (forall k, 0 <= k ->
        hex_digit (Z.to_N ((Uint32 c / 16 ^ k) `mod` 16))
          ∈ list_ascii_of_string "0123456789ABCDEF")
  /\ forall c', Hex c' = Hex c -> c' = c.
Proof.
  split; [|split; [|split]].
  - unfold Hex. rewrite !hex2_digits, Uint32_value.
    pose proof (u8_to_Z_range (R c)) as Hr. pose proof (u8_to_Z_range (G c)) as Hg.
    pose proof (u8_to_Z_range (B c)) as Hb.
    set (u := 65536 * u8_to_Z (R c) + 256 * u8_to_Z (G c) + u8_to_Z (B c)).
    assert (H5 : (u / 16 ^ 5) `mod` 16 = (u8_to_Z (R c) / 16) `mod` 16)
      by (change (16 ^ 5) with 1048576; unfold u; Z.to_euclidean_division_equations; lia).
    assert (H4 : (u / 16 ^ 4) `mod` 16 = u8_to_Z (R c) `mod` 16)
      by (change (16 ^ 4) with 65536; unfold u; Z.to_euclidean_division_equations; lia).
    assert (H3 : (u / 16 ^ 3) `mod` 16 = (u8_to_Z (G c) / 16) `mod` 16)
      by (change (16 ^ 3) with 4096; unfold u; Z.to_euclidean_division_equations; lia).
    assert (H2 : (u / 16 ^ 2) `mod` 16 = u8_to_Z (G c) `mod` 16)
      by (change (16 ^ 2) with 256; unfold u; Z.to_euclidean_division_equations; lia).
    assert (H1 : (u / 16 ^ 1) `mod` 16 = (u8_to_Z (B c) / 16) `mod` 16)
      by (change (16 ^ 1) with 16; unfold u; Z.to_euclidean_division_equations; lia).
    assert (H0 : (u / 16 ^ 0) `mod` 16 = u8_to_Z (B c) `mod` 16)
      by (change (16 ^ 0) with 1; unfold u; Z.to_euclidean_division_equations; lia).
    cbn [fmap list_fmap]. rewrite H5, H4, H3, H2, H1, H0. reflexivity.
  - reflexivity.
  - intros k Hk.
    assert (Hd : 0 <= (Uint32 c / 16 ^ k) `mod` 16 < 16) by (apply Z.mod_pos_bound; lia).
    set (d := (Uint32 c / 16 ^ k) `mod` 16) in *.
    assert (Hcases : d = 0 \/ d = 1 \/ d = 2 \/ d = 3 \/ d = 4 \/ d = 5 \/ d = 6 \/ d = 7
                     \/ d = 8 \/ d = 9 \/ d = 10 \/ d = 11 \/ d = 12 \/ d = 13 \/ d = 14
                     \/ d = 15) by lia.
    repeat (destruct Hcases as [->|Hcases]; [vm_compute; repeat constructor|]).
    rewrite Hcases. vm_compute. repeat constructor.
  - intros c'. apply Hex_inj.
Qed.

(** ** Reading a pixel *)

Lemma widen_narrow (v : uint8) :
  u8_of_Z (Z.lor (u8_to_Z v) (u32_wrap (Z.shiftl (u8_to_Z v) 8)) / 257) = v.
Proof. destruct v; vm_compute; reflexivity. Qed.

(** [rgbaToPixel] divides each 16-bit channel by 257 and ignores alpha: on
    channels within 16 bits nothing wraps, and a colour that went through
    [RGB.RGBA] and [color.RGBA.RGBA] is read back unchanged. *)
Theorem rgbaToPixel_round_trip :
  (forall c : RGB, rgbaToPixel (RGBA_RGBA (RGB_RGBA c)) = c)
  /\ (forall r g b a,
        0 <= r <= 65535 -> 0 <= g <= 65535 -> 0 <= b <= 65535 ->
        u8_to_Z (R (rgbaToPixel (r, g, b, a))) = r / 257
        /\ u8_to_Z (G (rgbaToPixel (r, g, b, a))) = g / 257
        /\ u8_to_Z (B (rgbaToPixel (r, g, b, a))) = b / 257).
Proof.
  split.
  - intros [r g b]. unfold rgbaToPixel, RGBA_RGBA, RGB_RGBA.
    cbn [rgba_R rgba_G rgba_B rgba_A R G B]. rewrite !widen_narrow. reflexivity.
  - intros r g b a Hr Hg Hb. unfold rgbaToPixel. cbn [R G B].
    rewrite !u8_to_of_Z; [auto| | |];
      (split; [apply Z.div_pos; lia|apply Z.div_le_upper_bound; lia]).
Qed.

Lemma rgbaToPixel_round_trip_witness :
  u8_to_Z (R (rgbaToPixel (65535, 32896, 256, 65535))) = 65535 / 257
  /\ u8_to_Z (G (rgbaToPixel (65535, 32896, 256, 65535))) = 32896 / 257
  /\ u8_to_Z (B (rgbaToPixel (65535, 32896, 256, 65535))) = 256 / 257.
Proof.
  apply (proj2 rgbaToPixel_round_trip 65535 32896 256 65535); lia.
Defined.

(** ** More on the average *)

Lemma channel_sums_bounds sel (ps : list RGB) lo hi :
  0 <= lo ->
  (forall p, p ∈ ps -> lo <= u8_to_Z (sel p) <= hi) ->
  lo * Z.of_nat (length ps) <= channel_sum sel ps <= hi * Z.of_nat (length ps)
  /\ lo * lo * Z.of_nat (length ps) <= channel_sum_sq sel ps <= hi * hi * Z.of_nat (length ps).
Proof.
  intros Hlo. induction ps as [|p ps IH]; intros Hall;
    cbn [channel_sum channel_sum_sq foldr length].
  - lia.
  - fold (channel_sum sel ps). fold (channel_sum_sq sel ps).
    destruct IH as [IH1 IH2]; [intros q Hq; apply Hall; right; exact Hq|].
    pose proof (Hall p ltac:(left)) as Hp. nia.
Qed.

Lemma mean_channel_bounds sq sel (ps : list RGB) lo hi :
  ps <> [] -> 0 <= lo ->
  (forall p, p ∈ ps -> lo <= u8_to_Z (sel p) <= hi) ->
  lo <= mean_channel sq sel ps <= hi.
Proof.
  intros Hne Hlo Hall.
  assert (Hn : 0 < Z.of_nat (length ps)) by (destruct ps; [contradiction|cbn [length]; lia]).
  assert (Hhi : lo <= hi).
  { destruct ps as [|p ps]; [contradiction|]. pose proof (Hall p ltac:(left)). lia. }
  destruct (channel_sums_bounds sel ps lo hi Hlo Hall) as [[H1 H2] [H3 H4]].
  unfold mean_channel. destruct sq.
  - set (q := channel_sum_sq sel ps / Z.of_nat (length ps)).
    assert (Hq : lo * lo <= q <= hi * hi).
    { unfold q. split; [apply Z.div_le_lower_bound; lia|apply Z.div_le_upper_bound; lia]. }
    split.
    + rewrite <- (Z.sqrt_square lo) by exact Hlo. apply Z.sqrt_le_mono. lia.
    + rewrite <- (Z.sqrt_square hi) by lia. apply Z.sqrt_le_mono. lia.
  - split; [apply Z.div_le_lower_bound; lia|apply Z.div_le_upper_bound; lia].
Qed.

Lemma mean_channel_byte sq sel (ps : list RGB) :
  ps <> [] -> 0 <= mean_channel sq sel ps <= 255.
Proof.
  intros Hne. apply mean_channel_bounds; [exact Hne|lia|].
  intros p _. apply u8_to_Z_range.
Qed.

Lemma getAverage_value rt g h (pixels : slice) :
  contents h pixels <> [] ->
  Z.of_nat (length (contents h pixels)) <= 2 ^ 36 ->
  getAverage rt g pixels h =
  Done (mkRGB (u8_of_Z (mean_channel (avgSqr g) R (contents h pixels)))
              (u8_of_Z (mean_channel (avgSqr g) G (contents h pixels)))
              (u8_of_Z (mean_channel (avgSqr g) B (contents h pixels))), h).
Proof.
  intros Hne Hn.
  assert (Hn' : Z.of_nat (length (contents h pixels)) <= 2 ^ 45).
  { change (2 ^ 36) with 68719476736 in Hn. change (2 ^ 45) with 35184372088832. lia. }
  unfold getAverage, load, len, mbind, M_bind, mret, M_ret, mean_channel.
  destruct (avgSqr g).
  - rewrite !quadratic_channel by assumption. reflexivity.
  - rewrite !linear_channel by assumption. reflexivity.
Qed.

Lemma channel_sums_perm sel (ps qs : list RGB) :
  ps ≡ₚ qs ->
  channel_sum sel ps = channel_sum sel qs /\ channel_sum_sq sel ps = channel_sum_sq sel qs.
Proof.
  unfold channel_sum, channel_sum_sq.
  induction 1 as [|p ps qs _ [IH1 IH2]|p q ps|ps qs rs _ [IH1 IH2] _ [IH3 IH4]];
    cbn [foldr] in *; split; lia.
Qed.

(** In either mode the average of a non-empty grid (of at most [2^36]
    pixels) depends on the pixels only, not on their order: two grids that
    are rearrangements of one another have the same average. *)
Theorem getAverage_order_independent rt g h (pixels pixels' : slice) :
  contents h pixels <> [] ->
  Z.of_nat (length (contents h pixels)) <= 2 ^ 36 ->
  contents h pixels ≡ₚ contents h pixels' ->
  getAverage rt g pixels' h = getAverage rt g pixels h.
Proof.
  intros Hne Hn Hperm.
  assert (Hne' : contents h pixels' <> []).
  { intros Hnil. rewrite Hnil in Hperm. apply Permutation_nil_r in Hperm. contradiction. }
  assert (Hlen := Permutation_length Hperm).
  rewrite !getAverage_value by (try assumption; rewrite <- Hlen; assumption).
  unfold mean_channel. rewrite <- Hlen.
  destruct (channel_sums_perm R _ _ Hperm) as [-> ->].
  destruct (channel_sums_perm G _ _ Hperm) as [-> ->].
  destruct (channel_sums_perm B _ _ Hperm) as [-> ->].
  reflexivity.
Qed.

Lemma getAverage_order_independent_witness :
  getAverage ref_runtime {| width := 4; lineHeight := 1; avgSqr := true; genMode := 0 |}
             1%nat [[rgb 1 2 3; rgb 200 100 50; rgb 7 7 7]; [rgb 7 7 7; rgb 1 2 3; rgb 200 100 50]]
  = getAverage ref_runtime {| width := 4; lineHeight := 1; avgSqr := true; genMode := 0 |}
               0%nat [[rgb 1 2 3; rgb 200 100 50; rgb 7 7 7]; [rgb 7 7 7; rgb 1 2 3; rgb 200 100 50]].
Proof.
  apply (getAverage_order_independent ref_runtime
           {| width := 4; lineHeight := 1; avgSqr := true; genMode := 0 |}
           [[rgb 1 2 3; rgb 200 100 50; rgb 7 7 7]; [rgb 7 7 7; rgb 1 2 3; rgb 200 100 50]]
           0%nat 1%nat).
  - discriminate.
  - cbn. change (2 ^ 36) with 68719476736. lia.
  - cbn. apply (perm_trans (l' := [rgb 1 2 3; rgb 7 7 7; rgb 200 100 50]));
      [apply perm_skip, perm_swap|apply perm_swap].
Defined.

(** In either mode each channel of the average of a non-empty grid (of at
    most [2^36] pixels) lies between the smallest and the largest value that
    channel takes in the grid. *)
Theorem getAverage_within_range rt g h (pixels : slice) :
  contents h pixels <> [] ->
  Z.of_nat (length (contents h pixels)) <= 2 ^ 36 ->
  exists c,
    getAverage rt g pixels h = Done (c, h)
    /\ (forall lo hi,
          (forall p, p ∈ contents h pixels -> lo <= u8_to_Z (R p) <= hi) ->
          lo <= u8_to_Z (R c) <= hi)
    /\ (forall lo hi,
          (forall p, p ∈ contents h pixels -> lo <= u8_to_Z (G p) <= hi) ->
          lo <= u8_to_Z (G c) <= hi)
    /\ (forall lo hi,
          (forall p, p ∈ contents h pixels -> lo <= u8_to_Z (B p) <= hi) ->
          lo <= u8_to_Z (B c) <= hi).
Proof.
  intros Hne Hn. eexists. split; [apply getAverage_value; assumption|].
  cbn [R G B].
  assert (Hch : forall (sel : RGB -> uint8) lo hi,
            (forall p, p ∈ contents h pixels -> lo <= u8_to_Z (sel p) <= hi) ->
            lo <= u8_to_Z (u8_of_Z (mean_channel (avgSqr g) sel (contents h pixels))) <= hi).
  { intros sel lo hi Hsel.
    rewrite u8_to_of_Z by (apply mean_channel_byte; exact Hne).
    assert (Hsel' : forall p, p ∈ contents h pixels -> Z.max 0 lo <= u8_to_Z (sel p) <= hi).
    { intros p Hp. pose proof (Hsel p Hp). pose proof (u8_to_Z_range (sel p)). lia. }
    pose proof (mean_channel_bounds (avgSqr g) sel (contents h pixels) (Z.max 0 lo) hi
                  Hne ltac:(lia) Hsel'). lia. }
  split; [|split]; intros lo hi; apply Hch.
Qed.

Lemma getAverage_within_range_witness :
  exists c,
    getAverage ref_runtime {| width := 4; lineHeight := 1; avgSqr := true; genMode := 0 |}
               0%nat [[rgb 10 20 30; rgb 40 12 25]] = Done (c, [[rgb 10 20 30; rgb 40 12 25]])
    /\ 10 <= u8_to_Z (R c) <= 40.
Proof.
  destruct (getAverage_within_range ref_runtime
              {| width := 4; lineHeight := 1; avgSqr := true; genMode := 0 |}
              [[rgb 10 20 30; rgb 40 12 25]] 0%nat) as (c & Hrun & HR & _).
  - discriminate.
  - cbn. change (2 ^ 36) with 68719476736. lia.
  - exists c. split; [exact Hrun|]. apply HR.
    intros p Hp. cbn in Hp.
    repeat (apply elem_of_cons in Hp as [->|Hp]; [vm_compute; intuition discriminate|]).
    apply elem_of_nil in Hp. contradiction.
Defined.

Lemma channel_sum_cross sel (ps : list RGB) x :
  2 * x * channel_sum sel ps <= channel_sum_sq sel ps + Z.of_nat (length ps) * (x * x).
Proof.
  induction ps as [|p ps IH]; cbn [channel_sum channel_sum_sq foldr length]; [lia|].
  fold (channel_sum sel ps). fold (channel_sum_sq sel ps).
  rewrite Nat2Z.inj_succ.
  pose proof (Z.square_nonneg (u8_to_Z (sel p) - x)) as Hsq.
  set (v := u8_to_Z (sel p)) in *. set (s := channel_sum sel ps) in *.
  set (q := channel_sum_sq sel ps) in *. set (n := Z.of_nat (length ps)) in *.
  replace ((v - x) * (v - x)) with (v * v - 2 * x * v + x * x) in Hsq by ring.
  replace (2 * x * (v + s)) with (2 * x * v + 2 * x * s) by ring.
  replace (Z.succ n * (x * x)) with (n * (x * x) + x * x) by ring.
  lia.
Qed.

Lemma channel_sum_square sel (ps : list RGB) :
  channel_sum sel ps * channel_sum sel ps <= Z.of_nat (length ps) * channel_sum_sq sel ps.
Proof.
  induction ps as [|p ps IH]; cbn [channel_sum channel_sum_sq foldr length]; [lia|].
  fold (channel_sum sel ps). fold (channel_sum_sq sel ps).
  rewrite Nat2Z.inj_succ.
  pose proof (channel_sum_cross sel ps (u8_to_Z (sel p))) as Hx.
  set (v := u8_to_Z (sel p)) in *. set (s := channel_sum sel ps) in *.
  set (q := channel_sum_sq sel ps) in *. set (n := Z.of_nat (length ps)) in *.
  replace ((v + s) * (v + s)) with (s * s + 2 * v * s + v * v) by ring.
  replace (Z.succ n * (v * v + q)) with (n * q + q + n * (v * v) + v * v) by ring.
  lia.
Qed.

Lemma mean_le_rms sel (ps : list RGB) :
  ps <> [] -> mean_channel false sel ps <= mean_channel true sel ps.
Proof.
  intros Hne. unfold mean_channel.
  assert (Hn : 0 < Z.of_nat (length ps)) by (destruct ps; [contradiction|cbn [length]; lia]).
  set (n := Z.of_nat (length ps)) in *.
  pose proof (channel_sum_square sel ps) as Hcs. fold n in Hcs.
  pose proof (channel_sum_range sel ps) as [Hs0 _].
  pose proof (channel_sum_sq_range sel ps) as [Hq0 _].
  set (s := channel_sum sel ps) in *. set (q := channel_sum_sq sel ps) in *.
  set (a := s / n).
  assert (Ha0 : 0 <= a) by (apply Z.div_pos; lia).
  assert (Han : a * n <= s) by (unfold a; rewrite Z.mul_comm; apply Z.mul_div_le; lia).
  assert (Haq : a * a <= q / n).
  { apply Z.div_le_lower_bound; [lia|].
    assert ((a * n) * (a * n) <= s * s) by nia.
    assert (n * (n * (a * a)) <= n * q) by nia.
    apply Z.mul_le_mono_pos_l with n; lia. }
  rewrite <- (Z.sqrt_square a) by exact Ha0. apply Z.sqrt_le_mono. exact Haq.
Qed.

(** On a non-empty grid (of at most [2^36] pixels) no channel of the
    quadratic average is below that channel of the linear average. *)
Theorem getAverage_quadratic_not_darker rt g g' h (pixels : slice) :
  avgSqr g = false -> avgSqr g' = true ->
  contents h pixels <> [] ->
  Z.of_nat (length (contents h pixels)) <= 2 ^ 36 ->
  exists c c',
    getAverage rt g pixels h = Done (c, h)
    /\ getAverage rt g' pixels h = Done (c', h)
    /\ u8_to_Z (R c) <= u8_to_Z (R c')
    /\ u8_to_Z (G c) <= u8_to_Z (G c')
    /\ u8_to_Z (B c) <= u8_to_Z (B c').
Proof.
  intros Hlin Hsq Hne Hn. eexists. eexists.
  split; [apply getAverage_value; assumption|].
  split; [apply getAverage_value; assumption|].
  rewrite Hlin, Hsq. cbn [R G B].
  rewrite !u8_to_of_Z by (apply mean_channel_byte; exact Hne).
  split; [|split]; apply mean_le_rms; exact Hne.
Qed.

Lemma getAverage_quadratic_not_darker_witness :
  exists c c',
    getAverage ref_runtime {| width := 4; lineHeight := 1; avgSqr := false; genMode := 0 |}
               0%nat [[white; black; rgb 9 40 200]] = Done (c, [[white; black; rgb 9 40 200]])
    /\ getAverage ref_runtime {| width := 4; lineHeight := 1; avgSqr := true; genMode := 0 |}
                  0%nat [[white; black; rgb 9 40 200]] = Done (c', [[white; black; rgb 9 40 200]])
    /\ u8_to_Z (R c) <= u8_to_Z (R c')
    /\ u8_to_Z (G c) <= u8_to_Z (G c')
    /\ u8_to_Z (B c) <= u8_to_Z (B c').
Proof.
  apply (getAverage_quadratic_not_darker ref_runtime
           {| width := 4; lineHeight := 1; avgSqr := false; genMode := 0 |}
           {| width := 4; lineHeight := 1; avgSqr := true; genMode := 0 |}
           [[white; black; rgb 9 40 200]] 0%nat).
  - reflexivity.
  - reflexivity.
  - discriminate.
  - cbn. change (2 ^ 36) with 68719476736. lia.
Defined.

(** ** The columns of the mode image *)

Section Painter.

Variables (P : image_RGBA -> Z -> image_RGBA) (hit : Z -> RGBA -> Prop) (miss : Z -> Prop).
Variable f : Z -> Z.

Hypothesis P_Rect : forall img y, Rect (P img y) = Rect img.
Hypothesis P_other : forall img y x y',
  y' <> y -> img_At (P img y) x y' = img_At img x y'.
Hypothesis P_hit : forall img y x c,
  hit x c -> in_rect (Rect img) x y = true -> img_At (P img y) x y = c.
Hypothesis P_miss : forall img y x y',
  miss x -> img_At (P img y) x y' = img_At img x y'.

Lemma paint_rows_Rect (rows : list Z) : forall img,
  Rect (foldl (fun img i => P img (f i)) img rows) = Rect img.
Proof.
  induction rows as [|i rows IH]; intros img; cbn [foldl]; [reflexivity|].
  rewrite IH. apply P_Rect.
Qed.

Lemma paint_rows_other (rows : list Z) x y : forall img,
  (forall i, i ∈ rows -> f i <> y) ->
  img_At (foldl (fun img i => P img (f i)) img rows) x y = img_At img x y.
Proof.
  induction rows as [|i rows IH]; intros img Hy; cbn [foldl]; [reflexivity|].
  rewrite IH by (intros j Hj; apply Hy; right; exact Hj).
  apply P_other. intros Heq. apply (Hy i); [left|congruence].
Qed.

Lemma paint_rows_miss (rows : list Z) x y : forall img,
  miss x ->
  img_At (foldl (fun img i => P img (f i)) img rows) x y = img_At img x y.
Proof.
  induction rows as [|i rows IH]; intros img Hx; cbn [foldl]; [reflexivity|].
  rewrite IH by exact Hx. apply P_miss. exact Hx.
Qed.

Lemma paint_rows_hit (rows : list Z) x y c : forall img,
  (exists i, i ∈ rows /\ f i = y) -> hit x c -> in_rect (Rect img) x y = true ->
  img_At (foldl (fun img i => P img (f i)) img rows) x y = c.
Proof.
  induction rows as [|i rows IH]; intros img (j & Hj & Hf) Hx Hr; cbn [foldl].
  - apply elem_of_nil in Hj. contradiction.
  - destruct (decide (Exists (fun i' => f i' = y) rows)) as [Hex|Hnex];
      rewrite Exists_exists in *.
    + apply IH; [exact Hex|exact Hx|]. rewrite P_Rect. exact Hr.
    + apply elem_of_cons in Hj as [->|Hj]; [|exfalso; apply Hnex; eauto].
      rewrite paint_rows_other by (intros i' Hi' Heq; apply Hnex; eauto).
      rewrite <- Hf. apply P_hit; [exact Hx|]. rewrite Hf. exact Hr.
Qed.

End Painter.

(** The column loop of [genLineColImage] on one row of the image, started at
    column index [j0]. *)
Lemma col_loop_spec cw yy (row : list RGB) : forall j0 img,
  0 <= cw -> 0 <= j0 -> (j0 + Z.of_nat (length row)) * cw <= max_int ->
  let r := foldl (fun '(img, j) col =>
                    let c := RGB_RGBA col in
                    let from := int_wrap (j * cw) in
                    let to := int_wrap (int_wrap (j * cw) + cw) in
                    (fill_span img from to yy c, j + 1))
                 (img, j0) row in
  Rect r.1 = Rect img
  /\ (forall x y', y' <> yy \/ x < j0 * cw \/ (j0 + Z.of_nat (length row)) * cw <= x ->
        img_At r.1 x y' = img_At img x y')
  /\ (forall (j : nat) col x,
        row !! j = Some col ->
        (j0 + Z.of_nat j) * cw <= x < (j0 + Z.of_nat j) * cw + cw ->
        in_rect (Rect img) x yy = true ->
        img_At r.1 x yy = RGB_RGBA col).
Proof.
  induction row as [|col row IH]; intros j0 img Hcw Hj0 Hmax; cbn [foldl].
  - cbn zeta. cbn [fst]. split; [reflexivity|]. split; [reflexivity|].
    intros j c x Hj. rewrite lookup_nil in Hj. discriminate.
  - cbn [length] in Hmax. rewrite Nat2Z.inj_succ in Hmax.
    assert (Hw1 : int_wrap (j0 * cw) = j0 * cw).
    { apply int_wrap_small. unfold max_int in *. nia. }
    assert (Hw2 : int_wrap (j0 * cw + cw) = j0 * cw + cw).
    { apply int_wrap_small. unfold max_int in *. nia. }
    rewrite Hw1, Hw2.
    set (img1 := fill_span img (j0 * cw) (j0 * cw + cw) yy (RGB_RGBA col)).
    destruct (IH (j0 + 1) img1 Hcw ltac:(lia) ltac:(lia)) as (HR & Hmiss & Hhit).
    assert (HR1 : Rect img1 = Rect img) by apply fill_span_Rect.
    cbn zeta in *. split; [congruence|]. split.
    + intros x y' Hc. rewrite Hmiss.
      * apply fill_span_At_miss. cbn [length] in Hc. rewrite Nat2Z.inj_succ in Hc.
        destruct Hc as [Hc|[Hc|Hc]]; [right; exact Hc|left; lia|left; nia].
      * cbn [length] in Hc. rewrite Nat2Z.inj_succ in Hc.
        destruct Hc as [Hc|[Hc|Hc]]; [left; exact Hc|right; left; nia|right; right; lia].
    + intros j c x Hj Hx Hin. destruct j as [|j]; cbn in Hj.
      * injection Hj as <-. rewrite Hmiss by (right; left; cbn in Hx; lia).
        apply fill_span_At_hit; [cbn in Hx; lia|exact Hin].
      * apply (Hhit j c x Hj); [lia|]. rewrite HR1. exact Hin.
Qed.

(** The row loop of [genLineColImage] over palettes none of which is empty,
    started at frame index [k]. *)
Lemma col_frames_spec g (frames : list (list RGB)) : forall k img,
  0 <= k -> 0 < width g <= max_int -> 0 <= lineHeight g ->
  (k + Z.of_nat (length frames)) * lineHeight g <= max_int ->
  [] ∉ frames ->
  exists img',
    range_fold (fun img y row =>
      if decide (length row = 0%nat) then Panic DivideByZero
      else
        let colWidth := Z.quot (width g) (Z.of_nat (length row)) in
        Done (foldl (fun img i =>
                fst (foldl (fun '(img, j) col =>
                       let c := RGB_RGBA col in
                       let from := int_wrap (j * colWidth) in
                       let to := int_wrap (int_wrap (j * colWidth) + colWidth) in
                       (fill_span img from to (int_wrap (int_wrap (y * lineHeight g) + i)) c,
                        j + 1))
                     (img, 0) row))
              img (seqZ 0 (lineHeight g))))
      k frames img = Done img'
    /\ Rect img' = Rect img
    /\ (forall x y, y < k * lineHeight g -> img_At img' x y = img_At img x y)
    /\ (forall (i : nat) row x y,
          frames !! i = Some row ->
          (k + Z.of_nat i) * lineHeight g <= y < (k + Z.of_nat i) * lineHeight g + lineHeight g ->
          (forall (j : nat) col,
             row !! j = Some col ->
             Z.of_nat j * (width g / Z.of_nat (length row)) <= x
               < Z.of_nat j * (width g / Z.of_nat (length row)) + width g / Z.of_nat (length row) ->
             in_rect (Rect img) x y = true ->
             img_At img' x y = RGB_RGBA col)
          /\ (x < 0 \/ Z.of_nat (length row) * (width g / Z.of_nat (length row)) <= x ->
              img_At img' x y = img_At img x y)).
Proof.
  induction frames as [|row0 fs IH]; intros k img Hk HW HL Hmax Hne.
  - exists img. cbn [range_fold]. split; [reflexivity|]. split; [reflexivity|].
    split; [reflexivity|]. intros i row x y Hi. rewrite lookup_nil in Hi. discriminate.
  - cbn [range_fold]. cbn [length] in Hmax. rewrite Nat2Z.inj_succ in Hmax.
    destruct (decide (length row0 = 0%nat)) as [Hlen|Hlen].
    { exfalso. apply Hne. destruct row0; [left|discriminate]. }
    cbn [mbind outcome_bind].
    set (n := Z.of_nat (length row0)).
    assert (Hn : 0 < n) by (unfold n; lia).
    rewrite Z.quot_div_nonneg by lia. fold n.
    set (cw := width g / n).
    assert (Hcw : 0 <= cw) by (apply Z.div_pos; lia).
    assert (Hncw : n * cw <= width g) by (apply Z.mul_div_le; lia).
    set (P := fun (img : image_RGBA) (yy : Z) =>
                (foldl (fun '(img, j) col =>
                          let c := RGB_RGBA col in
                          let from := int_wrap (j * cw) in
                          let to := int_wrap (int_wrap (j * cw) + cw) in
                          (fill_span img from to yy c, j + 1))
                       (img, 0) row0).1).
    set (f := fun i => int_wrap (int_wrap (k * lineHeight g) + i)).
    set (img1 := foldl _ img (seqZ 0 (lineHeight g))).
    assert (Himg1 : img1 = foldl (fun img i => P img (f i)) img (seqZ 0 (lineHeight g)))
      by reflexivity.
    assert (Hspec : forall img yy,
              Rect (P img yy) = Rect img
              /\ (forall x y', y' <> yy \/ x < 0 * cw \/ (0 + n) * cw <= x ->
                    img_At (P img yy) x y' = img_At img x y')
              /\ (forall (j : nat) col x,
                    row0 !! j = Some col ->
                    (0 + Z.of_nat j) * cw <= x < (0 + Z.of_nat j) * cw + cw ->
                    in_rect (Rect img) x yy = true ->
                    img_At (P img yy) x yy = RGB_RGBA col)).
    { intros img0 yy. apply (col_loop_spec cw yy row0 0 img0); [exact Hcw|lia|].
      fold n. lia. }
    set (hit := fun (x : Z) (c : RGBA) =>
                  exists (j : nat) col, row0 !! j = Some col /\ c = RGB_RGBA col
                    /\ Z.of_nat j * cw <= x < Z.of_nat j * cw + cw).
    set (miss := fun x : Z => x < 0 \/ n * cw <= x).
    assert (P_Rect : forall img y, Rect (P img y) = Rect img)
      by (intros img0 yy; apply (Hspec img0 yy)).
    assert (P_other : forall img y x y',
              y' <> y -> img_At (P img y) x y' = img_At img x y').
    { intros img0 yy x y' Hy. apply (Hspec img0 yy). left. exact Hy. }
    assert (P_hit : forall img y x c,
              hit x c -> in_rect (Rect img) x y = true -> img_At (P img y) x y = c).
    { intros img0 yy x c (j & col & Hj & -> & Hx) Hin.
      apply (proj2 (proj2 (Hspec img0 yy)) j col x Hj); [lia|exact Hin]. }
    assert (P_miss : forall img y x y',
              miss x -> img_At (P img y) x y' = img_At img x y').
    { intros img0 yy x y' Hx. apply (Hspec img0 yy). right.
      destruct Hx as [Hx|Hx]; [left|right]; lia. }
    assert (Hrow : forall i, 0 <= i < lineHeight g -> f i = k * lineHeight g + i).
    { intros i Hi. unfold f, max_int in *.
      assert (0 <= k * lineHeight g) by nia.
      rewrite (int_wrap_small (k * lineHeight g)) by (unfold max_int; lia).
      apply int_wrap_small. unfold max_int. lia. }
    assert (HR1 : Rect img1 = Rect img) by (rewrite Himg1; apply paint_rows_Rect, P_Rect).
    destruct (IH (k + 1) img1 ltac:(lia) HW HL ltac:(lia)) as (img' & Hrun & HR & Hbefore & Hband).
    { intros Hin. apply Hne. right. exact Hin. }
    exists img'. split; [exact Hrun|]. split; [congruence|]. split.
    + intros x y Hy. rewrite Hbefore by lia. rewrite Himg1.
      apply (paint_rows_other P f P_other).
      intros i Hi. apply elem_of_seqZ in Hi. rewrite Hrow by lia. lia.
    + intros i row x y Hi Hy. destruct i as [|i]; cbn in Hi.
      * injection Hi as <-. fold n. fold cw.
        rewrite Nat2Z.inj_0, Z.add_0_r in Hy. split.
        -- intros j col Hj Hx Hin. rewrite Hbefore by lia. rewrite Himg1.
           apply (paint_rows_hit P hit f P_Rect P_other P_hit); [|exists j, col; auto|exact Hin].
           exists (y - k * lineHeight g). split; [apply elem_of_seqZ; lia|].
           rewrite Hrow by lia. lia.
        -- intros Hx. rewrite Hbefore by lia. rewrite Himg1.
           apply (paint_rows_miss P miss f P_miss). exact Hx.
      * rewrite Nat2Z.inj_succ in Hy.
        destruct (Hband i row x y Hi ltac:(lia)) as [Hh Hm]. split.
        -- intros j col Hj Hx Hin. apply (Hh j col Hj Hx). rewrite HR1. exact Hin.
        -- intros Hx. rewrite (Hm Hx), Himg1.
           apply (paint_rows_other P f P_other).
           intros i' Hi'. apply elem_of_seqZ in Hi'. rewrite Hrow by lia. nia.
Qed.

(** When no palette is empty and [image.NewRGBA] allocates the raster
    ([4 * W] is an [int] and the buffer, of [4 * W * K * L] bytes, is within
    the allocation limit), [genLineColImage] returns an image of the width
    [W] and of height [K * L] in which band [i] is cut into as many
    columns as the palette [i] has colours, each [W / len] pixels wide and
    filled with its colour, opaque, from the left; the [W mod len] pixels
    that remain at the right of the band are left as the fresh image has
    them, transparent. *)
Theorem genLineColImage_columns g (frames : list (list RGB)) :
  0 < width g -> 4 * width g <= max_int -> 0 < lineHeight g ->
  4 * width g * (Z.of_nat (length frames) * lineHeight g) <= maxAlloc ->
  [] ∉ frames ->
  exists img,
    genLineColImage g frames = Done img
    /\ Rect img = {| MinX := 0; MinY := 0; MaxX := width g;
                     MaxY := Z.of_nat (length frames) * lineHeight g |}
    /\ forall (i : nat) row x y,
         frames !! i = Some row ->
         Z.of_nat i * lineHeight g <= y < Z.of_nat i * lineHeight g + lineHeight g ->
         (forall (j : nat) col,
            row !! j = Some col ->
            Z.of_nat j * (width g / Z.of_nat (length row)) <= x
              < Z.of_nat j * (width g / Z.of_nat (length row)) + width g / Z.of_nat (length row) ->
            img_At img x y = RGB_RGBA col)
         /\ (Z.of_nat (length row) * (width g / Z.of_nat (length row)) <= x ->
             img_At img x y = transparent).
Proof.
  intros HW0 HW4 HL Hmax Hne. unfold genLineColImage.
  assert (HW : 0 < width g <= max_int) by lia.
  set (K := Z.of_nat (length frames)) in *.
  assert (HK : 0 <= K) by (unfold K; lia).
  assert (HKL : 0 <= K * lineHeight g <= max_int) by (unfold max_int, maxAlloc in *; nia).
  rewrite (int_wrap_small (K * lineHeight g)) by (unfold max_int in *; lia).
  rewrite NewRGBA_ok by lia. cbn [mbind outcome_bind].
  set (img0 := {| Rect := {| MinX := 0; MinY := 0; MaxX := width g; MaxY := K * lineHeight g |};
                  Pix := ∅ |}).
  destruct (col_frames_spec g frames 0 img0 ltac:(lia) HW ltac:(lia) ltac:(fold K; lia) Hne)
    as (img' & Hrun & HR & _ & Hband).
  exists img'. split; [exact Hrun|]. split; [exact HR|].
  intros i row x y Hi Hy.
  destruct (Hband i row x y Hi ltac:(lia)) as [Hh Hm].
  assert (Hrow : row <> []).
  { intros ->. apply Hne. eapply list_elem_of_lookup_2, Hi. }
  assert (Hn : 0 < Z.of_nat (length row)) by (destruct row; [contradiction|cbn [length]; lia]).
  pose proof (Z.mul_div_le (width g) (Z.of_nat (length row)) Hn) as Hncw.
  assert (Hcw : 0 <= width g / Z.of_nat (length row)) by (apply Z.div_pos; lia).
  apply lookup_lt_Some in Hi as Hlt.
  assert (HyK : 0 <= y < K * lineHeight g) by (unfold K; nia).
  split.
  - intros j col Hj Hx. apply (Hh j col Hj Hx).
    apply lookup_lt_Some in Hj as Hjlt.
    unfold img0, in_rect. cbn [Rect MinX MinY MaxX MaxY].
    assert (Z.of_nat j + 1 <= Z.of_nat (length row)) by lia.
    repeat (apply andb_true_intro; split); try lia;
      (apply Z.leb_le || apply Z.ltb_lt); nia.
  - intros Hx. rewrite Hm by (right; exact Hx).
    unfold img_At, img0. cbn [Rect Pix]. rewrite lookup_empty.
    destruct (in_rect _ x y); reflexivity.
Qed.

Lemma genLineColImage_columns_witness :
  exists img,
    genLineColImage {| width := 7; lineHeight := 2; avgSqr := false; genMode := 3 |}
                    [[rgb 1 2 3; rgb 4 5 6; rgb 7 8 9]; [rgb 9 9 9; rgb 0 0 0; rgb 5 5 5]]
    = Done img
    /\ img_At img 3 2 = RGB_RGBA (rgb 0 0 0)
    /\ img_At img 6 2 = transparent.
Proof.
  destruct (genLineColImage_columns
              {| width := 7; lineHeight := 2; avgSqr := false; genMode := 3 |}
              [[rgb 1 2 3; rgb 4 5 6; rgb 7 8 9]; [rgb 9 9 9; rgb 0 0 0; rgb 5 5 5]])
    as (img & Hrun & _ & Hband).
  - cbn. lia.
  - cbn. unfold max_int. lia.
  - cbn. lia.
  - cbn. unfold maxAlloc. lia.
  - intros Hin. repeat (apply elem_of_cons in Hin as [Hin|Hin]; [discriminate|]).
    apply elem_of_nil in Hin. contradiction.
  - exists img. split; [exact Hrun|].
    destruct (Hband 1%nat [rgb 9 9 9; rgb 0 0 0; rgb 5 5 5] 3 2 eq_refl
                ltac:(cbn [lineHeight]; lia))
      as [Hh _].
    destruct (Hband 1%nat [rgb 9 9 9; rgb 0 0 0; rgb 5 5 5] 6 2 eq_refl
                ltac:(cbn [lineHeight]; lia))
      as [_ Hm].
    split.
    + apply (Hh 1%nat (rgb 0 0 0) eq_refl). cbn [width length].
      change (7 / Z.of_nat 3) with 2. lia.
    + apply Hm. cbn [width length]. change (7 / Z.of_nat 3) with 2. lia.
Defined.

Lemma single_colour_rows g (frames : list RGB) : forall k img,
  - 2 ^ 63 <= width g <= max_int ->
  range_fold (fun img y row =>
    if decide (length row = 0%nat) then Panic DivideByZero
    else
      let colWidth := Z.quot (width g) (Z.of_nat (length row)) in
      Done (foldl (fun img i =>
              fst (foldl (fun '(img, j) col =>
                     let c := RGB_RGBA col in
                     let from := int_wrap (j * colWidth) in
                     let to := int_wrap (int_wrap (j * colWidth) + colWidth) in
                     (fill_span img from to (int_wrap (int_wrap (y * lineHeight g) + i)) c,
                      j + 1))
                   (img, 0) row))
            img (seqZ 0 (lineHeight g))))
    k ((fun c => [c]) <$> frames) img
  = range_fold (fun img y row =>
      let c := RGB_RGBA row in
      Done (foldl (fun img i =>
              fill_span img 0 (width g) (int_wrap (int_wrap (y * lineHeight g) + i)) c)
            img (seqZ 0 (lineHeight g))))
      k frames img.
Proof.
  induction frames as [|c fs IH]; intros k img HW; cbn [fmap list_fmap range_fold].
  - reflexivity.
  - fold (@fmap list _ RGB (list RGB) (fun c => [c]) fs).
    destruct (decide (length [c] = 0%nat)) as [Hlen|_]; [discriminate|].
    cbn [mbind outcome_bind length foldl fst].
    change (Z.of_nat 1) with 1. rewrite Z.quot_1_r.
    change (0 * width g) with 0. change (int_wrap 0) with 0.
    change (0 + width g) with (width g). rewrite (int_wrap_small (width g)) by exact HW.
    apply IH. exact HW.
Qed.

(** With palettes of one colour each the columns are whole bands: the mode
    image is the line image of those colours (also when the allocation of
    the image panics). *)
Theorem genLineColImage_single_colour g (frames : list RGB) :
  - 2 ^ 63 <= width g <= max_int ->
  genLineColImage g ((fun c => [c]) <$> frames) = genLineImage g frames.
Proof.
  intros HW. unfold genLineColImage, genLineImage. rewrite length_fmap.
  destruct (NewRGBA _) as [img|p]; [|reflexivity]. cbn [mbind outcome_bind].
  apply single_colour_rows, HW.
Qed.

Lemma genLineColImage_single_colour_witness :
  genLineColImage {| width := 5; lineHeight := 2; avgSqr := false; genMode := 1 |}
                  ((fun c => [c]) <$> [rgb 1 2 3; rgb 200 0 9])
  = genLineImage {| width := 5; lineHeight := 2; avgSqr := false; genMode := 1 |}
                 [rgb 1 2 3; rgb 200 0 9].
Proof.
  apply (genLineColImage_single_colour
           {| width := 5; lineHeight := 2; avgSqr := false; genMode := 1 |}
           [rgb 1 2 3; rgb 200 0 9]).
  cbn [width]. unfold max_int. lia.
Defined.

(** ** The exported record of a frame *)

Lemma hex_loop (ms : list RGB) : forall (pre : list string),
  foldl (fun mode im => <[fst im := Hex (snd im)]> mode)
        (pre ++ replicate (length ms) EmptyString)
        (imap (fun i m => (length pre + i, m)%nat) ms)
  = pre ++ (Hex <$> ms).
Proof.
  induction ms as [|m ms IH]; intros pre; cbn [imap foldl length replicate fmap list_fmap].
  - reflexivity.
  - cbn [fst snd]. rewrite insert_app_r. cbn [insert list_insert].
    replace (pre ++ Hex m :: replicate (length ms) EmptyString)
      with ((pre ++ [Hex m]) ++ replicate (length ms) EmptyString)
      by (rewrite <- app_assoc; reflexivity).
    replace (imap ((fun i m0 => (length pre + i, m0)%nat) ∘ S) ms)
      with (imap (fun i m0 => (length (pre ++ [Hex m]) + i, m0)%nat) ms).
    + rewrite IH, <- app_assoc. reflexivity.
    + apply imap_ext. intros i x _. cbn. rewrite length_app. cbn [length]. f_equal. lia.
Qed.

Lemma toJSONFrame_run f h :
  16 * Z.of_nat (length (elems h (Mode f))) <= maxAlloc ->
  toJSONFrame f h =
  Done (mkJsonFrame (Path f) (Hex (Average f)) (Hex (Median f)) (Hex <$> elems h (Mode f)), h).
Proof.
  intros Hmax. unfold toJSONFrame. cbn zeta.
  destruct (Z.ltb_spec maxAlloc (16 * Z.of_nat (length (elems h (Mode f))))) as [?|_]; [lia|].
  do 3 f_equal. apply (hex_loop (elems h (Mode f)) []).
Qed.

Lemma toJSONFrame_outcome f h :
  toJSONFrame f h =
  Done (mkJsonFrame (Path f) (Hex (Average f)) (Hex (Median f)) (Hex <$> elems h (Mode f)), h)
  \/ toJSONFrame f h = Panic MakeSliceLen.
Proof.
  destruct (Z.le_gt_cases (16 * Z.of_nat (length (elems h (Mode f)))) maxAlloc) as [Hle|Hgt].
  - left. apply toJSONFrame_run, Hle.
  - right. unfold toJSONFrame. cbn zeta.
    destruct (Z.ltb_spec maxAlloc (16 * Z.of_nat (length (elems h (Mode f))))) as [_|?];
      [reflexivity|lia].
Qed.

Lemma Hex_fmap_inj (l l' : list RGB) : Hex <$> l' = Hex <$> l -> l' = l.
Proof.
  revert l. induction l' as [|c' l' IH]; intros [|c l]; cbn [fmap list_fmap]; intros Heq;
    try discriminate; [reflexivity|].
  apply (f_equal (fun l => match l with x :: _ => x | [] => EmptyString end)) in Heq as Hhd.
  apply (f_equal (fun l : list string => match l with _ :: t => t | [] => [] end)) in Heq as Htl.
  cbn in Hhd, Htl. f_equal; [apply Hex_inj, Hhd|apply IH, Htl].
Qed.

(** For a palette whose strings [make] allocates (sixteen bytes a string,
    within the allocation limit), [toJSONFrame] returns, changes nothing,
    and its record has the path of the frame, the hex string of its average,
    the hex string of its median and the hex strings of the colours of its
    palette, in their order. The record determines the frame: a frame with
    the same record has the same path, average, median and palette. *)
Theorem toJSONFrame_lossless f h :
  16 * Z.of_nat (length (elems h (Mode f))) <= maxAlloc ->
  (exists j, toJSONFrame f h = Done (j, h)
             /\ json_Path j = Path f
             /\ json_Average j = Hex (Average f)
             /\ json_Median j = Hex (Median f)
             /\ json_Mode j = Hex <$> elems h (Mode f))
  /\ forall f', toJSONFrame f' h = toJSONFrame f h ->
       Path f' = Path f /\ Average f' = Average f /\ Median f' = Median f
       /\ elems h (Mode f') = elems h (Mode f).
Proof.
  intros Hmax. split.
  - eexists. split; [apply toJSONFrame_run, Hmax|]. cbn. auto.
  - intros f'. rewrite (toJSONFrame_run f h Hmax).
    destruct (toJSONFrame_outcome f' h) as [-> | ->]; [|discriminate]. intros Heq.
    assert (Hj : forall a b : jsonFrame * list (list RGB), Done a = Done b -> a.1 = b.1)
      by (intros a b [= ->]; reflexivity).
    apply Hj in Heq. cbn [fst] in Heq.
    pose proof (f_equal json_Path Heq) as HP. pose proof (f_equal json_Average Heq) as HA.
    pose proof (f_equal json_Median Heq) as HM. pose proof (f_equal json_Mode Heq) as Hmode.
    cbn [json_Path json_Average json_Median json_Mode] in HP, HA, HM, Hmode. clear Heq Hj.
    split; [exact HP|]. split; [apply Hex_inj, HA|]. split; [apply Hex_inj, HM|].
    apply Hex_fmap_inj, Hmode.
Qed.

Lemma toJSONFrame_lossless_witness :
  exists j,
    toJSONFrame (mkFrame "frames/img000001.png" (rgb 10 20 30) (rgb 255 0 171) (Some 0%nat))
                [[rgb 0 0 0; rgb 255 128 1]]
    = Done (j, [[rgb 0 0 0; rgb 255 128 1]])
    /\ json_Path j = "frames/img000001.png"
    /\ json_Average j = Hex (rgb 10 20 30)
    /\ json_Median j = Hex (rgb 255 0 171)
    /\ json_Mode j = [Hex (rgb 0 0 0); Hex (rgb 255 128 1)].
Proof.
  apply (proj1 (toJSONFrame_lossless
                  (mkFrame "frames/img000001.png" (rgb 10 20 30) (rgb 255 0 171) (Some 0%nat))
                  [[rgb 0 0 0; rgb 255 128 1]]
                  ltac:(cbn; unfold maxAlloc; lia))).
Defined.

(** ** The pixels of a frame *)

Lemma append_loop {A B : Type} (f : A -> B) (l : list A) : forall acc,
  foldl (fun acc x => acc ++ [f x]) acc l = acc ++ (f <$> l).
Proof.
  induction l as [|x l IH]; intros acc; cbn [foldl fmap list_fmap].
  - rewrite app_nil_r. reflexivity.
  - rewrite IH, <- app_assoc. reflexivity.
Qed.

Lemma scan_loop (px : Z -> Z -> RGB) (xs ys : list Z) : forall acc,
  foldl (fun pixels y => foldl (fun pixels x => pixels ++ [px x y]) pixels xs) acc ys
  = acc ++ mjoin ((fun y => (fun x => px x y) <$> xs) <$> ys).
Proof.
  induction ys as [|y ys IH]; intros acc; cbn [foldl fmap list_fmap mjoin list_join].
  - rewrite app_nil_r. reflexivity.
  - rewrite (append_loop (fun x => px x y)), IH, <- app_assoc. reflexivity.
Qed.

Lemma scan_rows img :
  scan img =
  mjoin ((fun y => (fun x => rgbaToPixel (ColorAt img x y)) <$> seqZ 0 (MaxX (Bounds img)))
           <$> seqZ 0 (MaxY (Bounds img))).
Proof.
  unfold scan. cbn zeta.
  apply (scan_loop (fun x y => rgbaToPixel (ColorAt img x y))).
Qed.

Lemma scan_length img :
  length (scan img) = (Z.to_nat (MaxY (Bounds img)) * Z.to_nat (MaxX (Bounds img)))%nat.
Proof.
  rewrite scan_rows, length_join.
  rewrite (sum_list_fmap_same (Z.to_nat (MaxX (Bounds img)))).
  - rewrite length_fmap, length_seqZ. reflexivity.
  - apply Forall_fmap, Forall_forall. intros y _. cbn. rewrite length_fmap, length_seqZ.
    reflexivity.
Qed.

(** [getPixels] exits with status 1 when the file does not decode.
    Otherwise it returns a fresh slice with the pixels of the rectangle from
    (0, 0) to [bounds.Max], [Max.X * Max.Y] of them, row after row: the pixel
    at [(x, y)] is at index [y * Max.X + x], each channel being the 16-bit
    channel of the image divided by 257. *)
Theorem getPixels_row_major w (filename : string) h :
  (Decode w filename = None -> getPixels w filename h = Exits 1)
  /\ forall img, Decode w filename = Some img ->
       getPixels w filename h = Returns (length h, h ++ [scan img])
       /\ length (scan img)
          = (Z.to_nat (MaxY (Bounds img)) * Z.to_nat (MaxX (Bounds img)))%nat
       /\ forall x y,
            0 <= x < MaxX (Bounds img) -> 0 <= y < MaxY (Bounds img) ->
            scan img !! Z.to_nat (y * MaxX (Bounds img) + x)
            = Some (rgbaToPixel (ColorAt img x y)).
Proof.
  split.
  - intros Hd. unfold getPixels, openImage, mbind, IO_bind. rewrite Hd. reflexivity.
  - intros img Hd. split; [|split].
    + unfold getPixels, openImage, mbind, IO_bind. rewrite Hd. reflexivity.
    + apply scan_length.
    + intros x y Hx Hy. rewrite scan_rows.
      replace (Z.to_nat (y * MaxX (Bounds img) + x))
        with (Z.to_nat y * Z.to_nat (MaxX (Bounds img)) + Z.to_nat x)%nat by nia.
      apply (join_lookup_Some_same_length' (Z.to_nat (MaxX (Bounds img)))).
      * apply Forall_fmap, Forall_forall. intros y' _. cbn.
        rewrite length_fmap, length_seqZ. reflexivity.
      * lia.
      * eexists. split.
        -- rewrite list_lookup_fmap, lookup_seqZ_lt by lia. reflexivity.
        -- rewrite list_lookup_fmap, lookup_seqZ_lt by lia. cbn.
           rewrite !Z.add_0_l, !Z2Nat.id by lia. reflexivity.
Qed.

Lemma getPixels_row_major_witness :
  getPixels {| ReadDir := fun _ => None;
               Decode := fun _ => Some {| Bounds := image_Rect 0 0 3 2;
                                          ColorAt := fun x y => (257 * x, 257 * y, 0, 65535) |} |}
            "f.png" [] = Returns (0%nat, [[rgb 0 0 0; rgb 1 0 0; rgb 2 0 0;
                                            rgb 0 1 0; rgb 1 1 0; rgb 2 1 0]]).
Proof.
  apply (proj2 (getPixels_row_major
                  {| ReadDir := fun _ => None;
                     Decode := fun _ => Some {| Bounds := image_Rect 0 0 3 2;
                                                ColorAt := fun x y => (257 * x, 257 * y, 0, 65535) |} |}
                  "f.png" [])
               {| Bounds := image_Rect 0 0 3 2;
                  ColorAt := fun x y => (257 * x, 257 * y, 0, 65535) |} eq_refl).
Defined.

(** ** Processing the frames *)

Lemma getAverage_local rt g (s : slice) h (ps : list RGB) :
  contents h s = ps ->
  exists c, getAverage rt g s h = Done (c, h)
            /\ getAverage rt g 0%nat [ps] = Done (c, [ps]).
Proof.
  intros <-. unfold getAverage, load, len, mbind, M_bind, mret, M_ret.
  change (contents [contents h s] 0) with (contents h s).
  destruct (avgSqr g); eexists; split; reflexivity.
Qed.

Lemma getMedian_local rt (s : slice) h (ps : list RGB) :
  RuntimeOK rt -> (s < length h)%nat -> contents h s = ps ->
  (ps = [] -> getMedian rt s h = Panic IndexOutOfRange)
  /\ (ps <> [] ->
      exists c l, getMedian rt s h = Done (c, h ++ [l])
                  /\ getMedian rt 0%nat [ps] = Done (c, [ps; l])).
Proof.
  intros Hrt Hs <-.
  pose proof (getMedian_run rt s h Hs) as Hrun. cbn zeta in Hrun.
  pose proof (getMedian_run rt 0%nat [contents h s] ltac:(cbn; lia)) as Hloc.
  cbn zeta in Hloc. change (contents [contents h s] 0) with (contents h s) in Hloc.
  set (sorted := sort_Sort rt RGBList (contents h s)) in *.
  assert (Hlen : length sorted = length (contents h s)) by apply sort_Sort_length, Hrt.
  split.
  - intros Hnil. rewrite Hrun. rewrite Hnil in Hlen. destruct sorted; [reflexivity|discriminate].
  - intros Hne. rewrite Hrun, Hloc.
    destruct (sorted !! _) as [c|] eqn:Hl; [exists c, sorted; split; reflexivity|].
    exfalso. apply lookup_ge_None in Hl.
    assert (0 < Z.of_nat (length sorted)).
    { rewrite Hlen. destruct (contents h s); [contradiction|cbn [length]; lia]. }
    pose proof (Z.quot_lt (Z.of_nat (length sorted)) 2 ltac:(lia) ltac:(lia)).
    pose proof (Z.quot_pos (Z.of_nat (length sorted)) 2 ltac:(lia) ltac:(lia)).
    lia.
Qed.

Lemma make_panics_inv n h :
  make n h = Panic MakeSliceLen -> n < 0 \/ maxAlloc < 3 * n.
Proof.
  unfold make. destruct (Z.ltb_spec n 0) as [?|_]; [auto|].
  destruct (Z.ltb_spec maxAlloc (3 * n)) as [?|_]; [auto|]. discriminate.
Qed.

(** [getMode] returns the palette of the pixels in a fresh array, or panics
    in [make]. *)
Lemma getMode_outcome rt g (s : slice) h (ps : list RGB) :
  contents h s = ps ->
  getMode rt g s h = Done (length h, h ++ [mode_palette rt g ps])
  \/ (getMode rt g s h = Panic MakeSliceLen
      /\ (genMode g < 0 \/ maxAlloc < 3 * genMode g)).
Proof.
  intros <-. destruct (make_outcome (genMode g) h) as [Hmake|Hmake].
  - left. exact (getMode_after_make rt g s h Hmake).
  - right. split; [apply getMode_make_panics, Hmake|eapply make_panics_inv, Hmake].
Qed.

Lemma getMode_local rt g (ps : list RGB) :
  0 <= genMode g -> 3 * genMode g <= maxAlloc ->
  getMode rt g 0%nat [ps] = Done (1%nat, [ps; mode_palette rt g ps]).
Proof.
  intros HN Hmax.
  exact (getMode_run rt g 0%nat [ps] ltac:(cbn; lia) HN Hmax).
Qed.

Lemma mode_palette_length rt g (ps : list RGB) :
  RuntimeOK rt -> length (mode_palette rt g ps) = Z.to_nat (genMode g).
Proof.
  intros Hrt. unfold mode_palette. rewrite sort_Sort_length by exact Hrt.
  rewrite length_app, length_replicate, length_fmap, length_take. lia.
Qed.

Lemma reduced_grow rt g o (ps : list RGB) h ext fr :
  reduced rt g o ps h fr -> reduced rt g o ps (h ++ ext) fr.
Proof.
  unfold reduced. intros (Ha & Hm & Hmode). split; [exact Ha|]. split; [exact Hm|].
  destruct (0 <? genMode g); [|exact Hmode].
  destruct Hmode as (s & Hs & Hl). exists s. split; [exact Hs|].
  apply lookup_app_l_Some. exact Hl.
Qed.

(** Within the allocation limit the palette is what [getMode] returns on the
    pixels alone. *)
Lemma reduced_reduces_to rt g o (ps : list RGB) h fr :
  3 * genMode g <= maxAlloc ->
  reduced rt g o ps h fr -> reduces_to rt g o ps h fr.
Proof.
  unfold reduced, reduces_to. intros Hmax (Ha & Hm & Hmode).
  split; [exact Ha|]. split; [exact Hm|].
  destruct (Z.ltb_spec 0 (genMode g)) as [HN|_]; [|exact Hmode].
  destruct Hmode as (s & Hs & Hl). exists s, (mode_palette rt g ps).
  split; [exact Hs|]. split; [exact Hl|]. apply getMode_local; lia.
Qed.

Lemma reduces_to_grow rt g o (ps : list RGB) h ext fr :
  reduces_to rt g o ps h fr -> reduces_to rt g o ps (h ++ ext) fr.
Proof.
  unfold reduces_to. intros (Ha & Hm & Hmode). split; [exact Ha|]. split; [exact Hm|].
  destruct (0 <? genMode g); [|exact Hmode].
  destruct Hmode as (s & l & Hs & Hl & Hrun). exists s, l. split; [exact Hs|].
  split; [|exact Hrun]. apply lookup_app_l_Some. exact Hl.
Qed.

Lemma IO_bind_Returns {A B : Type} (c : IO A) (f : A -> IO B) h a h' :
  c h = Returns (a, h') -> (c ≫= f) h = f a h'.
Proof. intros Hc. unfold mbind, IO_bind. rewrite Hc. reflexivity. Qed.

Lemma IO_bind_Exits {A B : Type} (c : IO A) (f : A -> IO B) h code :
  c h = Exits code -> (c ≫= f) h = Exits code.
Proof. intros Hc. unfold mbind, IO_bind. rewrite Hc. reflexivity. Qed.

Lemma IO_bind_Panics {A B : Type} (c : IO A) (f : A -> IO B) h p :
  c h = Panics p -> (c ≫= f) h = Panics p.
Proof. intros Hc. unfold mbind, IO_bind. rewrite Hc. reflexivity. Qed.

(** One turn of the loop of [processFrames] on a regular file. *)
Lemma process_file rt g o w frameDir (file : FileInfo) (result : list Frame) h :
  RuntimeOK rt ->
  match
    (pixels ← getPixels w (frameDir +:+ "/" +:+ Name file);
     avg ← (if genAvg o then call (getAverage rt g pixels)
            else mret (mkRGB x00 x00 x00));
     median ← (if genMed o then call (getMedian rt pixels)
               else mret (mkRGB x00 x00 x00));
     mode ← (if 0 <? genMode g
             then call (getMode rt g pixels) ≫= fun m => mret (Some m)
             else mret None);
     let subPath := "frames/" +:+ Name file in
     mret (result ++ [mkFrame subPath avg median mode])) h
  with
  | Returns (result', h') =>
      exists img fr ext,
        Decode w (frameDir +:+ "/" +:+ Name file) = Some img
        /\ (genMed o = true -> scan img <> [])
        /\ result' = result ++ [fr] /\ h' = h ++ ext
        /\ Path fr = "frames/" +:+ Name file
        /\ reduced rt g o (scan img) h' fr
  | Exits code =>
      code = 1 /\ Decode w (frameDir +:+ "/" +:+ Name file) = None
  | Panics p =>
      exists img,
        Decode w (frameDir +:+ "/" +:+ Name file) = Some img
        /\ ((p = IndexOutOfRange /\ genMed o = true /\ scan img = [])
            \/ (p = MakeSliceLen /\ 0 < genMode g /\ maxAlloc < 3 * genMode g
                /\ (genMed o = true -> scan img <> [])))
  end.
Proof.
  intros Hrt.
  destruct (Decode w (frameDir +:+ "/" +:+ Name file)) as [img|] eqn:Hd.
  2:{ erewrite IO_bind_Exits; [auto|].
      unfold getPixels, openImage. erewrite IO_bind_Exits; [reflexivity|].
      rewrite Hd. reflexivity. }
  set (ps := scan img). set (h1 := h ++ [ps]).
  erewrite IO_bind_Returns with (a := length h) (h' := h1);
    [|unfold getPixels, openImage, grown, mbind, IO_bind; rewrite Hd; reflexivity].
  assert (Hs1 : (length h < length h1)%nat) by (unfold h1; rewrite length_app; cbn; lia).
  assert (Hc1 : contents h1 (length h) = ps) by apply contents_app_new.
  (* the average *)
  assert (Havg : exists c,
            (if genAvg o then call (getAverage rt g (length h)) else mret (mkRGB x00 x00 x00)) h1
            = Returns (c, h1)
            /\ (if genAvg o then getAverage rt g 0%nat [ps] = Done (c, [ps])
                else c = mkRGB x00 x00 x00)).
  { destruct (genAvg o).
    - destruct (getAverage_local rt g (length h) h1 ps Hc1) as (c & Hrun & Hloc).
      exists c. unfold call. rewrite Hrun. auto.
    - eexists. split; reflexivity. }
  destruct Havg as (avg & Havg & Havg').
  erewrite IO_bind_Returns; [|exact Havg].
  (* the palette, after the median *)
  assert (Hmode : forall h2,
            contents h2 (length h) = ps ->
            (exists mode ext,
               (if 0 <? genMode g
                then call (getMode rt g (length h)) ≫= fun m => mret (Some m)
                else mret None) h2 = Returns (mode, h2 ++ ext)
               /\ (if 0 <? genMode g
                   then exists s, mode = Some s
                                  /\ (h2 ++ ext) !! s = Some (mode_palette rt g ps)
                   else mode = None))
            \/ ((if 0 <? genMode g
                 then call (getMode rt g (length h)) ≫= fun m => mret (Some m)
                 else mret None) h2 = Panics MakeSliceLen
                /\ 0 < genMode g /\ maxAlloc < 3 * genMode g)).
  { intros h2 Hc2. destruct (Z.ltb_spec 0 (genMode g)) as [HN|HN].
    - destruct (getMode_outcome rt g (length h) h2 ps Hc2) as [Hrun|[Hrun Hover]].
      + left. exists (Some (length h2)), [mode_palette rt g ps].
        unfold mbind, IO_bind, call. rewrite Hrun.
        split; [reflexivity|]. exists (length h2). split; [reflexivity|].
        rewrite lookup_app_r by lia. rewrite Nat.sub_diag. reflexivity.
      + right. unfold mbind, IO_bind, call. rewrite Hrun.
        split; [reflexivity|]. lia.
    - left. exists None, []. rewrite app_nil_r. split; reflexivity. }
  (* the median *)
  destruct (getMedian_local rt (length h) h1 ps Hrt Hs1 Hc1) as [Hmnil Hmne].
  destruct (genMed o) eqn:Hmed.
  - destruct (decide (ps = [])) as [Hnil|Hne].
    + erewrite IO_bind_Panics; [|unfold call; rewrite (Hmnil Hnil); reflexivity].
      exists img. split; [reflexivity|]. left. auto.
    + destruct (Hmne Hne) as (c & l & Hrun & Hloc).
      erewrite IO_bind_Returns; [|unfold call; rewrite Hrun; reflexivity].
      destruct (Hmode (h1 ++ [l])) as [(mode & ext & Hmrun & Hm)|(Hmrun & HN & Hover)].
      { rewrite contents_app_l by exact Hs1. exact Hc1. }
      * erewrite IO_bind_Returns; [|exact Hmrun]. cbn zeta.
        exists img, (mkFrame ("frames/" +:+ Name file) avg c mode), ([ps] ++ [l] ++ ext).
        split; [reflexivity|]. split; [intros _; exact Hne|]. split; [reflexivity|].
        split; [unfold h1; rewrite <- !app_assoc; reflexivity|]. split; [reflexivity|].
        unfold reduced. cbn [Average Median Mode]. rewrite Hmed.
        split; [exact Havg'|]. split; [exists l; exact Hloc|exact Hm].
      * erewrite IO_bind_Panics; [|exact Hmrun].
        exists img. split; [reflexivity|]. right. auto.
  - erewrite IO_bind_Returns; [|reflexivity].
    destruct (Hmode h1 Hc1) as [(mode & ext & Hmrun & Hm)|(Hmrun & HN & Hover)].
    + erewrite IO_bind_Returns; [|exact Hmrun]. cbn zeta.
      exists img, (mkFrame ("frames/" +:+ Name file) avg (mkRGB x00 x00 x00) mode), ([ps] ++ ext).
      split; [reflexivity|]. split; [discriminate|]. split; [reflexivity|].
      split; [unfold h1; rewrite <- !app_assoc; reflexivity|]. split; [reflexivity|].
      unfold reduced. cbn [Average Median Mode]. rewrite Hmed.
      split; [exact Havg'|]. split; [reflexivity|exact Hm].
    + erewrite IO_bind_Panics; [|exact Hmrun].
      exists img. split; [reflexivity|]. right.
      split; [reflexivity|]. split; [exact HN|]. split; [exact Hover|discriminate].
Qed.
(** The loop of [processFrames], from any list of frames and any heap. *)
Lemma process_loop rts g o w frameDir (files : list FileInfo) :
  (forall k, RuntimeOK (rts k)) ->
  forall (result : list Frame) h,
  match
    range_IO (fun file result =>
      if IsDir file then mret result
      else
        let rt := rts (length result) in
        pixels ← getPixels w (frameDir +:+ "/" +:+ Name file);
        avg ← (if genAvg o then call (getAverage rt g pixels)
               else mret (mkRGB x00 x00 x00));
        median ← (if genMed o then call (getMedian rt pixels)
                  else mret (mkRGB x00 x00 x00));
        mode ← (if 0 <? genMode g
                then call (getMode rt g pixels) ≫= fun m => mret (Some m)
                else mret None);
        let subPath := "frames/" +:+ Name file in
        mret (result ++ [mkFrame subPath avg median mode]))
      files result h
  with
  | Returns (result', h') =>
      exists frames ext,
        result' = result ++ frames /\ h' = h ++ ext
        /\ length frames = length (filter (fun file => IsDir file = false) files)
        /\ forall (i : nat) file,
             filter (fun file => IsDir file = false) files !! i = Some file ->
             exists fr img,
               frames !! i = Some fr
               /\ Path fr = "frames/" +:+ Name file
               /\ Decode w (frameDir +:+ "/" +:+ Name file) = Some img
               /\ (genMed o = true -> scan img <> [])
               /\ reduced (rts (length result + i)%nat) g o (scan img) h' fr
  | Exits code =>
      code = 1
      /\ exists file, file ∈ files /\ IsDir file = false
                      /\ Decode w (frameDir +:+ "/" +:+ Name file) = None
  | Panics p =>
      exists file img,
        file ∈ files /\ IsDir file = false
        /\ Decode w (frameDir +:+ "/" +:+ Name file) = Some img
        /\ ((p = IndexOutOfRange /\ genMed o = true /\ scan img = [])
            \/ (p = MakeSliceLen /\ 0 < genMode g /\ maxAlloc < 3 * genMode g
                /\ (genMed o = true -> scan img <> [])))
  end.
Proof.
  intros Hrt. induction files as [|file files IH]; intros result h; cbn [range_IO].
  - exists [], []. rewrite !app_nil_r. split; [reflexivity|]. split; [reflexivity|].
    split; [reflexivity|]. intros i file Hi. rewrite filter_nil in Hi. discriminate.
  - destruct (IsDir file) eqn:Hdir.
    + erewrite IO_bind_Returns; [|reflexivity].
      rewrite filter_cons_False by (rewrite Hdir; discriminate).
      specialize (IH result h).
      match type of IH with match ?X with _ => _ end => destruct X as [[r' h']|code|p] end.
      * exact IH.
      * destruct IH as (Hc & file' & Hin & Hreg & Hd). split; [exact Hc|].
        exists file'. split; [right; exact Hin|auto].
      * destruct IH as (file' & img & Hin & Hreg & Hd & Hp).
        exists file', img. split; [right; exact Hin|auto].
    + rewrite filter_cons_True by exact Hdir. cbn zeta.
      pose proof (process_file (rts (length result)) g o w frameDir file result h
                    (Hrt (length result))) as Hstep.
      match type of Hstep with match ?X with _ => _ end =>
        destruct X as [[r1 h1]|code|p] eqn:Hrun end.
      * erewrite IO_bind_Returns; [|exact Hrun].
        destruct Hstep as (img & fr & ext1 & Hd & Hne & -> & -> & Hpath & Hred).
        specialize (IH (result ++ [fr]) (h ++ ext1)).
        match type of IH with match ?X with _ => _ end => destruct X as [[r' h']|code|p] end.
        -- destruct IH as (frames & ext & -> & -> & Hlen & Hall).
           exists (fr :: frames), (ext1 ++ ext).
           split; [rewrite <- app_assoc; reflexivity|].
           split; [rewrite <- app_assoc; reflexivity|].
           split; [cbn [length]; rewrite Hlen; reflexivity|].
           intros [|i] file' Hi.
           ++ injection Hi as <-. exists fr, img. split; [reflexivity|].
              split; [exact Hpath|]. split; [exact Hd|]. split; [exact Hne|].
              rewrite Nat.add_0_r. apply reduced_grow. exact Hred.
           ++ cbn [lookup list_lookup] in Hi.
              destruct (Hall i file' Hi) as (fr' & img' & Hfr & Hp' & Hd' & Hne' & Hred').
              exists fr', img'. split; [exact Hfr|]. split; [exact Hp'|].
              split; [exact Hd'|]. split; [exact Hne'|].
              rewrite length_app in Hred'. cbn [length] in Hred'.
              replace (length result + S i)%nat with (length result + 1 + i)%nat by lia.
              exact Hred'.
        -- destruct IH as (Hc & file' & Hin & Hreg & Hd'). split; [exact Hc|].
           exists file'. split; [right; exact Hin|auto].
        -- destruct IH as (file' & img' & Hin & Hreg & Hd' & Hp).
           exists file', img'. split; [right; exact Hin|auto].
      * erewrite IO_bind_Exits; [|exact Hrun].
        destruct Hstep as [Hc Hd]. split; [exact Hc|]. exists file.
        split; [left|auto].
      * erewrite IO_bind_Panics; [|exact Hrun].
        destruct Hstep as (img & Hd & Hp).
        exists file, img. split; [left|auto].
Qed.

Lemma scan_nil img :
  scan img = [] <-> MaxX (Bounds img) <= 0 \/ MaxY (Bounds img) <= 0.
Proof.
  rewrite <- length_zero_iff_nil, scan_length. nia.
Qed.

(** The frames [processFrames] returns when every regular file of the
    directory decodes, the median has a pixel to return, and [make]
    allocates the palettes. *)
Lemma processFrames_run rts g o w frameDir (files : list FileInfo) h :
  (forall k, RuntimeOK (rts k)) ->
  ReadDir w frameDir = Some files ->
  (forall file, file ∈ files -> IsDir file = false ->
     exists img, Decode w (frameDir +:+ "/" +:+ Name file) = Some img
                 /\ (genMed o = true ->
                     0 < MaxX (Bounds img) /\ 0 < MaxY (Bounds img))) ->
  3 * genMode g <= maxAlloc ->
  exists frames ext,
    processFrames rts g o w frameDir h = Returns (frames, h ++ ext)
    /\ length frames = length (filter (fun file => IsDir file = false) files)
    /\ forall (i : nat) file,
         filter (fun file => IsDir file = false) files !! i = Some file ->
         exists fr img,
           frames !! i = Some fr
           /\ Path fr = "frames/" +:+ Name file
           /\ Decode w (frameDir +:+ "/" +:+ Name file) = Some img
           /\ reduced (rts i) g o (scan img) (h ++ ext) fr.
Proof.
  intros Hrt Hdir Hfiles Hmax. unfold processFrames. rewrite Hdir.
  pose proof (process_loop rts g o w frameDir files Hrt [] h) as Hloop.
  match type of Hloop with match ?X with _ => _ end => destruct X as [[r' h']|code|p] end.
  - destruct Hloop as (frames & ext & -> & -> & Hlen & Hall). exists frames, ext.
    split; [reflexivity|]. split; [exact Hlen|].
    intros i file Hi. destruct (Hall i file Hi) as (fr & img & Hfr & Hpath & Hd & _ & Hred).
    exists fr, img. auto.
  - exfalso. destruct Hloop as (_ & file & Hin & Hreg & Hd).
    destruct (Hfiles file Hin Hreg) as (img & Hd' & _). congruence.
  - exfalso. destruct Hloop as (file & img & Hin & Hreg & Hd & Hp).
    destruct (Hfiles file Hin Hreg) as (img' & Hd' & Hpos).
    assert (img' = img) by congruence. subst img'.
    destruct Hp as [(_ & Hmed & Hnil)|(_ & HN & Hover & _)]; [|lia].
    apply scan_nil in Hnil. specialize (Hpos Hmed). lia.
Qed.

(** When the directory can be read, each of its regular files decodes (to
    an image with at least one pixel, when the median is asked for) and the
    palette is one [make] allocates (three bytes an entry, within the
    allocation limit), [processFrames] returns one frame for each regular
    file, in the order of the directory: the frame of index [i] has the path
    ["frames/"] and the name of the [i]-th regular file, and it holds the
    reductions of the file's pixels, in the runtime of its turn of the loop.
    What was in the heap stays as it was. *)
Theorem processFrames_frames rts g o w frameDir (files : list FileInfo) h :
  (forall k, RuntimeOK (rts k)) ->
  ReadDir w frameDir = Some files ->
  (forall file, file ∈ files -> IsDir file = false ->
     exists img, Decode w (frameDir +:+ "/" +:+ Name file) = Some img
                 /\ (genMed o = true ->
                     0 < MaxX (Bounds img) /\ 0 < MaxY (Bounds img))) ->
  3 * genMode g <= maxAlloc ->
  exists frames ext,
    processFrames rts g o w frameDir h = Returns (frames, h ++ ext)
    /\ length frames = length (filter (fun file => IsDir file = false) files)
    /\ forall (i : nat) file,
         filter (fun file => IsDir file = false) files !! i = Some file ->
         exists fr img,
           frames !! i = Some fr
           /\ Path fr = "frames/" +:+ Name file
           /\ Decode w (frameDir +:+ "/" +:+ Name file) = Some img
           /\ reduces_to (rts i) g o (scan img) (h ++ ext) fr.
Proof.
  intros Hrt Hdir Hfiles Hmax.
  destruct (processFrames_run rts g o w frameDir files h Hrt Hdir Hfiles Hmax)
    as (frames & ext & Hrun & Hlen & Hall).
  exists frames, ext. split; [exact Hrun|]. split; [exact Hlen|].
  intros i file Hi. destruct (Hall i file Hi) as (fr & img & Hfr & Hpath & Hd & Hred).
  exists fr, img. split; [exact Hfr|]. split; [exact Hpath|]. split; [exact Hd|].
  apply reduced_reduces_to; [exact Hmax|exact Hred].
Qed.

(** [processFrames] ends the process only with status 1, and only when the
    directory cannot be read or one of its regular files does not decode.
    It panics only in two ways, and only on a regular file that decodes:
    with an index out of range, when the median is asked for and the image
    has no pixel; or in the [make] of [getMode], when [genMode] is positive
    and the palette, of three bytes an entry, is over the allocation
    limit. *)
Theorem processFrames_failure rts g o w frameDir h :
  (forall k, RuntimeOK (rts k)) ->
  (forall code, processFrames rts g o w frameDir h = Exits code ->
     code = 1
     /\ (ReadDir w frameDir = None
         \/ exists files file,
              ReadDir w frameDir = Some files /\ file ∈ files /\ IsDir file = false
              /\ Decode w (frameDir +:+ "/" +:+ Name file) = None))
  /\ (forall p, processFrames rts g o w frameDir h = Panics p ->
        exists files file img,
          ReadDir w frameDir = Some files /\ file ∈ files /\ IsDir file = false
          /\ Decode w (frameDir +:+ "/" +:+ Name file) = Some img
          /\ ((p = IndexOutOfRange /\ genMed o = true
               /\ (MaxX (Bounds img) <= 0 \/ MaxY (Bounds img) <= 0))
              \/ (p = MakeSliceLen /\ 0 < genMode g /\ maxAlloc < 3 * genMode g))).
Proof.
  intros Hrt. unfold processFrames.
  destruct (ReadDir w frameDir) as [files|] eqn:Hdir.
  - pose proof (process_loop rts g o w frameDir files Hrt [] h) as Hloop.
    match type of Hloop with match ?X with _ => _ end => destruct X as [[r' h']|code|p] end.
    + split; intros ?; discriminate.
    + split; [|intros ?; discriminate]. intros code' [= <-].
      destruct Hloop as (Hc & file & Hin & Hreg & Hd). split; [exact Hc|]. right.
      exists files, file. auto.
    + split; [intros ?; discriminate|]. intros p' [= <-].
      destruct Hloop as (file & img & Hin & Hreg & Hd & Hp).
      exists files, file, img. split; [reflexivity|]. split; [exact Hin|].
      split; [exact Hreg|]. split; [exact Hd|].
      destruct Hp as [(Hp & Hmed & Hnil)|(Hp & HN & Hover & _)].
      * left. apply scan_nil in Hnil. auto.
      * right. auto.
  - split; [|intros ?; discriminate]. intros code [= <-]. auto.
Qed.
Lemma processFrames_frames_witness :
  exists frames ext,
    processFrames (fun _ => ref_runtime)
      {| width := 4; lineHeight := 1; avgSqr := false; genMode := 2 |}
      {| genAvg := true; genMed := true |}
      {| ReadDir := fun _ => Some [ {| Name := "img000001.png"; IsDir := false |};
                                    {| Name := "old"; IsDir := true |} ];
         Decode := fun _ => Some {| Bounds := image_Rect 0 0 2 1;
                                    ColorAt := fun x _ => (65535 * x, 0, 0, 65535) |} |}
      "out/frames/" [] = Returns (frames, [] ++ ext)
    /\ length frames = 1%nat
    /\ forall (i : nat) file,
         [ {| Name := "img000001.png"; IsDir := false |} ] !! i = Some file ->
         exists fr img,
           frames !! i = Some fr
           /\ Path fr = "frames/" +:+ Name file
           /\ Some {| Bounds := image_Rect 0 0 2 1;
                      ColorAt := fun x _ => (65535 * x, 0, 0, 65535) |} = Some img
           /\ reduces_to ref_runtime
                {| width := 4; lineHeight := 1; avgSqr := false; genMode := 2 |}
                {| genAvg := true; genMed := true |} (scan img) ([] ++ ext) fr.
Proof.
  apply (processFrames_frames (fun _ => ref_runtime)
           {| width := 4; lineHeight := 1; avgSqr := false; genMode := 2 |}
           {| genAvg := true; genMed := true |}
           {| ReadDir := fun _ => Some [ {| Name := "img000001.png"; IsDir := false |};
                                         {| Name := "old"; IsDir := true |} ];
              Decode := fun _ => Some {| Bounds := image_Rect 0 0 2 1;
                                         ColorAt := fun x _ => (65535 * x, 0, 0, 65535) |} |}
           "out/frames/"
           [ {| Name := "img000001.png"; IsDir := false |}; {| Name := "old"; IsDir := true |} ]
           [] (fun _ => ref_runtime_ok) eq_refl).
  - intros file _ _. eexists. split; [reflexivity|]. intros _. cbn. lia.
  - cbn. unfold maxAlloc. lia.
Defined.

(** An unreadable directory, a file that does not decode, an image without
    a pixel and a palette over the allocation limit. *)
Lemma processFrames_failure_witness :
  (1 = 1
   /\ (ReadDir {| ReadDir := fun _ => None; Decode := fun _ => None |} "out/frames/" = None
       \/ exists files file,
            ReadDir {| ReadDir := fun _ => None; Decode := fun _ => None |} "out/frames/"
            = Some files
            /\ file ∈ files /\ IsDir file = false
            /\ Decode {| ReadDir := fun _ => None; Decode := fun _ => None |}
                      ("out/frames/" +:+ "/" +:+ Name file) = None))
  /\ (1 = 1
      /\ (ReadDir {| ReadDir := fun _ => Some [ {| Name := "notes.txt"; IsDir := false |} ];
                     Decode := fun _ => None |} "out/frames/" = None
          \/ exists files file,
               ReadDir {| ReadDir := fun _ => Some [ {| Name := "notes.txt"; IsDir := false |} ];
                          Decode := fun _ => None |} "out/frames/"
               = Some files
               /\ file ∈ files /\ IsDir file = false
               /\ Decode {| ReadDir := fun _ => Some [ {| Name := "notes.txt"; IsDir := false |} ];
                            Decode := fun _ => None |}
                         ("out/frames/" +:+ "/" +:+ Name file) = None))
  /\ (exists files file img,
        Some [ {| Name := "img000001.png"; IsDir := false |} ] = Some files
        /\ file ∈ files /\ IsDir file = false
        /\ Some {| Bounds := image_Rect 0 0 0 0; ColorAt := fun _ _ => (0, 0, 0, 0) |} = Some img
        /\ ((IndexOutOfRange = IndexOutOfRange /\ true = true
             /\ (MaxX (Bounds img) <= 0 \/ MaxY (Bounds img) <= 0))
            \/ (IndexOutOfRange = MakeSliceLen /\ 0 < 2 /\ maxAlloc < 3 * 2)))
  /\ (exists files file img,
        Some [ {| Name := "img000001.png"; IsDir := false |} ] = Some files
        /\ file ∈ files /\ IsDir file = false
        /\ Some {| Bounds := image_Rect 0 0 1 1; ColorAt := fun _ _ => (0, 0, 0, 0) |} = Some img
        /\ ((MakeSliceLen = IndexOutOfRange /\ false = true
             /\ (MaxX (Bounds img) <= 0 \/ MaxY (Bounds img) <= 0))
            \/ (MakeSliceLen = MakeSliceLen /\ 0 < 2 ^ 62 /\ maxAlloc < 3 * 2 ^ 62))).
Proof.
  split; [|split; [|split]].
  - apply (proj1 (processFrames_failure (fun _ => ref_runtime)
                    {| width := 4; lineHeight := 1; avgSqr := false; genMode := 2 |}
                    {| genAvg := true; genMed := true |}
                    {| ReadDir := fun _ => None; Decode := fun _ => None |}
                    "out/frames/" [] (fun _ => ref_runtime_ok)) 1 eq_refl).
  - apply (proj1 (processFrames_failure (fun _ => ref_runtime)
                    {| width := 4; lineHeight := 1; avgSqr := false; genMode := 2 |}
                    {| genAvg := true; genMed := true |}
                    {| ReadDir := fun _ => Some [ {| Name := "notes.txt"; IsDir := false |} ];
                       Decode := fun _ => None |}
                    "out/frames/" [] (fun _ => ref_runtime_ok)) 1 eq_refl).
  - apply (proj2 (processFrames_failure (fun _ => ref_runtime)
                    {| width := 4; lineHeight := 1; avgSqr := false; genMode := 2 |}
                    {| genAvg := true; genMed := true |}
                    {| ReadDir := fun _ => Some [ {| Name := "img000001.png"; IsDir := false |} ];
                       Decode := fun _ => Some {| Bounds := image_Rect 0 0 0 0;
                                                  ColorAt := fun _ _ => (0, 0, 0, 0) |} |}
                    "out/frames/" [] (fun _ => ref_runtime_ok)) IndexOutOfRange eq_refl).
  - apply (proj2 (processFrames_failure (fun _ => ref_runtime)
                    {| width := 4; lineHeight := 1; avgSqr := false; genMode := 2 ^ 62 |}
                    {| genAvg := true; genMed := false |}
                    {| ReadDir := fun _ => Some [ {| Name := "img000001.png"; IsDir := false |} ];
                       Decode := fun _ => Some {| Bounds := image_Rect 0 0 1 1;
                                                  ColorAt := fun _ _ => (0, 0, 0, 0) |} |}
                    "out/frames/" [] (fun _ => ref_runtime_ok)) MakeSliceLen eq_refl).
Defined.

(** ** The palettes of the mode image *)

(** With [genMode > 0], the palettes of the frames [processFrames] returns
    all hold [genMode] colours, so that none is empty: [genLineColImage],
    which [main] calls on them in that case, does not divide by zero; it
    returns an image unless the allocation of the image panics. *)
Theorem mode_palettes_full rts g o w frameDir h (frames : list Frame) h' :
  (forall k, RuntimeOK (rts k)) -> 0 < genMode g ->
  processFrames rts g o w frameDir h = Returns (frames, h') ->
  Forall (fun fr => length (elems h' (Mode fr)) = Z.to_nat (genMode g)) frames
  /\ ((exists img, genLineColImage g ((fun fr => elems h' (Mode fr)) <$> frames) = Done img)
      \/ genLineColImage g ((fun fr => elems h' (Mode fr)) <$> frames) = Panic HugeImage).
Proof.
  intros Hrt HN Hrun.
  assert (Hfull : Forall (fun fr => length (elems h' (Mode fr)) = Z.to_nat (genMode g)) frames).
  { unfold processFrames in Hrun. destruct (ReadDir w frameDir) as [files|]; [|discriminate].
    pose proof (process_loop rts g o w frameDir files Hrt [] h) as Hloop.
    match type of Hloop with match ?X with _ => _ end =>
      replace X with (@Returns (list Frame * list (list RGB)) (frames, h')) in Hloop
        by (symmetry; exact Hrun) end.
    destruct Hloop as (frames' & ext & Hf & -> & Hlen & Hall).
    cbn [app] in Hf. subst frames'.
    apply Forall_lookup. intros i fr Hfr.
    assert (Hi : (i < length (filter (fun file => IsDir file = false) files))%nat).
    { rewrite <- Hlen. eapply lookup_lt_Some, Hfr. }
    destruct (lookup_lt_is_Some_2 _ _ Hi) as [file Hfile].
    destruct (Hall i file Hfile) as (fr' & img & Hfr' & _ & _ & _ & _ & _ & Hmode).
    assert (fr' = fr) by congruence. subst fr'.
    destruct (Z.ltb_spec 0 (genMode g)) as [_|?]; [|lia].
    destruct Hmode as (s & -> & Hl).
    cbn [elems]. unfold contents. rewrite Hl. cbn.
    apply mode_palette_length, Hrt. }
  split; [exact Hfull|].
  unfold genLineColImage. destruct (NewRGBA _) as [img|p] eqn:Hnew.
  - left. cbn [mbind outcome_bind]. apply col_rows_spec.
    intros Hin. apply list_elem_of_fmap in Hin as (fr & Hnil & Hfr).
    rewrite Forall_forall in Hfull. specialize (Hfull fr Hfr).
    rewrite <- Hnil in Hfull. cbn in Hfull. lia.
  - right. cbn [mbind outcome_bind]. unfold NewRGBA in Hnew. cbn zeta in Hnew.
    destruct (_ <? 0); [congruence|].
    destruct (_ <? _); [congruence|discriminate].
Qed.

Lemma mode_palettes_full_witness :
  Forall (fun fr => length (elems [[rgb 0 0 0; rgb 255 0 0]; [rgb 0 0 0; rgb 255 0 0]]
                                  (Mode fr)) = 2%nat)
         [mkFrame "frames/img000001.png" (rgb 0 0 0) (rgb 0 0 0) (Some 1%nat)]
  /\ ((exists img,
         genLineColImage {| width := 4; lineHeight := 1; avgSqr := false; genMode := 2 |}
           ((fun fr => elems [[rgb 0 0 0; rgb 255 0 0]; [rgb 0 0 0; rgb 255 0 0]] (Mode fr))
              <$> [mkFrame "frames/img000001.png" (rgb 0 0 0) (rgb 0 0 0) (Some 1%nat)])
         = Done img)
      \/ genLineColImage {| width := 4; lineHeight := 1; avgSqr := false; genMode := 2 |}
           ((fun fr => elems [[rgb 0 0 0; rgb 255 0 0]; [rgb 0 0 0; rgb 255 0 0]] (Mode fr))
              <$> [mkFrame "frames/img000001.png" (rgb 0 0 0) (rgb 0 0 0) (Some 1%nat)])
         = Panic HugeImage).
Proof.
  apply (mode_palettes_full (fun _ => ref_runtime)
           {| width := 4; lineHeight := 1; avgSqr := false; genMode := 2 |}
           {| genAvg := false; genMed := false |}
           {| ReadDir := fun _ => Some [ {| Name := "img000001.png"; IsDir := false |} ];
              Decode := fun _ => Some {| Bounds := image_Rect 0 0 2 1;
                                         ColorAt := fun x _ => (65535 * x, 0, 0, 65535) |} |}
           "out/frames/" []
           [mkFrame "frames/img000001.png" (rgb 0 0 0) (rgb 0 0 0) (Some 1%nat)]
           [[rgb 0 0 0; rgb 255 0 0]; [rgb 0 0 0; rgb 255 0 0]]
           (fun _ => ref_runtime_ok)).
  - cbn. lia.
  - vm_compute. reflexivity.
Defined.

(** ** The rank of the median *)

Lemma sorted_by_split {A : Type} (less : A -> A -> bool) (pre post : list A) c :
  sorted_by less (pre ++ c :: post) ->
  Forall (fun x => less c x = false) pre /\ Forall (fun x => less x c = false) post.
Proof.
  unfold sorted_by. intros Hs. split.
  - apply Forall_forall. intros x Hx.
    apply (StronglySorted_app_1_elem_of _ _ _ _ _ Hs Hx). left.
  - apply StronglySorted_app_1_r in Hs. apply StronglySorted_inv in Hs as [_ Hc].
    exact Hc.
Qed.

Lemma filter_none {A : Type} (P : A -> Prop) `{forall x, Decision (P x)} (l : list A) :
  Forall (fun x => ~ P x) l -> filter P l = [].
Proof.
  induction 1 as [|x l Hx _ IH]; [reflexivity|].
  rewrite filter_cons_False by exact Hx. exact IH.
Qed.

(** On a non-empty grid the colour [getMedian] returns is a median of the
    hues, whatever order the sort leaves equal hues in: at most [len / 2]
    pixels have a hue below its hue and at most [(len - 1) / 2] pixels have
    a hue above it. *)
Theorem getMedian_rank rt h (pixels : slice) :
  RuntimeOK rt -> (pixels < length h)%nat -> contents h pixels <> [] ->
  exists c h',
    getMedian rt pixels h = Done (c, h')
    /\ (length (filter (fun p => Less p c = true) (contents h pixels))
        <= length (contents h pixels) / 2)%nat
    /\ (length (filter (fun p => Less c p = true) (contents h pixels))
        <= (length (contents h pixels) - 1) / 2)%nat.
Proof.
  intros Hrt Hp Hne. rewrite getMedian_run by exact Hp. cbn zeta.
  set (ps := contents h pixels) in *.
  set (sorted := sort_Sort rt RGBList ps).
  assert (Hperm : sorted ≡ₚ ps) by apply sort_Sort_perm, Hrt.
  assert (Hsorted : sorted_by (@Less RGB RGBList) sorted)
    by (apply sort_Sort_sorted; [exact Hrt|exact RGBList_Less_swo]).
  assert (Hlen := Permutation_length Hperm).
  assert (Hn : (0 < length ps)%nat) by (destruct ps; [contradiction|cbn [length]; lia]).
  assert (Hidx : Z.to_nat (Z.quot (Z.of_nat (length sorted)) 2) = (length ps / 2)%nat).
  { rewrite Hlen, Z.quot_div_nonneg by lia.
    change 2 with (Z.of_nat 2). rewrite <- Nat2Z.inj_div. apply Nat2Z.id. }
  rewrite Hidx.
  assert (Hk : (length ps / 2 < length sorted)%nat).
  { rewrite Hlen. apply Nat.div_lt; lia. }
  destruct (lookup_lt_is_Some_2 sorted _ Hk) as [c Hc]. rewrite Hc.
  exists c, (h ++ [sorted]). split; [reflexivity|].
  pose proof (take_drop_middle sorted _ c Hc) as Hmid.
  rewrite <- Hmid in Hsorted. apply sorted_by_split in Hsorted as [Hpre Hpost].
  assert (Hlpre : length (take (length ps / 2) sorted) = (length ps / 2)%nat)
    by (rewrite length_take; lia).
  assert (Hlpost : length (drop (S (length ps / 2)) sorted)
                   = (length ps - S (length ps / 2))%nat)
    by (rewrite length_drop; lia).
  assert (Hirr : Less c c = false) by apply (swo_irrefl _ RGBList_Less_swo).
  assert (Hcount : forall (P : RGB -> Prop) (HP : forall x, Decision (P x)),
            length (filter P ps)
            = (length (filter P (take (length ps / 2) sorted))
               + length (filter P (c :: drop (S (length ps / 2)) sorted)))%nat).
  { intros P HP. rewrite <- length_app, <- filter_app, Hmid.
    apply Permutation_length. rewrite Hperm. reflexivity. }
  split.
  - rewrite Hcount, (filter_none _ (c :: drop _ sorted)).
    + cbn [length]. rewrite Nat.add_0_r.
      etransitivity; [apply length_filter|]. lia.
    + constructor; [rewrite Hirr; discriminate|].
      eapply Forall_impl; [exact Hpost|]. cbn. intros x Hx. rewrite Hx. discriminate.
  - rewrite Hcount, (filter_none _ (take _ sorted)).
    + cbn [length]. rewrite filter_cons_False by (rewrite Hirr; discriminate).
      etransitivity; [apply length_filter|]. rewrite Hlpost.
      pose proof (Nat.div_mod_eq (length ps) 2) as Hdm.
      pose proof (Nat.mod_upper_bound (length ps) 2 ltac:(lia)) as Hm.
      apply Nat.div_le_lower_bound; lia.
    + eapply Forall_impl; [exact Hpre|]. cbn. intros x Hx. rewrite Hx. discriminate.
Qed.

Lemma getMedian_rank_witness :
  exists c h',
    getMedian ref_runtime 0%nat [[rgb 0 0 255; rgb 0 255 0; rgb 255 0 0; rgb 255 255 0]]
    = Done (c, h')
    /\ (length (filter (fun p => Less p c = true)
                  [rgb 0 0 255; rgb 0 255 0; rgb 255 0 0; rgb 255 255 0]) <= 4 / 2)%nat
    /\ (length (filter (fun p => Less c p = true)
                  [rgb 0 0 255; rgb 0 255 0; rgb 255 0 0; rgb 255 255 0]) <= (4 - 1) / 2)%nat.
Proof.
  apply (getMedian_rank ref_runtime
           [[rgb 0 0 255; rgb 0 255 0; rgb 255 0 0; rgb 255 255 0]] 0%nat ref_runtime_ok).
  - cbn. lia.
  - discriminate.
Defined.

(** ** The hue order and the library's sort *)

(** [Less] on [RGBList] is an ordering [sort.Sort] can work with: no colour
    is before itself, the order is transitive, and having neither colour
    before the other is transitive too. No hue is NaN, which would break
    each of the three. *)
Theorem Less_hue_strict_weak :
  (forall a : RGB, Less a a = false)
  /\ (forall a b c : RGB, Less a b = true -> Less b c = true -> Less a c = true)
  /\ (forall a b c : RGB,
        Less a b = false -> Less b a = false ->
        Less b c = false -> Less c b = false ->
        Less a c = false /\ Less c a = false)
  /\ (forall a : RGB, F64.is_nan (HSL.H (ToHSL a)) = false).
Proof.
  destruct RGBList_Less_swo as [Hirr Htrans Hinc].
  split; [exact Hirr|]. split; [exact Htrans|]. split; [exact Hinc|].
  intros a. pose proof (ToHSL_H_finite a) as Hf.
  destruct (HSL.H (ToHSL a)); try discriminate; reflexivity.
Qed.

(** ** The size of the palette *)

(** [getMode] panics in [make], with a length out of range and whatever
    the pixels are, when [genMode] is negative, and when the palette, of
    three bytes an entry, is over the allocation limit (on a heap whose
    arrays are within the limit, as those of the program are). For a
    [genMode] that is not negative and within the limit it returns a fresh
    slice and leaves the heap it was given as it was. *)
Theorem getMode_palette_size rt g h (pixels : slice) :
  (genMode g < 0 -> getMode rt g pixels h = Panic MakeSliceLen)
  /\ (maxAlloc < 3 * genMode g ->
      Forall (fun l => 3 * Z.of_nat (length l) <= maxAlloc) h ->
      getMode rt g pixels h = Panic MakeSliceLen)
  /\ (0 <= genMode g -> 3 * genMode g <= maxAlloc ->
      exists l, getMode rt g pixels h = Done (length h, h ++ [l])).
Proof.
  split; [|split].
  - intros HN. apply getMode_make_panics. unfold make.
    destruct (Z.ltb_spec (genMode g) 0) as [_|?]; [reflexivity|lia].
  - intros Hover Hh. apply getMode_make_panics, make_over; assumption.
  - intros HN Hmax. eexists. apply getMode_after_make, make_within; assumption.
Qed.

Lemma getMode_palette_size_witness :
  getMode ref_runtime {| width := 4; lineHeight := 1; avgSqr := false; genMode := -1 |}
          0%nat [[rgb 1 2 3]] = Panic MakeSliceLen
  /\ getMode ref_runtime {| width := 4; lineHeight := 1; avgSqr := false; genMode := 2 ^ 62 |}
             0%nat [[rgb 1 2 3]] = Panic MakeSliceLen
  /\ exists l,
       getMode ref_runtime {| width := 4; lineHeight := 1; avgSqr := false; genMode := 2 |}
               0%nat [[rgb 1 2 3]] = Done (1%nat, [[rgb 1 2 3]] ++ [l]).
Proof.
  split; [|split].
  - apply (proj1 (getMode_palette_size ref_runtime
                    {| width := 4; lineHeight := 1; avgSqr := false; genMode := -1 |}
                    [[rgb 1 2 3]] 0%nat)).
    cbn. lia.
  - apply (proj1 (proj2 (getMode_palette_size ref_runtime
                    {| width := 4; lineHeight := 1; avgSqr := false; genMode := 2 ^ 62 |}
                    [[rgb 1 2 3]] 0%nat))).
    + cbn. unfold maxAlloc. lia.
    + repeat constructor. cbn. unfold maxAlloc. lia.
  - apply (proj2 (proj2 (getMode_palette_size ref_runtime
                    {| width := 4; lineHeight := 1; avgSqr := false; genMode := 2 |}
                    [[rgb 1 2 3]] 0%nat))).
    + cbn. lia.
    + cbn. unfold maxAlloc. lia.
Defined.

(** ** binary64: normal forms and comparison *)

Lemma binary_round_aux_canonical s mx ex lx :
  0 <= mx ->
  ex <= fexp F64.prec F64.emax (Zdigits2 mx + ex) ->
  canonical (binary_round_aux F64.prec F64.emax s mx ex lx).
Proof.
  intros Hmx Hex.
  destruct (binary_round_aux_spec s mx ex lx Hmx Hex)
    as (m2 & m3 & e3 & -> & Hm2 & Hexact & Hm3 & He3 & Hval & Hn1 & Hn3 & He1).
  destruct m3 as [|p|p]; [exact I| |exact I].
  destruct (e3 <=? 971); [|exact I].
  cbn [canonical]. split; [lia|]. split; [lia|exact Hn3].
Qed.

Lemma binary_round_canonical (s : bool) mx ex :
  canonical (binary_round F64.prec F64.emax s mx ex).
Proof.
  unfold binary_round, shl_align.
  change (Zpos (digits2_pos mx)) with (Zdigits2 (Zpos mx)).
  set (e1 := fexp F64.prec F64.emax (Zdigits2 (Zpos mx) + ex)).
  destruct (e1 - ex) as [|d|d] eqn:Hd.
  - apply binary_round_aux_canonical; [lia|fold e1; lia].
  - apply binary_round_aux_canonical; [lia|fold e1; lia].
  - apply binary_round_aux_canonical; [lia|].
    rewrite Pos_iter_xO, Zdigits2_shift by lia.
    replace (Zdigits2 (Zpos mx) + Zpos d + e1) with (Zdigits2 (Zpos mx) + ex) by lia.
    fold e1. lia.
Qed.

Lemma binary_normalize_canonical z e :
  canonical (binary_normalize F64.prec F64.emax z e false).
Proof.
  destruct z as [|p|p]; cbn [binary_normalize]; [exact I| |]; apply binary_round_canonical.
Qed.

Lemma of_Z_canonical z : canonical (F64.of_Z z).
Proof. apply binary_normalize_canonical. Qed.

Lemma add_canonical x y : canonical x -> canonical y -> canonical (F64.add x y).
Proof.
  intros Hx Hy. unfold F64.add.
  destruct x as [sx|sx| |sx mx ex], y as [sy|sy| |sy my ey]; cbn [SFadd];
    try exact I; try assumption.
  - destruct sx, sy; exact I.
  - destruct sx, sy; exact I.
  - apply binary_normalize_canonical.
Qed.

Lemma sub_canonical x y : canonical x -> canonical y -> canonical (F64.sub x y).
Proof.
  intros Hx Hy. unfold F64.sub.
  destruct x as [sx|sx| |sx mx ex], y as [sy|sy| |sy my ey]; cbn [SFsub];
    try exact I; try assumption.
  - destruct sx, sy; exact I.
  - destruct sx, sy; exact I.
  - apply binary_normalize_canonical.
Qed.

Lemma div_canonical x y : canonical (F64.div x y).
Proof.
  unfold F64.div.
  destruct x as [sx|sx| |sx mx ex], y as [sy|sy| |sy my ey]; cbn [SFdiv]; try exact I.
  destruct (SFdiv_core_binary_spec mx ex my ey) as (q & e' & l & -> & Hq & He & _).
  apply binary_round_aux_canonical; assumption.
Qed.

Lemma magnitude_lt_1 m1 e1 m2 e2 :
  0 < m1 < 2 ^ 53 -> -1074 <= e1 ->
  0 < m2 -> (-1074 < e2 -> 2 ^ 52 <= m2) ->
  e1 < e2 \/ (e1 = e2 /\ m1 < m2) ->
  (inject_Z m1 * 2 ^ e1 < inject_Z m2 * 2 ^ e2)%Q.
Proof.
  intros Hm1 He1 Hm2 Hn2 [Hlt|[-> Hlt]].
  - pose proof (Qpow2_pos e1) as Hp1.
    assert (Hstep : (2 * 2 ^ e1 <= 2 ^ e2)%Q).
    { assert (E : (2 * 2 ^ e1 == 2 ^ (1 + e1))%Q) by (rewrite Qpow2_add; reflexivity).
      rewrite E. apply Qpow2_le. lia. }
    assert (H1 : (inject_Z m1 < 9007199254740992)%Q).
    { change 9007199254740992%Q with (inject_Z (2 ^ 53)). rewrite <- Zlt_Qlt. lia. }
    assert (H2 : (4503599627370496 <= inject_Z m2)%Q).
    { change 4503599627370496%Q with (inject_Z (2 ^ 52)). rewrite <- Zle_Qle. apply Hn2. lia. }
    nra.
  - pose proof (Qpow2_pos e2) as Hp. rewrite Zlt_Qlt in Hlt. nra.
Qed.

Lemma magnitude_lt m1 e1 m2 e2 :
  0 < m1 < 2 ^ 53 -> -1074 <= e1 -> (-1074 < e1 -> 2 ^ 52 <= m1) ->
  0 < m2 < 2 ^ 53 -> -1074 <= e2 -> (-1074 < e2 -> 2 ^ 52 <= m2) ->
  (e1 < e2 \/ (e1 = e2 /\ m1 < m2)
   <-> (inject_Z m1 * 2 ^ e1 < inject_Z m2 * 2 ^ e2)%Q).
Proof.
  intros Hm1 He1 Hn1 Hm2 He2 Hn2. split.
  - apply magnitude_lt_1; assumption || lia.
  - intros Hlt.
    destruct (Z.lt_trichotomy e1 e2) as [?|[->|Hgt]]; [auto| |].
    + destruct (Z.lt_trichotomy m1 m2) as [?|[->|Hgt]]; [auto| |].
      * exfalso. apply (Qlt_irrefl _ Hlt).
      * exfalso. pose proof (Qpow2_pos e2) as Hp. rewrite Zlt_Qlt in Hgt. nra.
    + exfalso.
      pose proof (magnitude_lt_1 m2 e2 m1 e1 Hm2 He2 ltac:(lia) Hn1 ltac:(left; exact Hgt)).
      apply (Qlt_irrefl (inject_Z m1 * 2 ^ e1)). eapply Qlt_trans; eassumption.
Qed.

(** On finite values in normal form [<] compares the values. *)
Lemma ltb_to_Q x y :
  F64.is_finite x = true -> F64.is_finite y = true -> canonical x -> canonical y ->
  (F64.ltb x y = true <-> (F64.to_Q x < F64.to_Q y)%Q).
Proof.
  intros Hfx Hfy Hcx Hcy. rewrite (ltb_key x y Hfx Hfy).
  destruct x as [sx|sx| |sx mx ex], y as [sy|sy| |sy my ey]; try discriminate;
    unfold F64.order_key, F64.key_lt; rewrite ?to_Q_finite; cbn [F64.to_Q].
  - split; [lia|]. intros H. exfalso. apply (Qlt_irrefl _ H).
  - pose proof (Qpow2_pos ey). pose proof (inject_Z_pos (Zpos my) ltac:(lia)).
    destruct sy; split; try lia; intros; try nra.
  - pose proof (Qpow2_pos ex). pose proof (inject_Z_pos (Zpos mx) ltac:(lia)).
    destruct sx; split; try lia; intros; try nra.
  - destruct Hcx as (Hmx & Hex & Hnx), Hcy as (Hmy & Hey & Hny).
    pose proof (Qpow2_pos ex). pose proof (inject_Z_pos (Zpos mx) ltac:(lia)).
    pose proof (Qpow2_pos ey). pose proof (inject_Z_pos (Zpos my) ltac:(lia)).
    pose proof (magnitude_lt (Zpos mx) ex (Zpos my) ey ltac:(lia) Hex Hnx ltac:(lia) Hey Hny)
      as Hxy.
    pose proof (magnitude_lt (Zpos my) ey (Zpos mx) ex ltac:(lia) Hey Hny ltac:(lia) Hex Hnx)
      as Hyx.
    destruct sx, sy.
    + split.
      * intros Hk. assert (Hm : ey < ex \/ (ey = ex /\ Zpos my < Zpos mx)) by lia.
        apply Hyx in Hm. nra.
      * intros Hq. assert (Hm : (inject_Z (Zpos my) * 2 ^ ey < inject_Z (Zpos mx) * 2 ^ ex)%Q)
          by nra.
        apply Hyx in Hm. lia.
    + split; [intros _; nra|intros _; lia].
    + split; [lia|intros Hq; nra].
    + split.
      * intros Hk. assert (Hm : ex < ey \/ (ex = ey /\ Zpos mx < Zpos my)) by lia.
        apply Hxy in Hm. nra.
      * intros Hq. assert (Hm : (inject_Z (Zpos mx) * 2 ^ ex < inject_Z (Zpos my) * 2 ^ ey)%Q)
          by nra.
        apply Hxy in Hm. lia.
Qed.

Lemma ltb_false_to_Q x y :
  F64.is_finite x = true -> F64.is_finite y = true -> canonical x -> canonical y ->
  (F64.ltb x y = false <-> (F64.to_Q y <= F64.to_Q x)%Q).
Proof.
  intros Hfx Hfy Hcx Hcy. pose proof (ltb_to_Q x y Hfx Hfy Hcx Hcy) as Hiff.
  destruct (F64.ltb x y); split.
  - discriminate.
  - intros Hle. exfalso. assert (F64.to_Q x < F64.to_Q y)%Q by (apply Hiff; reflexivity).
    apply (Qlt_irrefl (F64.to_Q x)). eapply Qlt_le_trans; eassumption.
  - intros _. apply Qnot_lt_le. intros Hlt. apply Hiff in Hlt. discriminate.
  - reflexivity.
Qed.

(** Values that [==] finds equal have the same value. *)
Lemma eqb_to_Q x y :
  F64.is_finite x = true -> F64.is_finite y = true ->
  F64.eqb x y = true -> (F64.to_Q x == F64.to_Q y)%Q.
Proof.
  intros Hfx Hfy. unfold F64.eqb, SFeqb.
  destruct x as [sx|sx| |sx mx ex], y as [sy|sy| |sy my ey]; try discriminate;
    cbn [SFcompare].
  - reflexivity.
  - destruct sy; discriminate.
  - destruct sx; discriminate.
  - change (PosDef.Pos.compare_cont Eq mx my) with (Pos.compare mx my).
    destruct sx, sy; try discriminate;
      destruct (Z.compare_spec ex ey); try discriminate;
      destruct (Pos.compare_spec mx my); try discriminate; subst; reflexivity.
Qed.

Lemma Max_to_Q x y :
  F64.is_finite x = true -> F64.is_finite y = true -> canonical x -> canonical y ->
  (F64.Max x y = x \/ F64.Max x y = y)
  /\ (F64.to_Q x <= F64.to_Q (F64.Max x y))%Q
  /\ (F64.to_Q y <= F64.to_Q (F64.Max x y))%Q.
Proof.
  intros Hfx Hfy Hcx Hcy.
  assert (Hgen : (if F64.ltb y x then x else y) = x \/ (if F64.ltb y x then x else y) = y)
    by (destruct (F64.ltb y x); auto).
  assert (Hord : (F64.to_Q x <= F64.to_Q (if F64.ltb y x then x else y))%Q
                 /\ (F64.to_Q y <= F64.to_Q (if F64.ltb y x then x else y))%Q).
  { destruct (F64.ltb y x) eqn:Hlt.
    - apply ltb_to_Q in Hlt; try assumption. split; [apply Qle_refl|apply Qlt_le_weak, Hlt].
    - apply ltb_false_to_Q in Hlt; try assumption. split; [exact Hlt|apply Qle_refl]. }
  unfold F64.Max.
  destruct x as [sx|sx| |sx mx ex], y as [sy|sy| |sy my ey]; try discriminate;
    try (split; [exact Hgen|exact Hord]).
  destruct sx; (split; [auto|split; apply Qle_refl]).
Qed.

Lemma Min_to_Q x y :
  F64.is_finite x = true -> F64.is_finite y = true -> canonical x -> canonical y ->
  (F64.Min x y = x \/ F64.Min x y = y)
  /\ (F64.to_Q (F64.Min x y) <= F64.to_Q x)%Q
  /\ (F64.to_Q (F64.Min x y) <= F64.to_Q y)%Q.
Proof.
  intros Hfx Hfy Hcx Hcy.
  assert (Hgen : (if F64.ltb x y then x else y) = x \/ (if F64.ltb x y then x else y) = y)
    by (destruct (F64.ltb x y); auto).
  assert (Hord : (F64.to_Q (if F64.ltb x y then x else y) <= F64.to_Q x)%Q
                 /\ (F64.to_Q (if F64.ltb x y then x else y) <= F64.to_Q y)%Q).
  { destruct (F64.ltb x y) eqn:Hlt.
    - apply ltb_to_Q in Hlt; try assumption. split; [apply Qle_refl|apply Qlt_le_weak, Hlt].
    - apply ltb_false_to_Q in Hlt; try assumption. split; [exact Hlt|apply Qle_refl]. }
  unfold F64.Min.
  destruct x as [sx|sx| |sx mx ex], y as [sy|sy| |sy my ey]; try discriminate;
    try (split; [exact Hgen|exact Hord]).
  destruct sx; (split; [auto|split; apply Qle_refl]).
Qed.

Lemma representable_dyadic m e :
  Z.abs m < 2 ^ 53 -> -1074 <= e <= 971 -> F64.representable (inject_Z m * 2 ^ e).
Proof. intros Hm He. exists m, e. split; [exact Hm|]. split; [exact He|reflexivity]. Qed.

(** A finite value in normal form between 1/2 and 1 is a multiple of
    [2^-53]. *)
Lemma half_grid x :
  F64.is_finite x = true -> canonical x ->
  (1 # 2 <= F64.to_Q x)%Q -> (F64.to_Q x < 1)%Q ->
  exists k, 0 < k < 2 ^ 53 /\ (F64.to_Q x == inject_Z k * 2 ^ (-53))%Q.
Proof.
  intros Hf Hc Hlo Hhi. destruct x as [s|s| |s m e]; try discriminate.
  - cbn in Hlo. exfalso. revert Hlo. apply Qlt_not_le. reflexivity.
  - destruct Hc as (Hm & He & Hn). rewrite to_Q_finite in Hlo, Hhi.
    pose proof (Qpow2_pos e) as Hp. pose proof (inject_Z_pos (Zpos m) ltac:(lia)) as Hmp.
    destruct s; [exfalso; nra|]. rewrite Qmult_1_l in Hlo, Hhi.
    assert (Hm53 : (inject_Z (Zpos m) < 9007199254740992)%Q).
    { change 9007199254740992%Q with (inject_Z (2 ^ 53)). rewrite <- Zlt_Qlt. exact Hm. }
    assert (He1 : -53 <= e).
    { destruct (Z.le_gt_cases (-53) e) as [?|Hlt]; [assumption|]. exfalso.
      assert (Hpe : (2 ^ e <= 2 ^ (-54))%Q) by (apply Qpow2_le; lia).
      change (2 ^ (-54))%Q with (1 # 18014398509481984)%Q in Hpe. nra. }
    assert (He2 : e <= -53).
    { destruct (Z.le_gt_cases e (-53)) as [?|Hgt]; [assumption|]. exfalso.
      assert (Hpe : (2 ^ (-52) <= 2 ^ e)%Q) by (apply Qpow2_le; lia).
      change (2 ^ (-52))%Q with (1 # 4503599627370496)%Q in Hpe.
      assert (H52 : (4503599627370496 <= inject_Z (Zpos m))%Q).
      { change 4503599627370496%Q with (inject_Z (2 ^ 52)). rewrite <- Zle_Qle. apply Hn. lia. }
      nra. }
    assert (e = -53) by lia. subst e.
    exists (Zpos m). split; [lia|]. rewrite to_Q_finite. ring.
Qed.

(** ** The range of the hue *)

(** Each of [r2], [g2], [b2] of [ToHSL] lies between 1/2 and 11/16. *)
Lemma part_range max x delta M X d :
  F64.is_finite max = true -> (F64.to_Q max == inject_Z M)%Q ->
  F64.is_finite x = true -> (F64.to_Q x == inject_Z X)%Q ->
  F64.is_finite delta = true -> (F64.to_Q delta == inject_Z d)%Q ->
  0 <= M - X <= d -> 1 <= d <= 255 ->
  F64.is_finite
    (F64.div (F64.add (F64.div (F64.sub max x) (F64.of_Z 6))
                      (F64.div delta (F64.of_Z 2))) delta) = true
  /\ (1 # 2 <= F64.to_Q
        (F64.div (F64.add (F64.div (F64.sub max x) (F64.of_Z 6))
                          (F64.div delta (F64.of_Z 2))) delta) <= 11 # 16)%Q.
Proof.
  intros Hfmax Hqmax Hfx Hqx Hfd Hqd Hn Hd.
  assert (H53 : forall n, Z.abs n <= 5000 -> Z.abs n < 2 ^ 53).
  { intros n Hle. change (2 ^ 53) with 9007199254740992. lia. }
  set (D := inject_Z d) in *.
  assert (HD : (1 <= D <= 255)%Q).
  { unfold D. change 1%Q with (inject_Z 1). change 255%Q with (inject_Z 255).
    rewrite <- !Zle_Qle. exact Hd. }
  (* max - x *)
  destruct (sub_exact max x Hfmax Hfx) as [Hf1 Hq1].
  { apply (representable_ext (inject_Z (M - X))).
    - rewrite Hqmax, Hqx. unfold Z.sub. rewrite inject_Z_plus, inject_Z_opp. ring.
    - apply representable_Z. change (2 ^ 53) with 9007199254740992. lia. }
  set (t1 := F64.sub max x) in *.
  assert (Hq1' : (0 <= F64.to_Q t1 <= D)%Q).
  { rewrite Hq1, Hqmax, Hqx. unfold D.
    assert (E : (inject_Z M - inject_Z X == inject_Z (M - X))%Q)
      by (unfold Z.sub; rewrite inject_Z_plus, inject_Z_opp; ring).
    rewrite E. change 0%Q with (inject_Z 0). rewrite <- !Zle_Qle. exact Hn. }
  (* the constants *)
  destruct (of_Z_exact 6) as (Hf6 & Hq6 & _); [change (2 ^ 53) with 9007199254740992; lia|].
  destruct (of_Z_exact 2) as (Hf2 & Hq2 & _); [change (2 ^ 53) with 9007199254740992; lia|].
  change (inject_Z 6) with 6%Q in Hq6. change (inject_Z 2) with 2%Q in Hq2.
  (* (max - x) / 6 *)
  destruct (div_bounds t1 (F64.of_Z 6) 0 (inject_Z (3 * d) * 2 ^ (-4)) Hf1 Hf6) as [Hf2' Hq2'].
  { rewrite Hq6. intros E. discriminate E. }
  { apply representable_0. }
  { apply representable_dyadic; [apply H53; lia|lia]. }
  { rewrite Hq6, inject_Z_mult. fold D. change (inject_Z 3) with 3%Q.
    change (2 ^ (-4))%Q with (1 # 16)%Q. split.
    - apply Qle_shift_div_l; [reflexivity|]. lra.
    - apply Qle_shift_div_r; [reflexivity|]. lra. }
  set (t2 := F64.div t1 (F64.of_Z 6)) in *.
  rewrite inject_Z_mult in Hq2'. fold D in Hq2'. change (inject_Z 3) with 3%Q in Hq2'.
  change (2 ^ (-4))%Q with (1 # 16)%Q in Hq2'.
  (* delta / 2 *)
  destruct (div_bounds delta (F64.of_Z 2) (inject_Z d * 2 ^ (-1)) (inject_Z d * 2 ^ (-1)) Hfd Hf2)
    as [Hf3 Hq3].
  { rewrite Hq2. intros E. discriminate E. }
  { apply representable_dyadic; [apply H53; lia|lia]. }
  { apply representable_dyadic; [apply H53; lia|lia]. }
  { rewrite Hq2, Hqd. fold D. change (2 ^ (-1))%Q with (1 # 2)%Q. split.
    - apply Qle_shift_div_l; [reflexivity|]. lra.
    - apply Qle_shift_div_r; [reflexivity|]. lra. }
  set (t3 := F64.div delta (F64.of_Z 2)) in *.
  fold D in Hq3. change (2 ^ (-1))%Q with (1 # 2)%Q in Hq3.
  (* the sum *)
  destruct (add_bounds t2 t3 (inject_Z d * 2 ^ (-1)) (inject_Z (11 * d) * 2 ^ (-4)) Hf2' Hf3)
    as [Hf4 Hq4].
  { apply representable_dyadic; [apply H53; lia|lia]. }
  { apply representable_dyadic; [apply H53; lia|lia]. }
  { rewrite inject_Z_mult. fold D. change (inject_Z 11) with 11%Q.
    change (2 ^ (-1))%Q with (1 # 2)%Q. change (2 ^ (-4))%Q with (1 # 16)%Q. split; lra. }
  set (t4 := F64.add t2 t3) in *.
  rewrite inject_Z_mult in Hq4. fold D in Hq4. change (inject_Z 11) with 11%Q in Hq4.
  change (2 ^ (-1))%Q with (1 # 2)%Q in Hq4. change (2 ^ (-4))%Q with (1 # 16)%Q in Hq4.
  (* the quotient *)
  apply (div_bounds t4 delta (1 # 2) (11 # 16) Hf4 Hfd).
  - rewrite Hqd. fold D. intros E. rewrite E in HD. lra.
  - apply (representable_ext (inject_Z 1 * 2 ^ (-1))); [reflexivity|].
    apply representable_dyadic; [apply H53; lia|lia].
  - apply (representable_ext (inject_Z 11 * 2 ^ (-4))); [reflexivity|].
    apply representable_dyadic; [apply H53; lia|lia].
  - rewrite Hqd. fold D. split.
    + apply Qle_shift_div_l; [lra|]. lra.
    + apply Qle_shift_div_r; [lra|]. lra.
Qed.

Lemma ToHSL_H_canonical c : canonical (HSL.H (ToHSL c)).
Proof.
  unfold ToHSL. cbn zeta.
  destruct (F64.eqb _ F64.zero); cbn [HSL.H]; [exact I|].
  match goal with
  | |- canonical (if F64.ltb ?h _ then _ else _) =>
      assert (Hh : canonical h); [|set (h0 := h) in *]
  end.
  { destruct (F64.eqb _ _); [apply sub_canonical; apply div_canonical|].
    destruct (F64.eqb _ _);
      [apply sub_canonical; [apply add_canonical; apply div_canonical|apply div_canonical]|].
    destruct (F64.eqb _ _);
      [apply sub_canonical; [apply add_canonical; apply div_canonical|apply div_canonical]|].
    exact I. }
  destruct (F64.ltb h0 F64.zero); [apply add_canonical; [exact Hh|apply of_Z_canonical]|].
  destruct (F64.ltb (F64.of_Z 1) h0); [|exact Hh].
  apply sub_canonical; [exact Hh|apply of_Z_canonical].
Qed.

(** The hue [ToHSL] computes is a finite number in [0, 1), for every
    colour. (The saturation and the lightness are computed from the raw
    channel values and are not in that range.) A grey, whose hue is 0, is
    therefore after no colour in the order of [Less]. *)
Theorem ToHSL_hue_range :
  (forall c : RGB,
     F64.is_finite (HSL.H (ToHSL c)) = true
     /\ (0 <= F64.to_Q (HSL.H (ToHSL c)) < 1)%Q)
  /\ (forall (a : RGB) (v : uint8), Less a (mkRGB v v v) = false).
Proof.
  assert (Hrange : forall c : RGB,
            F64.is_finite (HSL.H (ToHSL c)) = true
            /\ (0 <= F64.to_Q (HSL.H (ToHSL c)) < 1)%Q).
  2:{ split; [exact Hrange|]. intros a v. cbn [Less RGBList].
      apply ltb_false_to_Q; try apply ToHSL_H_finite; try apply ToHSL_H_canonical.
      assert (Hgrey : HSL.H (ToHSL (mkRGB v v v)) = F64.zero)
        by (destruct v; vm_compute; reflexivity).
      rewrite Hgrey. apply (Hrange a). }
  intros c.
  assert (H53 : forall n, Z.abs n <= 5000 -> Z.abs n < 2 ^ 53).
  { intros n Hle. change (2 ^ 53) with 9007199254740992. lia. }
  pose (chan := fun (y : F64.t) (z : Z) =>
                  F64.is_finite y = true /\ canonical y
                  /\ 0 <= z <= 255 /\ (F64.to_Q y == inject_Z z)%Q).
  assert (Hch : forall v : uint8, chan (F64.of_Z (u8_to_Z v)) (u8_to_Z v)).
  { intros v. pose proof (u8_to_Z_range v) as Hv.
    destruct (of_Z_exact (u8_to_Z v)) as (Hf & Hq & _);
      [change (2 ^ 53) with 9007199254740992; lia|].
    split; [exact Hf|]. split; [apply of_Z_canonical|]. split; [exact Hv|exact Hq]. }
  assert (HMax : forall x y a b', chan x a -> chan y b' ->
            exists z, chan (F64.Max x y) z /\ a <= z /\ b' <= z).
  { intros x y a b' (Hfx & Hcx & Ha & Hqx) (Hfy & Hcy & Hb & Hqy).
    destruct (Max_to_Q x y Hfx Hfy Hcx Hcy) as ([E|E] & H1 & H2); rewrite E in *.
    - exists a. split; [repeat split; assumption || lia|]. split; [lia|].
      rewrite Hqx, Hqy, <- Zle_Qle in H2. exact H2.
    - exists b'. split; [repeat split; assumption || lia|]. split; [|lia].
      rewrite Hqx, Hqy, <- Zle_Qle in H1. exact H1. }
  assert (HMin : forall x y a b', chan x a -> chan y b' ->
            exists z, chan (F64.Min x y) z /\ z <= a /\ z <= b').
  { intros x y a b' (Hfx & Hcx & Ha & Hqx) (Hfy & Hcy & Hb & Hqy).
    destruct (Min_to_Q x y Hfx Hfy Hcx Hcy) as ([E|E] & H1 & H2); rewrite E in *.
    - exists a. split; [repeat split; assumption || lia|]. split; [lia|].
      rewrite Hqx, Hqy, <- Zle_Qle in H2. exact H2.
    - exists b'. split; [repeat split; assumption || lia|]. split; [|lia].
      rewrite Hqx, Hqy, <- Zle_Qle in H1. exact H1. }
  unfold ToHSL.
  pose proof (Hch (R c)) as Hr. pose proof (Hch (G c)) as Hg. pose proof (Hch (B c)) as Hb.
  set (r := F64.of_Z (u8_to_Z (R c))) in *. set (g := F64.of_Z (u8_to_Z (G c))) in *.
  set (b := F64.of_Z (u8_to_Z (B c))) in *.
  set (zr := u8_to_Z (R c)) in *. set (zg := u8_to_Z (G c)) in *.
  set (zb := u8_to_Z (B c)) in *.
  destruct (HMax r g zr zg Hr Hg) as (M1 & Hrg & HM1r & HM1g).
  destruct (HMax _ b M1 zb Hrg Hb) as (M & Hmax & HMM1 & HMb).
  destruct (HMin r g zr zg Hr Hg) as (m1 & Hrg' & Hm1r & Hm1g).
  destruct (HMin _ b m1 zb Hrg' Hb) as (m & Hmin & Hmm1 & Hmb).
  set (max := F64.Max (F64.Max r g) b) in *. set (min := F64.Min (F64.Min r g) b) in *.
  clear Hrg Hrg' HMax HMin Hch.
  destruct Hr as (Hfr & Hcr & Hzr & Hqr). destruct Hg as (Hfg & Hcg & Hzg & Hqg).
  destruct Hb as (Hfb & Hcb & Hzb & Hqb).
  destruct Hmax as (Hfmax & Hcmax & HzM & Hqmax).
  destruct Hmin as (Hfmin & Hcmin & Hzm & Hqmin).
  set (delta := F64.sub max min).
  destruct (sub_exact max min Hfmax Hfmin) as [Hfd Hqd].
  { apply (representable_ext (inject_Z (M - m))).
    - rewrite Hqmax, Hqmin. unfold Z.sub. rewrite inject_Z_plus, inject_Z_opp. ring.
    - apply representable_Z. change (2 ^ 53) with 9007199254740992. lia. }
  fold delta in Hfd, Hqd.
  assert (Hqd' : (F64.to_Q delta == inject_Z (M - m))%Q).
  { rewrite Hqd, Hqmax, Hqmin. unfold Z.sub. rewrite inject_Z_plus, inject_Z_opp. ring. }
  destruct (F64.eqb delta F64.zero) eqn:Hz.
  { cbn [HSL.H]. split; [reflexivity|]. cbn. split; [apply Qle_refl|reflexivity]. }
  pose proof (nonzero_integer delta _ Hfd Hqd' Hz) as Hd1.
  assert (Hd : 1 <= M - m <= 255).
  { rewrite Hqd' in Hd1. change (Qabs (inject_Z (M - m))) with (inject_Z (Z.abs (M - m))) in Hd1.
    change 1%Q with (inject_Z 1) in Hd1. rewrite <- Zle_Qle in Hd1. lia. }
  destruct (part_range max r delta M zr (M - m) Hfmax Hqmax Hfr Hqr Hfd Hqd' ltac:(lia) Hd)
    as [Hfr2 Hqr2].
  destruct (part_range max g delta M zg (M - m) Hfmax Hqmax Hfg Hqg Hfd Hqd' ltac:(lia) Hd)
    as [Hfg2 Hqg2].
  destruct (part_range max b delta M zb (M - m) Hfmax Hqmax Hfb Hqb Hfd Hqd' ltac:(lia) Hd)
    as [Hfb2 Hqb2].
  cbn zeta.
  set (r2 := F64.div (F64.add (F64.div (F64.sub max r) (F64.of_Z 6))
                              (F64.div delta (F64.of_Z 2))) delta) in *.
  set (g2 := F64.div (F64.add (F64.div (F64.sub max g) (F64.of_Z 6))
                              (F64.div delta (F64.of_Z 2))) delta) in *.
  set (b2 := F64.div (F64.add (F64.div (F64.sub max b) (F64.of_Z 6))
                              (F64.div delta (F64.of_Z 2))) delta) in *.
  assert (Hcr2 : canonical r2) by apply div_canonical.
  assert (Hcg2 : canonical g2) by apply div_canonical.
  assert (Hcb2 : canonical b2) by apply div_canonical.
  destruct (of_Z_exact 1) as (Hf1 & Hq1 & _); [change (2 ^ 53) with 9007199254740992; lia|].
  destruct (of_Z_exact 2) as (Hf2 & Hq2 & _); [change (2 ^ 53) with 9007199254740992; lia|].
  destruct (of_Z_exact 3) as (Hf3 & Hq3 & _); [change (2 ^ 53) with 9007199254740992; lia|].
  change (inject_Z 1) with 1%Q in Hq1. change (inject_Z 2) with 2%Q in Hq2.
  change (inject_Z 3) with 3%Q in Hq3.
  assert (Hdy : forall n e, Z.abs n <= 5000 -> -1074 <= e <= 971 ->
            forall q, (q == inject_Z n * 2 ^ e)%Q -> F64.representable q).
  { intros n e Hn He q Hq. apply (representable_ext (inject_Z n * 2 ^ e)); [symmetry; exact Hq|].
    apply representable_dyadic; [apply H53, Hn|exact He]. }
  (* the hue before the wrap-around, in each of the branches *)
  set (h := if F64.eqb r max then F64.sub b2 g2
            else if F64.eqb g max
                 then F64.sub (F64.add (F64.div (F64.of_Z 1) (F64.of_Z 3)) r2) b2
            else if F64.eqb b max
                 then F64.sub (F64.add (F64.div (F64.of_Z 2) (F64.of_Z 3)) g2) r2
            else F64.zero).
  cbn [HSL.H].
  assert (Hwrap : forall h',
            F64.is_finite h' = true -> canonical h' ->
            (0 <= F64.to_Q h' < 1)%Q ->
            F64.is_finite (if F64.ltb h' F64.zero then F64.add h' (F64.of_Z 1)
                           else if F64.ltb (F64.of_Z 1) h' then F64.sub h' (F64.of_Z 1)
                           else h') = true
            /\ (0 <= F64.to_Q (if F64.ltb h' F64.zero then F64.add h' (F64.of_Z 1)
                               else if F64.ltb (F64.of_Z 1) h' then F64.sub h' (F64.of_Z 1)
                               else h') < 1)%Q).
  { intros h' Hfh Hch [Hh0 Hh1].
    assert (E0 : F64.ltb h' F64.zero = false).
    { apply ltb_false_to_Q; [exact Hfh|reflexivity|exact Hch|exact I|exact Hh0]. }
    assert (E1 : F64.ltb (F64.of_Z 1) h' = false).
    { apply ltb_false_to_Q; [exact Hf1|exact Hfh|apply of_Z_canonical|exact Hch|].
      rewrite Hq1. apply Qlt_le_weak, Hh1. }
    rewrite E0, E1. auto. }
  unfold h. destruct (F64.eqb r max) eqn:Ermax.
  - (* red is the largest channel: b2 - g2, below zero when b2 < g2 *)
    destruct (half_grid b2 Hfb2 Hcb2 ltac:(tauto) ltac:(lra)) as (kb & Hkb & Eb).
    destruct (half_grid g2 Hfg2 Hcg2 ltac:(tauto) ltac:(lra)) as (kg & Hkg & Eg).
    destruct (sub_exact b2 g2 Hfb2 Hfg2) as [Hfh Hqh].
    { apply (representable_ext (inject_Z (kb - kg) * 2 ^ (-53))).
      - rewrite Eb, Eg. unfold Z.sub. rewrite inject_Z_plus, inject_Z_opp. ring.
      - apply representable_dyadic; lia. }
    set (h0 := F64.sub b2 g2) in *.
    assert (Hch0 : canonical h0) by (apply sub_canonical; assumption).
    destruct (F64.ltb h0 F64.zero) eqn:Hneg.
    + apply ltb_to_Q in Hneg; [|exact Hfh|reflexivity|exact Hch0|exact I].
      change (F64.to_Q F64.zero) with 0%Q in Hneg.
      assert (Hk : kb - kg <= -1).
      { rewrite Hqh, Eb, Eg in Hneg.
        assert (E : (inject_Z kb * 2 ^ (-53) - inject_Z kg * 2 ^ (-53)
                     == inject_Z (kb - kg) * 2 ^ (-53))%Q)
          by (unfold Z.sub; rewrite inject_Z_plus, inject_Z_opp; ring).
        rewrite E in Hneg. pose proof (Qpow2_pos (-53)) as Hp.
        assert (Hlt : (inject_Z (kb - kg) < inject_Z 0)%Q) by (change (inject_Z 0) with 0%Q; nra).
        rewrite <- Zlt_Qlt in Hlt. lia. }
      assert (Eh1 : (F64.to_Q h0 + F64.to_Q (F64.of_Z 1)
                     == inject_Z (2 ^ 53 + (kb - kg)) * 2 ^ (-53))%Q).
      { rewrite Hqh, Eb, Eg, Hq1. unfold Z.sub.
        rewrite !inject_Z_plus, inject_Z_opp.
        change (inject_Z (2 ^ 53)) with 9007199254740992%Q.
        change (2 ^ (-53))%Q with (1 # 9007199254740992)%Q. ring. }
      destruct (add_exact h0 (F64.of_Z 1) Hfh Hf1) as [HfH HqH].
      { apply (representable_ext (inject_Z (2 ^ 53 + (kb - kg)) * 2 ^ (-53)));
          [symmetry; exact Eh1|].
        apply representable_dyadic; [|lia].
        change (2 ^ 53) with 9007199254740992 in *. lia. }
      split; [exact HfH|]. rewrite HqH, Eh1.
      change (2 ^ (-53))%Q with (1 # 9007199254740992)%Q.
      assert (Hlo : (inject_Z 0 <= inject_Z (2 ^ 53 + (kb - kg)))%Q)
        by (rewrite <- Zle_Qle; change (2 ^ 53) with 9007199254740992 in *; lia).
      assert (Hhi : (inject_Z (2 ^ 53 + (kb - kg)) <= inject_Z (2 ^ 53 - 1))%Q)
        by (rewrite <- Zle_Qle; lia).
      change (inject_Z 0) with 0%Q in Hlo.
      change (inject_Z (2 ^ 53 - 1)) with 9007199254740991%Q in Hhi.
      split; lra.
    + apply ltb_false_to_Q in Hneg; [|exact Hfh|reflexivity|exact Hch0|exact I].
      change (F64.to_Q F64.zero) with 0%Q in Hneg.
      assert (E1 : F64.ltb (F64.of_Z 1) h0 = false).
      { apply ltb_false_to_Q; [exact Hf1|exact Hfh|apply of_Z_canonical|exact Hch0|].
        rewrite Hq1, Hqh. lra. }
      rewrite E1. split; [exact Hfh|]. split; [exact Hneg|]. rewrite Hqh. lra.
  - destruct (F64.eqb g max) eqn:Egmax; [|destruct (F64.eqb b max) eqn:Ebmax].
    + (* green: 1/3 + r2 - b2 *)
      destruct (div_bounds (F64.of_Z 1) (F64.of_Z 3) (5 # 16) (3 # 8) Hf1 Hf3) as [Hft Hqt].
      { rewrite Hq3. intros E. discriminate E. }
      { apply (Hdy 5 (-4)); [lia|lia|reflexivity]. }
      { apply (Hdy 3 (-3)); [lia|lia|reflexivity]. }
      { rewrite Hq1, Hq3. split; [apply Qle_shift_div_l|apply Qle_shift_div_r]; reflexivity || lra. }
      set (third := F64.div (F64.of_Z 1) (F64.of_Z 3)) in *.
      destruct (add_bounds third r2 (13 # 16) (17 # 16) Hft Hfr2) as [Hfu Hqu].
      { apply (Hdy 13 (-4)); [lia|lia|reflexivity]. }
      { apply (Hdy 17 (-4)); [lia|lia|reflexivity]. }
      { split; lra. }
      destruct (sub_bounds (F64.add third r2) b2 (1 # 8) (9 # 16) Hfu Hfb2) as [Hfh Hqh].
      { apply (Hdy 1 (-3)); [lia|lia|reflexivity]. }
      { apply (Hdy 9 (-4)); [lia|lia|reflexivity]. }
      { split; lra. }
      apply Hwrap; [exact Hfh| |split; lra].
      apply sub_canonical; [apply add_canonical; [apply div_canonical|exact Hcr2]|exact Hcb2].
    + (* blue: 2/3 + g2 - r2 *)
      destruct (div_bounds (F64.of_Z 2) (F64.of_Z 3) (5 # 8) (3 # 4) Hf2 Hf3) as [Hft Hqt].
      { rewrite Hq3. intros E. discriminate E. }
      { apply (Hdy 5 (-3)); [lia|lia|reflexivity]. }
      { apply (Hdy 3 (-2)); [lia|lia|reflexivity]. }
      { rewrite Hq2, Hq3. split; [apply Qle_shift_div_l|apply Qle_shift_div_r]; reflexivity || lra. }
      set (twothirds := F64.div (F64.of_Z 2) (F64.of_Z 3)) in *.
      destruct (add_bounds twothirds g2 (9 # 8) (23 # 16) Hft Hfg2) as [Hfu Hqu].
      { apply (Hdy 9 (-3)); [lia|lia|reflexivity]. }
      { apply (Hdy 23 (-4)); [lia|lia|reflexivity]. }
      { split; lra. }
      destruct (sub_bounds (F64.add twothirds g2) r2 (7 # 16) (15 # 16) Hfu Hfr2) as [Hfh Hqh].
      { apply (Hdy 7 (-4)); [lia|lia|reflexivity]. }
      { apply (Hdy 15 (-4)); [lia|lia|reflexivity]. }
      { split; lra. }
      apply Hwrap; [exact Hfh| |split; lra].
      apply sub_canonical; [apply add_canonical; [apply div_canonical|exact Hcg2]|exact Hcr2].
    + apply Hwrap; [reflexivity|exact I|]. cbn. split; [apply Qle_refl|reflexivity].
Qed.

(** [Less] compares the hues as numbers: a colour is before another exactly
    when its hue is the smaller one. *)
Theorem Less_compares_hue (a b : RGB) :
  Less a b = true <-> (F64.to_Q (HSL.H (ToHSL a)) < F64.to_Q (HSL.H (ToHSL b)))%Q.
Proof.
  cbn [Less RGBList].
  apply ltb_to_Q; try apply ToHSL_H_finite; apply ToHSL_H_canonical.
Qed.

(** ** From the frames to the line images *)

(** The line image of one colour per frame, when each colour is related to
    the file of its frame. *)
Lemma field_image_bands g (sel : Frame -> RGB) (P : nat -> FileInfo -> RGB -> Prop)
    (regular : list FileInfo) (frames : list Frame) :
  length frames = length regular ->
  (forall (i : nat) file, regular !! i = Some file ->
     exists fr, frames !! i = Some fr /\ P i file (sel fr)) ->
  0 < width g -> 4 * width g <= max_int -> 0 < lineHeight g ->
  4 * width g * (Z.of_nat (length regular) * lineHeight g) <= maxAlloc ->
  exists img,
    genLineImage g (sel <$> frames) = Done img
    /\ forall (i : nat) file x y,
         regular !! i = Some file ->
         0 <= x < width g ->
         Z.of_nat i * lineHeight g <= y < Z.of_nat i * lineHeight g + lineHeight g ->
         exists c, P i file c /\ img_At img x y = RGB_RGBA c.
Proof.
  intros Hlen Hall HW HW4 HL Hmax.
  set (K := Z.of_nat (length (sel <$> frames))).
  assert (HK : K = Z.of_nat (length regular)) by (unfold K; rewrite length_fmap, Hlen; reflexivity).
  assert (HK0 : 0 <= K) by (unfold K; lia).
  assert (HKL : 0 <= K * lineHeight g <= max_int)
    by (rewrite HK; unfold max_int, maxAlloc in *; nia).
  unfold genLineImage. fold K.
  rewrite (int_wrap_small (K * lineHeight g)) by (unfold max_int in *; lia).
  rewrite NewRGBA_ok by (rewrite ?HK; lia). cbn [mbind outcome_bind].
  destruct (line_rows_spec g (sel <$> frames) 0
              {| Rect := {| MinX := 0; MinY := 0; MaxX := width g; MaxY := K * lineHeight g |};
                 Pix := ∅ |})
    as (img & Himg & HR & Hhit & _); [lia|exact HL|fold K; lia|].
  exists img. split; [exact Himg|].
  intros i file x y Hi Hx Hy.
  destruct (Hall i file Hi) as (fr & Hfr & HP).
  exists (sel fr). split; [exact HP|].
  apply (Hhit i (sel fr) x y); [rewrite list_lookup_fmap, Hfr; reflexivity|exact Hx|lia|].
  apply lookup_lt_Some in Hi. cbn [Rect]. unfold in_rect. cbn [MinX MinY MaxX MaxY].
  assert (Z.of_nat i + 1 <= K) by (rewrite HK; lia).
  assert (y < K * lineHeight g) by nia.
  assert (0 <= y) by nia.
  repeat (apply andb_true_intro; split); lia.
Qed.

(** End to end, for the two line images: when the directory can be read,
    its regular files decode, [make] allocates the palettes (three bytes an
    entry, within the allocation limit) and [image.NewRGBA] the raster
    ([4 * W] is an [int] and the buffer, of [4 * W * K * L] bytes for [K]
    regular files, is within the limit), [processFrames] returns the frames,
    and [genLineImage], on their [Average] fields (or [Median] fields) as
    [main] collects them, returns an image in which band [i] is, at every
    pixel, the colour [getAverage] (or [getMedian]) returns on the pixels of
    the [i]-th regular file of the directory, in the runtime of its turn. *)
Theorem line_images_bands rts g o w frameDir (files : list FileInfo) h :
  (forall k, RuntimeOK (rts k)) ->
  ReadDir w frameDir = Some files ->
  (forall file, file ∈ files -> IsDir file = false ->
     exists img, Decode w (frameDir +:+ "/" +:+ Name file) = Some img
                 /\ (genMed o = true ->
                     0 < MaxX (Bounds img) /\ 0 < MaxY (Bounds img))) ->
  3 * genMode g <= maxAlloc ->
  0 < width g -> 4 * width g <= max_int -> 0 < lineHeight g ->
  4 * width g
    * (Z.of_nat (length (filter (fun file => IsDir file = false) files)) * lineHeight g)
    <= maxAlloc ->
  exists frames h',
    processFrames rts g o w frameDir h = Returns (frames, h')
    /\ (genAvg o = true ->
        exists img,
          genLineImage g (Average <$> frames) = Done img
          /\ forall (i : nat) file x y,
               filter (fun file => IsDir file = false) files !! i = Some file ->
               0 <= x < width g ->
               Z.of_nat i * lineHeight g <= y < Z.of_nat i * lineHeight g + lineHeight g ->
               exists c decoded,
                 Decode w (frameDir +:+ "/" +:+ Name file) = Some decoded
                 /\ getAverage (rts i) g 0%nat [scan decoded] = Done (c, [scan decoded])
                 /\ img_At img x y = RGB_RGBA c)
    /\ (genMed o = true ->
        exists img,
          genLineImage g (Median <$> frames) = Done img
          /\ forall (i : nat) file x y,
               filter (fun file => IsDir file = false) files !! i = Some file ->
               0 <= x < width g ->
               Z.of_nat i * lineHeight g <= y < Z.of_nat i * lineHeight g + lineHeight g ->
               exists c decoded sorted,
                 Decode w (frameDir +:+ "/" +:+ Name file) = Some decoded
                 /\ getMedian (rts i) 0%nat [scan decoded] = Done (c, [scan decoded; sorted])
                 /\ img_At img x y = RGB_RGBA c).
Proof.
  intros Hrt Hdir Hfiles Hmode HW HW4 HL Hmax.
  destruct (processFrames_run rts g o w frameDir files h Hrt Hdir Hfiles Hmode)
    as (frames & ext & Hrun & Hlen & Hall).
  set (regular := filter (fun file => IsDir file = false) files) in *.
  exists frames, (h ++ ext). split; [exact Hrun|]. split.
  - intros Havg.
    destruct (field_image_bands g Average
                (fun i file c => exists decoded,
                   Decode w (frameDir +:+ "/" +:+ Name file) = Some decoded
                   /\ getAverage (rts i) g 0%nat [scan decoded] = Done (c, [scan decoded]))
                regular frames) as (img & Himg & Hband); try assumption.
    { intros i file Hi. destruct (Hall i file Hi) as (fr & img & Hfr & _ & Hd & Ha & _).
      rewrite Havg in Ha. exists fr. split; [exact Hfr|]. exists img. auto. }
    exists img. split; [exact Himg|]. intros i file x y Hi Hx Hy.
    destruct (Hband i file x y Hi Hx Hy) as (c & (decoded & Hd & Ha) & Hat). eauto.
  - intros Hmed.
    destruct (field_image_bands g Median
                (fun i file c => exists decoded sorted,
                   Decode w (frameDir +:+ "/" +:+ Name file) = Some decoded
                   /\ getMedian (rts i) 0%nat [scan decoded] = Done (c, [scan decoded; sorted]))
                regular frames) as (img & Himg & Hband); try assumption.
    { intros i file Hi. destruct (Hall i file Hi) as (fr & img & Hfr & _ & Hd & _ & Hm & _).
      rewrite Hmed in Hm. destruct Hm as (l & Hm).
      exists fr. split; [exact Hfr|]. exists img, l. auto. }
    exists img. split; [exact Himg|]. intros i file x y Hi Hx Hy.
    destruct (Hband i file x y Hi Hx Hy) as (c & (decoded & sorted & Hd & Hm) & Hat). eauto 6.
Qed.

Lemma line_images_bands_witness :
  exists frames h',
    processFrames (fun _ => ref_runtime)
      {| width := 3; lineHeight := 2; avgSqr := false; genMode := 0 |}
      {| genAvg := true; genMed := false |}
      {| ReadDir := fun _ => Some [ {| Name := "img000001.png"; IsDir := false |};
                                    {| Name := "old"; IsDir := true |} ];
         Decode := fun _ => Some {| Bounds := image_Rect 0 0 2 1;
                                    ColorAt := fun x _ => (65535 * x, 257, 0, 65535) |} |}
      "out/frames/" [] = Returns (frames, h')
    /\ exists img,
         genLineImage {| width := 3; lineHeight := 2; avgSqr := false; genMode := 0 |}
                      (Average <$> frames) = Done img
         /\ exists c,
              getAverage ref_runtime
                {| width := 3; lineHeight := 2; avgSqr := false; genMode := 0 |}
                0%nat [[rgb 0 1 0; rgb 255 1 0]] = Done (c, [[rgb 0 1 0; rgb 255 1 0]])
              /\ img_At img 2 1 = RGB_RGBA c.
Proof.
  destruct (line_images_bands (fun _ => ref_runtime)
              {| width := 3; lineHeight := 2; avgSqr := false; genMode := 0 |}
              {| genAvg := true; genMed := false |}
              {| ReadDir := fun _ => Some [ {| Name := "img000001.png"; IsDir := false |};
                                            {| Name := "old"; IsDir := true |} ];
                 Decode := fun _ => Some {| Bounds := image_Rect 0 0 2 1;
                                            ColorAt := fun x _ => (65535 * x, 257, 0, 65535) |} |}
              "out/frames/"
              [ {| Name := "img000001.png"; IsDir := false |}; {| Name := "old"; IsDir := true |} ]
              [] (fun _ => ref_runtime_ok) eq_refl)
    as (frames & h' & Hrun & Havg & _).
  - intros file _ _. eexists. split; [reflexivity|]. discriminate.
  - cbn. unfold maxAlloc. lia.
  - cbn. lia.
  - cbn. unfold max_int. lia.
  - cbn. lia.
  - vm_compute. intros E. discriminate E.
  - exists frames, h'. split; [exact Hrun|].
    destruct (Havg eq_refl) as (img & Himg & Hband). exists img. split; [exact Himg|].
    destruct (Hband 0%nat {| Name := "img000001.png"; IsDir := false |} 2 1 eq_refl)
      as (c & decoded & Hd & Ha & Hat); [cbn; lia|cbn; lia|].
    injection Hd as <-. exists c. split; [exact Ha|exact Hat].
Defined.
